(** * LinkedIn Easy Apply bot: a shallow embedding and its properties

    The development embeds the decision logic of
    [linkedin_easy_apply_improved.py] (and, for the output file, of
    [automation.py]) in Rocq.

    - Python [str] values are Rocq strings; a character is read as a code
      point below 256, and [lower], [strip], [isdigit] and [in] follow
      Python on that range.
    - The browser, the language model, the console and the clock are outside
      the program.  They are an arbitrary state type [D] with two oracles:
      [oracle], for calls that may raise, and [sys], for the time functions,
      which do not.  A computation is a function from [D] to a result (a
      value or a raised exception), a new [D] and the list of calls it made.
    - [print] and [logging] calls have no effect on control flow and are
      left out.  Only [Exception] and its subclasses are modelled
      ([KeyboardInterrupt] and [SystemExit] are not). *)

From Stdlib Require Import ZArith QArith String Ascii List Lia DecimalString.
From Equations Require Import Equations.
From stdpp Require Import gmap strings list.
Import ListNotations.

Local Open Scope string_scope.
Local Open Scope list_scope.

(** ** Python strings *)

Module PyStr.

(** [c.lower()] for a code point below 256: A-Z and the Latin-1 capitals
    (192-222 except the multiplication sign 215) move up by 32. *)
Definition lower_char (c : ascii) : ascii :=
  let n := nat_of_ascii c in
  if (((65 <=? n) && (n <=? 90)) || ((192 <=? n) && (n <=? 222) && negb (n =? 215)))%nat
  then ascii_of_nat (n + 32) else c.

Fixpoint lower (s : string) : string :=
  match s with
  | EmptyString => EmptyString
  | String c s' => String (lower_char c) (lower s')
  end.

(** [c.isspace()] below 256. *)
Definition isspace_char (c : ascii) : bool :=
  let n := nat_of_ascii c in
  (((9 <=? n) && (n <=? 13)) || ((28 <=? n) && (n <=? 32)) || (n =? 133) || (n =? 160))%nat.

(** [c.isdigit()] below 256: 0-9 and the superscripts 1, 2, 3. *)
Definition isdigit_char (c : ascii) : bool :=
  let n := nat_of_ascii c in
  (((48 <=? n) && (n <=? 57)) || (n =? 178) || (n =? 179) || (n =? 185))%nat.

Fixpoint lstrip (s : string) : string :=
  match s with
  | EmptyString => EmptyString
  | String c s' => if isspace_char c then lstrip s' else s
  end.

Fixpoint rstrip (s : string) : string :=
  match s with
  | EmptyString => EmptyString
  | String c s' =>
      match rstrip s' with
      | EmptyString => if isspace_char c then EmptyString else String c EmptyString
      | r => String c r
      end
  end.

Definition strip (s : string) : string := rstrip (lstrip s).

Fixpoint all_chars (p : ascii -> bool) (s : string) : bool :=
  match s with
  | EmptyString => true
  | String c s' => p c && all_chars p s'
  end.

(** [s.isdigit()]: non-empty and every character a digit. *)
Definition isdigit (s : string) : bool :=
  match s with
  | EmptyString => false
  | _ => all_chars isdigit_char s
  end.

Fixpoint starts_with (p s : string) : bool :=
  match p, s with
  | EmptyString, _ => true
  | String _ _, EmptyString => false
  | String a p', String b s' => Ascii.eqb a b && starts_with p' s'
  end.

(** [w in s]. *)
Fixpoint contains (w s : string) : bool :=
  starts_with w s ||
  match s with
  | EmptyString => false
  | String _ s' => contains w s'
  end.

(** [any(word in s for word in words)]. *)
Definition any_in (words : list string) (s : string) : bool :=
  existsb (fun w => contains w s) words.

(** [s.replace(old, new)] for a one-character [old]. *)
Fixpoint replace_char (old : ascii) (new : string) (s : string) : string :=
  match s with
  | EmptyString => EmptyString
  | String c s' =>
      if Ascii.eqb c old then new +:+ replace_char old new s'
      else String c (replace_char old new s')
  end.

(** [sep.join(parts)]. *)
Fixpoint join (sep : string) (parts : list string) : string :=
  match parts with
  | [] => EmptyString
  | [p] => p
  | p :: rest => p +:+ sep +:+ join sep rest
  end.

(** [str(n)] for an integer. *)
Definition of_Z (n : Z) : string := NilZero.string_of_int (Z.to_int n).

(** [a or b] on strings: the empty string is falsy. *)
Definition or_else (a b : string) : string :=
  match a with EmptyString => b | _ => a end.

(** The relation behind [in]: [w] occurs in [s]. *)
Definition Occurs (w s : string) : Prop :=
  exists pre post, s = pre +:+ w +:+ post.

End PyStr.

(** ** [get_smart_fallback] *)

Definition cover_letter_sentence : string :=
  "I am excited about this opportunity and believe my skills align well with the requirements.".

Definition get_smart_fallback (question : string) : string :=
  let q_lower := PyStr.lower question in
  if PyStr.any_in ["year"; "experience"; "salary"; "number"] q_lower then "0"
  else if PyStr.any_in ["authorized"; "eligible"; "legal"] q_lower then "Yes"
  else if PyStr.any_in ["sponsor"; "visa"; "h1b"] q_lower then "No"
  else if PyStr.any_in ["relocate"; "move"; "willing"] q_lower then "Yes"
  else if PyStr.any_in ["start"; "available"; "notice"] q_lower then "Immediately"
  else if PyStr.any_in ["degree"; "education"; "university"] q_lower then "Bachelor's Degree"
  else if PyStr.any_in ["cover letter"; "why"; "interest"] q_lower then cover_letter_sentence
  else "Yes".

(** A question mentions a group of keywords when, read case-insensitively,
    one of them occurs in it. *)
Definition mentions (q : string) (words : list string) : Prop :=
  exists w, In w words /\ PyStr.Occurs w (PyStr.lower q).

(** ** The outside world: locators, calls, results *)

(** A Playwright locator is the chain of selectors that built it. *)
Inductive Locator : Type :=
| PageLoc (selector : string)                    (* page.locator(selector) *)
| SubLoc (parent : Locator) (selector : string)  (* parent.locator(selector) *)
| First (l : Locator)                            (* l.first *)
| Nth (l : Locator) (i : nat)                    (* l.nth(i) *)
| FilterHasText (l : Locator) (text : string).   (* l.filter(has_text=text) *)

(** The two kinds of object the script hands around: the page and
    locators.  Python does not check which one a function receives. *)
Inductive PyObj : Type :=
| PageObj
| LocObj (l : Locator).

Inductive exn : Type :=
| TypeError
| AttributeError
| Raised (name : string).   (* anything the outside world raises *)

Inductive res (A : Type) : Type :=
| Ok (a : A)
| Raise (e : exn).
Arguments Ok {A} a.
Arguments Raise {A} e.

(** Calls that may raise. *)
Inductive Req : Type -> Type :=
| Count (l : Locator) : Req nat
| IsVisible (l : Locator) : Req bool
| InnerText (l : Locator) : Req string
| InputValue (l : Locator) : Req string
| GetAttribute (l : Locator) (name : string) : Req (option string)
| IsChecked (l : Locator) : Req bool
| Click (l : Locator) : Req unit
| Fill (l : Locator) (value : string) : Req unit
| SelectOption (l : Locator) (label : string) : Req unit
| Check (l : Locator) : Req unit
| KeyboardPress (key : string) : Req unit
| WaitForSelector (selector : string) (timeout : Z) : Req unit
| Input : Req string
  (* openai.ChatCompletion.create(model="gpt-3.5-turbo", ...) followed by
     resp.choices[0].message.content *)
| ChatCompletion (temperature : Q) (max_tokens timeout : Z) (content : string) : Req string.

(** Calls that do not raise. *)
Inductive SysReq : Type -> Type :=
| Monotonic : SysReq Q                    (* time.monotonic() *)
| Sleep (seconds : Q) : SysReq unit       (* time.sleep(seconds) *)
| RandomUniform (a b : Q) : SysReq Q      (* random.uniform(a, b) *)
| Strftime (format : string) : SysReq string.   (* datetime.now().strftime(format) *)

Inductive Event : Type :=
| Called (A : Type) (r : Req A) (o : res A)
| Timed (A : Type) (r : SysReq A) (a : A).
Arguments Called {A} r o.
Arguments Timed {A} r a.

(** The calls that change a form or the page. *)
Definition is_action (e : Event) : bool :=
  match e with
  | Called r _ =>
      match r with
      | Click _ | Fill _ _ | SelectOption _ _ | Check _ | KeyboardPress _ => true
      | _ => false
      end
  | Timed _ _ => false
  end.

(** The outcome of a language-model call, when the event is one. *)
Definition llm_outcome (e : Event) : option (res string) :=
  match e with
  | Called r o =>
      match r in Req T return res T -> option (res string) with
      | ChatCompletion _ _ _ _ => fun o => Some o
      | _ => fun _ => None
      end o
  | Timed _ _ => None
  end.

(** ** Computations *)

Record Out (D A : Type) : Type := MkOut {
  result : res A;
  final : D;
  events : list Event
}.
Arguments MkOut {D A} result final events.
Arguments result {D A} o.
Arguments final {D A} o.
Arguments events {D A} o.

Definition M (D A : Type) : Type := D -> Out D A.

Definition ret {D A} (a : A) : M D A := fun d => MkOut (Ok a) d [].

Definition raise {D A} (e : exn) : M D A := fun d => MkOut (Raise e) d [].

Definition bind {D A B} (m : M D A) (k : A -> M D B) : M D B := fun d =>
  let o := m d in
  match result o with
  | Ok a => let o' := k a (final o) in
            MkOut (result o') (final o') (events o ++ events o')
  | Raise e => MkOut (Raise e) (final o) (events o)
  end.

(** [try: m  except Exception as e: h e]. *)
Definition try_except {D A} (m : M D A) (h : exn -> M D A) : M D A := fun d =>
  let o := m d in
  match result o with
  | Ok a => o
  | Raise e => let o' := h e (final o) in
               MkOut (result o') (final o') (events o ++ events o')
  end.

Declare Scope py_scope.
Delimit Scope py_scope with py.
Notation "x <- m ;; k" := (bind m (fun x => k))
  (at level 100, m at next level, right associativity) : py_scope.
Notation "m ;;; k" := (bind m (fun _ => k))
  (at level 100, right associativity) : py_scope.

(** How a loop body ends: fall through to the next round ([continue] is the
    same), [break], or [return] from the enclosing function. *)
Inductive Ctl (S R : Type) : Type :=
| Continue (s : S)
| Break (s : S)
| Return (r : R).
Arguments Continue {S R} s.
Arguments Break {S R} s.
Arguments Return {S R} r.

(** [for x in items: body], with the loop's variables in [s].  The result is
    the variables after the loop, or the value returned from inside it. *)
Fixpoint for_each {D X S R} (items : list X) (body : X -> S -> M D (Ctl S R))
    (s : S) : M D (S + R) :=
  match items with
  | [] => ret (inl s)
  | x :: rest =>
      bind (body x s) (fun c =>
        match c with
        | Continue s' => for_each rest body s'
        | Break s' => ret (inl s')
        | Return r => ret (inr r)
        end)
  end.

(** [range(n)]. *)
Definition range (n : nat) : list nat := seq 0 n.

(** The environment a run of the script lives in. *)
Class Env : Type := {
  D : Type;
  oracle : forall A, Req A -> D -> res A * D;
  sys : forall A, SysReq A -> D -> A * D;
  RESUME_TEXT : string
}.

Definition nl : string := String (ascii_of_nat 10) EmptyString.

Definition ANSWER_MAP : list (string * string) :=
  [ ("legally authorized to work", "Yes");
    ("require sponsorship", "No");
    ("relocate", "Yes");
    ("minimum salary", "0");
    ("start date", "Immediately");
    ("years of experience", "0");
    ("notice period", "Immediately");
    ("willing to relocate", "Yes");
    ("authorized to work", "Yes");
    ("visa sponsorship", "No") ].

(** The first [Some] that [f] gives along [l]: a search loop that returns
    from inside. *)
Fixpoint first_some {X Y} (f : X -> option Y) (l : list X) : option Y :=
  match l with
  | [] => None
  | x :: rest => match f x with Some y => Some y | None => first_some f rest end
  end.

Definition loop_vars {S} (r : S + Empty_set) : S :=
  match r with inl s => s | inr e => match e with end end.

Section Model.
Context `{Env}.

Local Open Scope py_scope.

Definition call {A} (r : Req A) : M D A := fun d =>
  let '(o, d') := oracle A r d in MkOut o d' [Called r o].

Definition syscall {A} (r : SysReq A) : M D A := fun d =>
  let '(a, d') := sys A r d in MkOut (Ok a) d' [Timed r a].

(** Method calls on an object that is a page or a locator. *)
Definition obj_is_visible (o : PyObj) : M D bool :=
  match o with
  | LocObj l => call (IsVisible l)
  | PageObj => raise TypeError      (* Page.is_visible needs a selector *)
  end.

Definition obj_locator (o : PyObj) (selector : string) : Locator :=
  match o with
  | PageObj => PageLoc selector
  | LocObj l => SubLoc l selector
  end.

Definition obj_keyboard_press (o : PyObj) (key : string) : M D unit :=
  match o with
  | PageObj => call (KeyboardPress key)
  | LocObj _ => raise AttributeError   (* a Locator has no keyboard *)
  end.

Definition human_pause (a b : Q) : M D unit :=
  x <- syscall (RandomUniform a b);;
  syscall (Sleep x).

Definition is_field_empty (field : Locator) : M D bool :=
  try_except
    (v <- call (InputValue field);;
     let current_value := PyStr.or_else v "" in
     ret (String.eqb (PyStr.strip current_value) ""))
    (fun _ => ret true).

Definition text_prompt (q : string) : string :=
  "You are applying for a Software Engineer Intern position." +:+ nl +:+
  "Use my resume to answer concisely (max 50 words):" +:+ nl +:+ nl +:+
  RESUME_TEXT +:+ nl +:+ nl +:+ "Question: " +:+ q +:+ nl +:+ "Answer:".

Definition answer_text_with_retry (q : string) (max_retries : nat) : M D string :=
  r <- for_each (range max_retries) (fun attempt (_ : unit) =>
         try_except
           (content <- call (ChatCompletion (5 # 10) 80 15 (text_prompt q));;
            let answer := PyStr.strip content in
            ret (Return answer))
           (fun _ =>
              if (attempt =? max_retries - 1)%nat
              then ret (Return (get_smart_fallback q))
              else (syscall (Sleep (inject_Z (2 ^ Z.of_nat attempt)));;;
                    ret (Continue tt)))) tt;;
  match r with
  | inr answer => ret answer
  | inl _ => ret (get_smart_fallback q)
  end.

Definition select_prompt (q : string) (options : list string) : string :=
  "You are applying for a Software Engineer Intern position." +:+ nl +:+
  "Use my resume to choose the best option:" +:+ nl +:+ nl +:+
  RESUME_TEXT +:+ nl +:+ nl +:+ "Question: " +:+ q +:+ nl +:+ "Options:" +:+ nl +:+
  PyStr.join nl (map (fun o => "- " +:+ o) options) +:+
  nl +:+ "Reply exactly with the best option text.".

(** The [ANSWER_MAP] scan at the head of [answer_select_with_retry]. *)
Definition mapped_option (q : string) (options : list string) : option string :=
  first_some (fun '(key, val) =>
    if PyStr.contains key (PyStr.lower q)
    then List.find (fun option => PyStr.contains (PyStr.lower val) (PyStr.lower option)) options
    else None) ANSWER_MAP.

Definition answer_select_with_retry (q : string) (options : list string)
    (max_retries : nat) : M D string :=
  match options with
  | [] => ret ""
  | first_option :: _ =>
      match mapped_option q options with
      | Some option => ret option
      | None =>
          r <- for_each (range max_retries) (fun attempt (_ : unit) =>
                 try_except
                   (content <- call (ChatCompletion (3 # 10) 40 15 (select_prompt q options));;
                    let answer := PyStr.strip content in
                    match List.find (fun option =>
                            PyStr.contains (PyStr.lower answer) (PyStr.lower option)
                            || PyStr.contains (PyStr.lower option) (PyStr.lower answer)) options with
                    | Some option => ret (Return option)
                    | None => ret (Return first_option)
                    end)
                   (fun _ =>
                      if (attempt =? max_retries - 1)%nat
                      then
                        let fallback := get_smart_fallback q in
                        match List.find (fun option =>
                                PyStr.contains (PyStr.lower fallback) (PyStr.lower option)) options with
                        | Some option => ret (Return option)
                        | None => ret (Return first_option)
                        end
                      else (syscall (Sleep (inject_Z (2 ^ Z.of_nat attempt)));;;
                            ret (Continue tt)))) tt;;
          match r with
          | inr answer => ret answer
          | inl _ => ret first_option
          end
      end
  end.

(** [find_navigation_button]: the first visible button, trying the submit
    selectors, then review, then next. *)
Definition button_configs : list (string * list string) :=
  [ ("submit", [ "button:has-text('Submit')"; "button[type='submit']";
                 "button:has-text('Submit application')"; "button[aria-label*='Submit']" ]);
    ("review", [ "button:has-text('Review')"; "button[aria-label*='Review']";
                 "button:has-text('Review application')" ]);
    ("next",   [ "button:has-text('Next')"; "button[aria-label*='Next']";
                 "button:has-text('Continue')"; "button:has-text('Save and continue')" ]) ].

Definition lift_return {S R} (r : S + R) : Ctl S R :=
  match r with inl s => Continue s | inr x => Return x end.

Definition find_navigation_button (modal : PyObj) : M D (option Locator * string) :=
  r <- for_each button_configs (fun '(button_type, selectors) (_ : unit) =>
         r <- for_each selectors (fun selector (_ : unit) =>
                try_except
                  (let btn := First (obj_locator modal selector) in
                   v <- call (IsVisible btn);;
                   if v then ret (Return (Some btn, button_type)) else ret (Continue tt))
                  (fun _ => ret (Continue tt))) tt;;
         ret (lift_return r)) tt;;
  match r with
  | inr found => ret found
  | inl _ => ret (None, "none")
  end.

Definition get_modal_state (modal : PyObj) : M D string :=
  try_except
    (let headers := obj_locator modal "h1, h2, h3, h4" in
     n <- call (Count headers);;
     header_text <- (if (0 <? n)%nat
                     then t <- call (InnerText (First headers));; ret (PyStr.strip t)
                     else ret "");;
     let buttons := obj_locator modal "button" in
     m <- call (Count buttons);;
     button_text <- (if (0 <? m)%nat
                     then
                       m' <- call (Count buttons);;
                       r <- for_each (range (Nat.min m' 5)) (fun i button_texts =>
                              try_except
                                (t <- call (InnerText (Nth buttons i));;
                                 let btn_text := PyStr.strip t in
                                 if String.eqb btn_text ""
                                 then ret (Continue button_texts)
                                 else ret (Continue (button_texts ++ [btn_text])))
                                (fun _ => ret (Continue button_texts))) [];;
                       ret (PyStr.join "|" (loop_vars r))
                     else ret "");;
     ret (header_text +:+ "::" +:+ button_text))
    (fun _ => ret "unknown_state").

(** ** [process_form_fields]

    The function is four [try] blocks in a row, one per kind of control;
    each is a definition here, as is the body of its loop, and [did_fill]
    is passed from one to the next. *)

(** [value and text]: [None] and the empty string are falsy. *)
Definition truthy (v : option string) : bool :=
  match v with
  | Some (String _ _) => true
  | _ => false
  end.

(** [f"{v}"] for an optional string. *)
Definition fmt_opt (v : option string) : string :=
  match v with Some s => s | None => "None" end.

Definition in_list (s : string) (l : list string) : bool :=
  existsb (String.eqb s) l.

Definition non_blank (s : string) : bool :=
  negb (String.eqb (PyStr.strip s) "").

(** One [select]: the body of the loop over the selects. *)
Definition fill_select (section sel : Locator) (did_fill : bool)
    : M D (Ctl bool Empty_set) :=
  try_except
    (v <- call (InputValue sel);;
     let current_value := PyStr.or_else v "" in
     if non_blank current_value then ret (Continue did_fill)
     else
       t <- call (InnerText section);;
       let label := PyStr.strip t in
       let option_elements := SubLoc sel "option" in
       k <- call (Count option_elements);;
       r <- for_each (range k) (fun opt_idx options =>
              let opt := Nth option_elements opt_idx in
              value <- call (GetAttribute opt "value");;
              t <- call (InnerText opt);;
              let text := PyStr.strip t in
              if truthy value && negb (String.eqb text "")
                 && negb (in_list (PyStr.lower text) ["select"; "choose"; "pick"])
              then ret (Continue (options ++ [text]))
              else ret (Continue options)) [];;
       let options := loop_vars r in
       match options with
       | [] => ret (Continue did_fill)
       | _ :: _ =>
           ans <- answer_select_with_retry label options 3;;
           call (SelectOption sel ans);;;
           ret (Continue true)
       end)
    (fun _ => ret (Continue did_fill)).

Definition fill_selects (section : Locator) (did_fill : bool) : M D bool :=
  try_except
    (let selects := SubLoc section "select" in
     n <- call (Count selects);;
     r <- for_each (range n) (fun sel_idx did_fill =>
            fill_select section (Nth selects sel_idx) did_fill) did_fill;;
     ret (loop_vars r))
    (fun _ => ret did_fill).

Definition label_for (section : Locator) (id : option string) : Locator :=
  SubLoc section ("label[for='" +:+ fmt_opt id +:+ "']").

Definition radio_group (section : Locator) (name : option string) : Locator :=
  SubLoc section ("input[type=radio][name='" +:+ fmt_opt name +:+ "']").

(** The labels of a radio group: the text of each button's [label], or the
    button's [value] when it has no label. *)
Definition group_labels (section group_radios : Locator) : M D (list string) :=
  k <- call (Count group_radios);;
  r <- for_each (range k) (fun group_idx labels =>
         let group_radio := Nth group_radios group_idx in
         try_except
           (id <- call (GetAttribute group_radio "id");;
            let label_element := label_for section id in
            c <- call (Count label_element);;
            if (0 <? c)%nat
            then t <- call (InnerText (First label_element));;
                 ret (Continue (labels ++ [PyStr.strip t]))
            else value <- call (GetAttribute group_radio "value");;
                 if truthy value then ret (Continue (labels ++ [fmt_opt value]))
                 else ret (Continue labels))
           (fun _ => ret (Continue labels))) [];;
  ret (loop_vars r).

(** Check the first button of the group whose label contains [choice]. *)
Definition check_choice (section group_radios : Locator) (choice : string)
    (did_fill : bool) : M D bool :=
  k <- call (Count group_radios);;
  r <- for_each (range k) (fun group_idx did_fill =>
         let group_radio := Nth group_radios group_idx in
         try_except
           (id <- call (GetAttribute group_radio "id");;
            let label_element := label_for section id in
            c <- call (Count label_element);;
            if (0 <? c)%nat
            then t <- call (InnerText (First label_element));;
                 let label_text := PyStr.strip t in
                 if PyStr.contains (PyStr.lower choice) (PyStr.lower label_text)
                 then call (Check group_radio);;; ret (Break true)
                 else ret (Continue did_fill)
            else ret (Continue did_fill))
           (fun _ => ret (Continue did_fill))) did_fill;;
  ret (loop_vars r).

Definition fill_radios (section : Locator) (did_fill : bool) : M D bool :=
  try_except
    (let radios := SubLoc section "input[type=radio]" in
     n <- call (Count radios);;
     r <- for_each (range n)
            (fun radio_idx '((processed_groups, did_fill) : gset (option string) * bool) =>
            let radio := Nth radios radio_idx in
            try_except
              (name <- call (GetAttribute radio "name");;
               if bool_decide (name ∈ processed_groups)
               then ret (Continue (processed_groups, did_fill))
               else
                 let processed_groups := {[name]} ∪ processed_groups in
                 (* the rest of the try block, with the group recorded *)
                 try_except
                   (checked <- call (IsChecked radio);;
                    if checked then ret (Continue (processed_groups, did_fill))
                    else
                      let group_radios := radio_group section name in
                      labels <- group_labels section group_radios;;
                      match labels with
                      | [] => ret (Continue (processed_groups, did_fill))
                      | _ :: _ =>
                          t <- call (InnerText section);;
                          let question := PyStr.strip t in
                          choice <- answer_select_with_retry question labels 3;;
                          did_fill <- check_choice section group_radios choice did_fill;;
                          ret (Continue (processed_groups, did_fill))
                      end)
                   (fun _ => ret (Continue (processed_groups, did_fill))))
              (fun _ => ret (Continue (processed_groups, did_fill))))
            (∅, did_fill);;
     ret (snd (loop_vars r)))
    (fun _ => ret did_fill).

(** The value for an empty number field. *)
Definition number_answer (label : string) : M D string :=
  if PyStr.any_in ["year"; "experience"; "salary"] (PyStr.lower label)
  then ret "0"
  else
    ans <- answer_text_with_retry label 3;;
    if PyStr.isdigit ans then ret ans else ret "0".

(** One number input: the body of the loop over the number inputs. *)
Definition fill_number (section num : Locator) (did_fill : bool)
    : M D (Ctl bool Empty_set) :=
  try_except
    (empty <- is_field_empty num;;
     if negb empty
     then call (InputValue num);;; ret (Continue did_fill)
     else
       t <- call (InnerText section);;
       let label := PyStr.strip t in
       ans <- number_answer label;;
       call (Fill num ans);;;
       ret (Continue true))
    (fun _ => ret (Continue did_fill)).

Definition fill_numbers (section : Locator) (did_fill : bool) : M D bool :=
  try_except
    (let numbers := SubLoc section "input[type=number]" in
     n <- call (Count numbers);;
     r <- for_each (range n) (fun num_idx did_fill =>
            fill_number section (Nth numbers num_idx) did_fill) did_fill;;
     ret (loop_vars r))
    (fun _ => ret did_fill).

(** One text input or textarea: the body of the loop over the text fields. *)
Definition fill_text (section fld : Locator) (did_fill : bool)
    : M D (Ctl bool Empty_set) :=
  try_except
    (empty <- is_field_empty fld;;
     if negb empty
     then call (InputValue fld);;; ret (Continue did_fill)
     else
       t <- call (InnerText section);;
       let label := PyStr.strip t in
       let lw := PyStr.lower label in
       match List.find (fun '(key, _) => PyStr.contains key lw) ANSWER_MAP with
       | Some (_, val) =>
           call (Fill fld val);;;
           ret (Continue true)
       | None =>
           ans <- answer_text_with_retry label 3;;
           call (Fill fld ans);;;
           ret (Continue true)
       end)
    (fun _ => ret (Continue did_fill)).

Definition fill_texts (section : Locator) (did_fill : bool) : M D bool :=
  try_except
    (let texts := SubLoc section "textarea, input[type=text]" in
     n <- call (Count texts);;
     r <- for_each (range n) (fun txt_idx did_fill =>
            fill_text section (Nth texts txt_idx) did_fill) did_fill;;
     ret (loop_vars r))
    (fun _ => ret did_fill).

Definition process_form_fields (section : Locator) : M D bool :=
  let did_fill := false in
  did_fill <- fill_selects section did_fill;;
  did_fill <- fill_radios section did_fill;;
  did_fill <- fill_numbers section did_fill;;
  did_fill <- fill_texts section did_fill;;
  ret did_fill.

(** ** [process_modal_with_timeout] *)

Definition max_loops : nat := 20.

Definition cancel_selectors : list string :=
  [ "button:has-text('Cancel')"; "button:has-text('Dismiss')";
    "button:has-text('Close')"; "button[aria-label*='Close']";
    ".artdeco-modal__dismiss" ].

(** Click the button found, pause, and return [True] after a submit. *)
Definition click_and_advance (nav_btn : Locator) (btn_type : string)
    (seen_states : gset string) : M D (Ctl (gset string) bool) :=
  call (Click nav_btn);;;
  human_pause 1 2;;;
  if String.eqb btn_type "submit" then ret (Return true)
  else ret (Continue seen_states).

(** The questions page: up to ten sections, each through
    [process_form_fields]. *)
Definition process_sections (modal : PyObj) : M D bool :=
  let sections := obj_locator modal "section, div.form-section, .artdeco-modal__section" in
  c <- call (Count sections);;
  let sections := if (c =? 0)%nat
                  then FilterHasText (obj_locator modal "div") ""
                  else sections in
  c' <- call (Count sections);;
  r <- for_each (range (Nat.min c' 10)) (fun j fields_processed =>
         let section := Nth sections j in
         try_except
           (t <- call (InnerText section);;
            let section_text := PyStr.strip t in
            if (10 <? String.length section_text)%nat
            then
              call (Count sections);;;     (* printed in the progress line *)
              filled <- process_form_fields section;;
              if filled then ret (Continue true) else ret (Continue fields_processed)
            else ret (Continue fields_processed))
           (fun _ => ret (Continue fields_processed))) false;;
  ret (loop_vars r).

(** No way forward: click a cancel button, or press Escape. *)
Definition close_modal (page modal : PyObj) : M D unit :=
  r <- for_each cancel_selectors (fun selector (closed : bool) =>
         try_except
           (let cancel_btn := First (obj_locator modal selector) in
            v <- call (IsVisible cancel_btn);;
            if v then call (Click cancel_btn);;; ret (Break true)
            else ret (Continue closed))
           (fun _ => ret (Continue closed))) false;;
  let closed := loop_vars r in
  if closed then ret tt
  else try_except (obj_keyboard_press page "Escape") (fun _ => ret tt).

(** One round of the [while] loop, from the [try] on.  [Continue] carries
    the states seen so far into the next round. *)
Definition modal_iteration (page modal : PyObj) (seen_states : gset string)
    : M D (Ctl (gset string) bool) :=
  try_except
    (visible <- obj_is_visible modal;;
     if negb visible then ret (Break seen_states)
     else
       current_state <- get_modal_state modal;;
       if bool_decide (current_state ∈ seen_states) then ret (Break seen_states)
       else
         let seen_states := {[current_state]} ∪ seen_states in
         let header_elements := obj_locator modal "h1, h2, h3, h4" in
         n <- call (Count header_elements);;
         header_text <- (if (0 <? n)%nat
                         then t <- call (InnerText (First header_elements));;
                              ret (PyStr.lower (PyStr.strip t))
                         else ret "");;
         if PyStr.any_in ["contact info"; "resume"; "cv"] header_text then
           found <- find_navigation_button modal;;
           let '(nav_btn, btn_type) := found in
           match nav_btn with
           | Some btn =>
               if in_list btn_type ["next"; "review"]
               then call (Click btn);;; human_pause 1 2;;; ret (Continue seen_states)
               else ret (Break seen_states)
           | None => ret (Break seen_states)
           end
         else if PyStr.any_in ["question"; "education"; "work"; "additional"; "experience"]
                   header_text then
           process_sections modal;;;
           found <- find_navigation_button modal;;
           let '(nav_btn, btn_type) := found in
           match nav_btn with
           | Some btn => click_and_advance btn btn_type seen_states
           | None => ret (Break seen_states)
           end
         else
           found <- find_navigation_button modal;;
           let '(nav_btn, btn_type) := found in
           match nav_btn with
           | Some btn => click_and_advance btn btn_type seen_states
           | None => close_modal page modal;;; ret (Break seen_states)
           end)
    (fun _ => ret (Break seen_states)).

(** [time.monotonic() - start_time < max_duration]. *)
Definition within (now start_time : Q) (max_duration : Z) : bool :=
  negb (Qle_bool (inject_Z max_duration) (now - start_time)).

(** The [while] loop.  The result is the value returned from inside the
    loop, if any, and [loop_count] when the loop is left. *)
Equations? modal_loop (page modal : PyObj) (start_time : Q) (max_duration : Z)
    (loop_count : nat) (seen_states : gset string) (d : D)
    : Out D (option bool * nat) by wf (max_loops - loop_count) lt :=
  modal_loop page modal start_time max_duration loop_count seen_states d
    with le_lt_dec max_loops loop_count := {
    | left _ =>
        (now <- syscall Monotonic;; ret (None, loop_count)) d
    | right Hlt =>
        (now <- syscall Monotonic;;
         if within now start_time max_duration then
           let loop_count := S loop_count in
           c <- modal_iteration page modal seen_states;;
           match c with
           | Continue seen_states =>
               fun d' => modal_loop page modal start_time max_duration loop_count seen_states d'
           | Break _ => ret (None, loop_count)
           | Return b => ret (Some b, loop_count)
           end
         else ret (None, loop_count)) d }.
Proof. unfold max_loops in *. lia. Qed.

Definition process_modal_with_timeout (page modal : PyObj) (max_duration : Z)
    : M D bool :=
  start_time <- syscall Monotonic;;
  r <- modal_loop page modal start_time max_duration 0 ∅;;
  match r with
  | (Some b, _) => ret b
  | (None, loop_count) =>
      syscall Monotonic;;;     (* the timed-out check after the loop *)
      ret false
  end.

(** ** The job loop of [main] in [linkedin_easy_apply_improved.py] *)

(** An output row: a Python dict, keys in insertion order. *)
Definition Row : Type := list (string * option string).

Record Config : Type := {
  MAX_APPLIES : Z;
  CSV_PATH : string;
  MODAL_TIMEOUT : Z
}.

Definition JOB_CARD : string :=
  "li[data-occludable-job-id], li.job-card-container--clickable, .job-card-container, .jobs-search-results__list-item".

Definition NOT_NOW : string :=
  "button:has-text('Not now'), button:has-text('Skip'), button:has-text('Maybe later')".

Definition title_selectors : list string :=
  [ "h3"; ".job-card-list__title"; "[data-test-id*='title']" ].

Definition company_selectors : list string :=
  [ "h4"; ".job-card-container__company-name"; "[data-test-id*='company']" ].

Definition modal_selectors : list string :=
  [ "div[role='dialog']"; ".artdeco-modal"; ".jobs-easy-apply-modal"; "[data-test-modal]" ].

(** [int(x)] on a float: truncation towards zero. *)
Definition py_int (x : Q) : Z := Z.quot (Qnum x) (Z.pos (Qden x)).

(** The title and company loops: the text of the first visible element. *)
Definition card_text (card : Locator) (selectors : list string) (default : string)
    : M D string :=
  r <- for_each selectors (fun selector text =>
         try_except
           (let el := First (SubLoc card selector) in
            v <- call (IsVisible el);;
            if v then t <- call (InnerText el);; ret (Break (PyStr.strip t))
            else ret (Continue text))
           (fun _ => ret (Continue text))) default;;
  ret (loop_vars r).

(** The dialog, or [None] when no selector shows one. *)
Definition locate_modal : M D (option Locator) :=
  call (WaitForSelector "div[role='dialog'], .artdeco-modal" 15000);;;
  let modal := First (PageLoc "div[role='dialog'], .artdeco-modal") in
  v <- call (IsVisible modal);;
  if v then ret (Some modal)
  else
    r <- for_each modal_selectors (fun selector (found : option Locator) =>
           try_except
             (let modal := First (PageLoc selector) in
              v <- call (IsVisible modal);;
              if v then ret (Break (Some modal)) else ret (Continue found))
             (fun _ => ret (Continue found))) None;;
    ret (loop_vars r).

Definition dismiss_follow_up : M D unit :=
  try_except
    (let not_now_buttons := PageLoc NOT_NOW in
     c <- call (Count not_now_buttons);;
     if (0 <? c)%nat
     then call (Click (First not_now_buttons));;; human_pause (5 # 10) 1
     else ret tt)
    (fun _ => ret tt).

Definition make_row (title company link timestamp duration : string) (success : bool)
    : Row :=
  let title_safe := PyStr.replace_char "," " -" title in
  let company_safe := PyStr.replace_char "," " -" company in
  [ ("Title", Some title_safe);
    ("Company", Some company_safe);
    ("Link", Some link);
    ("DateApplied", Some timestamp);
    ("Runtime", Some duration);
    ("Status", Some (if success then "Success" else "Incomplete")) ].

(** The inner [try] of a round: find the dialog, run the wizard, build the
    row.  [None] stands for [continue]. *)
Definition record_application (title company link : string) (results : list Row)
    : M D (option (list Row)) :=
  try_except
    (found <- locate_modal;;
     match found with
     | None => ret None
     | Some modal =>
         start_time <- syscall Monotonic;;
         (* process_modal_with_timeout(modal, page): the dialog goes to the
            [page] parameter and the page to [modal]; max_duration keeps
            its default *)
         success <- process_modal_with_timeout (LocObj modal) PageObj 300;;
         dismiss_follow_up;;;
         now <- syscall Monotonic;;
         let duration := PyStr.of_Z (py_int (now - start_time)) +:+ " sec" in
         timestamp <- syscall (Strftime "%Y-%m-%d %H:%M:%S");;
         ret (Some (results ++ [make_row title company link timestamp duration success]))
     end)
    (fun _ => ret None).

(** Round [i] of [for i in range(total)]. *)
Definition apply_to_job (i : nat) (results : list Row)
    : M D (Ctl (list Row) Empty_set) :=
  try_except
    (let cards := PageLoc JOB_CARD in
     n <- call (Count cards);;
     if (n <=? i)%nat then ret (Continue results)
     else
       let card := Nth cards i in
       title <- card_text card title_selectors "hidden title";;
       company <- card_text card company_selectors "hidden company";;
       link <- try_except
                 (h <- call (GetAttribute (First (SubLoc card "a[href*='/jobs/view/']")) "href");;
                  ret (if truthy h then fmt_opt h else ""))
                 (fun _ => ret "");;
       call (Click card);;;
       human_pause 1 2;;;
       call Input;;;
       human_pause 1 2;;;
       r <- record_application title company link results;;
       match r with
       | None => ret (Continue results)
       | Some results =>
           human_pause (15 # 10) (25 # 10);;;
           ret (Continue results)
       end)
    (fun _ => ret (Continue results)).

(** [total = min(count, MAX_APPLIES)], with [count] the number of job cards
    the scroll loop ended on. *)
Definition total (cfg : Config) (count : nat) : Z :=
  Z.min (Z.of_nat count) (MAX_APPLIES cfg).

Definition apply_to_jobs (cfg : Config) (count : nat) : M D (list Row) :=
  r <- for_each (range (Z.to_nat (total cfg count))) apply_to_job [];;
  ret (loop_vars r).

End Model.

(** ** Writing the output file *)

Definition dq : string := String (ascii_of_nat 34) EmptyString.
Definition crlf : string := String (ascii_of_nat 13) (String (ascii_of_nat 10) EmptyString).

Module Csv.

Fixpoint any_char (p : ascii -> bool) (s : string) : bool :=
  match s with
  | EmptyString => false
  | String c s' => p c || any_char p s'
  end.

(** Minimal quoting: a field with a comma, a quote or a line break. *)
Definition special (c : ascii) : bool :=
  let n := nat_of_ascii c in
  ((n =? 44) || (n =? 34) || (n =? 13) || (n =? 10))%nat.

Definition field (s : string) : string :=
  if any_char special s
  then dq +:+ PyStr.replace_char (ascii_of_nat 34) (dq +:+ dq) s +:+ dq
  else s.

(** [None] is written as the empty string. *)
Definition cell (v : option string) : string :=
  match v with Some s => s | None => "" end.

(** [writer.writerow(cells)]; a row of one empty field is written quoted. *)
Definition line (cells : list string) : string :=
  match cells with
  | [ EmptyString ] => dq +:+ dq +:+ crlf
  | _ => PyStr.join "," (map field cells) +:+ crlf
  end.

Definition get (row : Row) (key : string) : option string :=
  match List.find (fun kv => String.eqb (fst kv) key) row with
  | Some (_, v) => v
  | None => Some ""          (* restval *)
  end.

(** [DictWriter._dict_to_list]: a key outside [fieldnames] raises. *)
Definition dict_to_list (fieldnames : list string) (row : Row) : res (list string) :=
  if forallb (fun kv => in_list (fst kv) fieldnames) row
  then Ok (map (fun key => cell (get row key)) fieldnames)
  else Raise (Raised "ValueError").

(** [writer.writerows(rows)] on the text written so far. *)
Fixpoint writerows (fieldnames : list string) (rows : list Row) (text : string)
    : res unit * string :=
  match rows with
  | [] => (Ok tt, text)
  | row :: rest =>
      match dict_to_list fieldnames row with
      | Ok cells => writerows fieldnames rest (text +:+ line cells)
      | Raise e => (Raise e, text)
      end
  end.

Definition writeheader (fieldnames : list string) (text : string) : string :=
  text +:+ line fieldnames.

End Csv.

(** The file at [CSV_PATH]: absent, or its text. *)
Definition File : Type := option string.

(** The end of both [main]s:
    [file_exists = os.path.isfile(CSV_PATH)], then
    [with open(CSV_PATH, "a", ...) as f] writing the header when the file
    was not there and then the rows. *)
Definition save_results (fieldnames : list string) (results : list Row) (file : File)
    : res unit * File :=
  let file_exists := match file with Some _ => true | None => false end in
  let text := match file with Some t => t | None => "" end in
  let text := if negb file_exists then Csv.writeheader fieldnames text else text in
  let '(r, text) := Csv.writerows fieldnames results text in
  (r, Some text).

Module Improved.

Definition fieldnames : list string :=
  [ "Title"; "Company"; "Link"; "DateApplied"; "Runtime"; "Status" ].

Definition save (results : list Row) (file : File) : res unit * File :=
  save_results fieldnames results file.

End Improved.

(** [automation.py], the earlier script: its rows and its file. *)
Module Automation.

Definition fieldnames : list string :=
  [ "Title"; "Company"; "Link"; "DateApplied"; "Runtime" ].

(** [link] is what [get_attribute("href")] gave, possibly [None]. *)
Definition make_row (title company : string) (link : option string)
    (timestamp dur : string) : Row :=
  [ ("Title", Some title);
    ("Company", Some company);
    ("Link", link);
    ("DateApplied", Some timestamp);
    ("Runtime", Some dur) ].

Definition save (results : list Row) (file : File) : res unit * File :=
  save_results fieldnames results file.

End Automation.


(** ** Specification vocabulary *)

Section Vocabulary.
Context `{Env}.

(** [holds P Q m]: every call [m] makes satisfies [P], and a value it
    returns satisfies [Q]. *)
Definition holds {A} (P : Event -> Prop) (Q : A -> Prop) (m : M D A) : Prop :=
  forall d, Forall P (events (m d)) /\ forall a, result (m d) = Ok a -> Q a.

(** Every call [m] makes satisfies [P]. *)
Definition emits {A} (P : Event -> Prop) (m : M D A) : Prop :=
  forall d, Forall P (events (m d)).

(** [m] only reads, asks the language model and waits: it clicks, fills,
    selects, checks and presses nothing. *)
Definition quiet {A} (m : M D A) : Prop :=
  emits (fun e => is_action e = false) m.

(** A [fill] of a number input of [section] writes a string of digits. *)
Definition number_fill_ok (section : Locator) (e : Event) : Prop :=
  match e with
  | Called r _ =>
      match r with
      | Fill (Nth (SubLoc s selector) _) value =>
          s = section -> selector = "input[type=number]" ->
          PyStr.isdigit value = true
      | _ => True
      end
  | Timed _ _ => True
  end.

(** [m] returns a value from every state: it does not raise. *)
Definition never_raises {A} (m : M D A) : Prop :=
  forall d, exists a, result (m d) = Ok a.

(** A value [m] returns satisfies [Q]. *)
Definition returns {A} (Q : A -> Prop) (m : M D A) : Prop :=
  forall d a, result (m d) = Ok a -> Q a.

(** [o] after the calls [evs]. *)
Definition after {A} (evs : list Event) (o : Out D A) : Out D A :=
  MkOut (result o) (final o) (evs ++ events o).

(** The state string a round of the modal loop computes: what
    [get_modal_state] returns once [is_visible] has said yes. *)
Definition round_state (modal : PyObj) (d : D) : option string :=
  let o := obj_is_visible modal d in
  match result o with
  | Ok true =>
      match result (get_modal_state modal (final o)) with
      | Ok s => Some s
      | Raise _ => None
      end
  | _ => None
  end.

(** [Rounds page modal start_time max_duration d0 recorded loop_count
    seen_states d]: in the call entered with the world in [d0], [loop_count]
    rounds have run and gone on to the next one; [recorded] lists the states
    they computed, oldest first; the loop is about to test its condition
    with the world in [d] and the set [seen_states]. *)
Inductive Rounds (page modal : PyObj) (start_time : Q) (max_duration : Z) (d0 : D)
    : list string -> nat -> gset string -> D -> Prop :=
| rounds_entry :
    Rounds page modal start_time max_duration d0 [] 0 ∅ d0
| rounds_next recorded loop_count seen_states d s seen_states' :
    Rounds page modal start_time max_duration d0 recorded loop_count seen_states d ->
    within (fst (sys Q Monotonic d)) start_time max_duration
      && (loop_count <? max_loops)%nat = true ->
    round_state modal (snd (sys Q Monotonic d)) = Some s ->
    result (modal_iteration page modal seen_states (snd (sys Q Monotonic d)))
      = Ok (Continue seen_states') ->
    Rounds page modal start_time max_duration d0
      (recorded ++ [s]) (S loop_count) seen_states'
      (final (modal_iteration page modal seen_states (snd (sys Q Monotonic d)))).

End Vocabulary.

(** ** Rows and the text written for them *)

Definition keys (row : Row) : list string := map fst row.

Definition cells (row : Row) : list string := map (fun kv => Csv.cell (snd kv)) row.

(** A row as the writer for [fieldnames] puts it in the file: the keys of
    the row are the field names, in their order, and the cells written are
    the values of the row, in that order. *)
Definition written_as (fieldnames : list string) (row : Row) : Prop :=
  keys row = fieldnames /\ Csv.dict_to_list fieldnames row = Ok (cells row).

(** [w] is a stretch of [l]. *)
Definition Segment {X} (w l : list X) : Prop :=
  exists pre post, l = pre ++ w ++ post.

(** ** Two small worlds to run the model in *)

Module Doubles.

(** A dialog that never changes: one heading and one button, both reading
    "Next"; only the Next button is visible among the navigation and cancel
    buttons, and the dialog itself.  The state is the number of clock readings so far, and the
    clock moves 50 seconds per reading.  The language model answers " 42 ". *)
Definition stuck_oracle (A : Type) (r : Req A) (d : nat) : res A * nat :=
  match r in Req T return res T * nat with
  | Count _ => (Ok 1, d)
  | IsVisible l =>
      (Ok match l with
          | First (SubLoc _ "button:has-text('Next')") => true
          | First (SubLoc _ _) => false
          | _ => true
          end, d)
  | InnerText _ => (Ok "Next", d)
  | InputValue _ => (Ok "", d)
  | GetAttribute _ _ => (Ok None, d)
  | IsChecked _ => (Ok false, d)
  | Click _ => (Ok tt, d)
  | Fill _ _ => (Ok tt, d)
  | SelectOption _ _ => (Ok tt, d)
  | Check _ => (Ok tt, d)
  | KeyboardPress _ => (Ok tt, d)
  | WaitForSelector _ _ => (Ok tt, d)
  | Input => (Ok "", d)
  | ChatCompletion _ _ _ _ => (Ok " 42 ", d)
  end.

Definition stuck_sys (A : Type) (r : SysReq A) (d : nat) : A * nat :=
  match r in SysReq T return T * nat with
  | Monotonic => (inject_Z (50 * Z.of_nat d), S d)
  | Sleep _ => (tt, d)
  | RandomUniform a _ => (a, d)
  | Strftime _ => ("2024-05-01 10:00:00", d)
  end.

Definition stuck_page : Env :=
  {| D := nat; oracle := stuck_oracle; sys := stuck_sys; RESUME_TEXT := "B.Sc. student" |}.

Definition dialog : Locator := First (PageLoc "div[role='dialog'], .artdeco-modal").

(** A form section with one radio group, "relocate", of two buttons
    labelled Yes and No.  The state is the index of the checked button.
    There are no other controls, and the language model is down. *)
Definition radio_oracle (A : Type) (r : Req A) (d : nat) : res A * nat :=
  match r in Req T return res T * nat with
  | Count l =>
      (Ok match l with
          | SubLoc _ "input[type=radio]" => 2
          | SubLoc _ "input[type=radio][name='relocate']" => 2
          | SubLoc _ "label[for='r0']" => 1
          | SubLoc _ "label[for='r1']" => 1
          | _ => 0
          end, d)
  | IsVisible _ => (Ok true, d)
  | InnerText l =>
      (Ok match l with
          | First (SubLoc _ "label[for='r0']") => "Yes"
          | First (SubLoc _ "label[for='r1']") => "No"
          | _ => "Are you willing to relocate? Yes No"
          end, d)
  | InputValue _ => (Ok "", d)
  | GetAttribute l name =>
      (Ok match l, name with
          | Nth _ 0, "id" => Some "r0"
          | Nth _ 1, "id" => Some "r1"
          | Nth _ _, "name" => Some "relocate"
          | _, _ => None
          end, d)
  | IsChecked l =>
      (Ok match l with
          | Nth _ i => Nat.eqb i d
          | _ => false
          end, d)
  | Click _ => (Ok tt, d)
  | Fill _ _ => (Ok tt, d)
  | SelectOption _ _ => (Ok tt, d)
  | Check l => (Ok tt, match l with Nth _ i => i | _ => d end)
  | KeyboardPress _ => (Ok tt, d)
  | WaitForSelector _ _ => (Ok tt, d)
  | Input => (Ok "", d)
  | ChatCompletion _ _ _ _ => (Raise (Raised "APIConnectionError"), d)
  end.

Definition radio_sys (A : Type) (r : SysReq A) (d : nat) : A * nat :=
  match r in SysReq T return T * nat with
  | Monotonic => (0%Q, d)
  | Sleep _ => (tt, d)
  | RandomUniform a _ => (a, d)
  | Strftime _ => ("2024-05-01 10:00:00", d)
  end.

Definition radio_form : Env :=
  {| D := nat; oracle := radio_oracle; sys := radio_sys; RESUME_TEXT := "B.Sc. student" |}.

Definition form_section : Locator := Nth (SubLoc dialog "section") 0.

End Doubles.

(** ** Vocabulary for further properties *)

(** The seconds of a [time.sleep], when the event is one. *)
Definition sleep_of (e : Event) : option Q :=
  match e with
  | Timed r _ =>
      match r with
      | Sleep seconds => Some seconds
      | _ => None
      end
  | Called _ _ => None
  end.

(** A write to a control that went through: a fill, a select or a check
    that did not raise. *)
Definition wrote (e : Event) : bool :=
  match e with
  | Called r o =>
      match o with
      | Ok _ =>
          match r with
          | Fill _ _ | SelectOption _ _ | Check _ => true
          | _ => false
          end
      | Raise _ => false
      end
  | Timed _ _ => false
  end.

(** What [process_form_fields] may do to the page of [section]: fill, select
    or check a control found under [section]; no click, no key press. *)
Definition writes_under (section : Locator) (e : Event) : Prop :=
  match e with
  | Called r _ =>
      match r with
      | Fill l _ | SelectOption l _ | Check l =>
          exists selector i, l = Nth (SubLoc section selector) i
      | Click _ | KeyboardPress _ => False
      | _ => True
      end
  | Timed _ _ => True
  end.

(** The loop variable a round ends with, for a loop that returns nothing. *)
Definition ctl_vars {S} (c : Ctl S Empty_set) : S :=
  match c with
  | Continue s | Break s => s
  | Return e => match e with end
  end.

Section MoreVocabulary.
Context `{Env}.

(** [tracks f b0 m]: the flag [f] of what [m] returns is [b0] or-ed with
    "some write went through in [m]"; and if [m] raises, none did. *)
Definition tracks {A} (f : A -> bool) (b0 : bool) (m : M D A) : Prop :=
  forall d,
    match result (m d) with
    | Ok a => f a = b0 || existsb wrote (events (m d))
    | Raise _ => existsb wrote (events (m d)) = false
    end.

End MoreVocabulary.

(** The selectors of [find_navigation_button] in the order it tries them,
    each with the type of its button. *)
Definition nav_order : list (string * string) :=
  flat_map (fun '(button_type, selectors) =>
              map (fun selector => (button_type, selector)) selectors)
           button_configs.

(** One [is_visible] on the first element a selector finds in [modal], and
    what it gave. *)
Definition probe (modal : PyObj) (selector : string) (o : res bool) : Event :=
  Called (IsVisible (First (obj_locator modal selector))) o.

(** An [is_visible] that did not say yes: it said no, or raised. *)
Definition not_seen (o : res bool) : Prop := o <> Ok true.

(** What [get_modal_state] may call: reads only, and of the buttons the text
    of none beyond the fifth. *)
Definition state_read (e : Event) : Prop :=
  is_action e = false /\
  match e with
  | Called r _ =>
      match r with
      | InnerText (Nth _ i) => i < 5
      | _ => True
      end
  | Timed _ _ => True
  end.

(** [l] is found inside [modal]: it was built from a locator of [modal]. *)
Fixpoint inside (modal : PyObj) (l : Locator) : Prop :=
  match l with
  | PageLoc _ => modal = PageObj
  | SubLoc parent _ => modal = LocObj parent \/ inside modal parent
  | First parent | Nth parent _ | FilterHasText parent _ => inside modal parent
  end.

(** What the wizard may do to the page: click, fill, select or check
    something inside the dialog, or press Escape on the page. *)
Definition acts_inside (page modal : PyObj) (e : Event) : Prop :=
  match e with
  | Called r _ =>
      match r with
      | Click l | Fill l _ | SelectOption l _ | Check l => inside modal l
      | KeyboardPress key => key = "Escape" /\ page = PageObj
      | _ => True
      end
  | Timed _ _ => True
  end.

(** The two places [process_sections] looks for sections in. *)
Definition section_lists (modal : PyObj) : list Locator :=
  [ obj_locator modal "section, div.form-section, .artdeco-modal__section";
    FilterHasText (obj_locator modal "div") "" ].

(** What [process_sections] may do: fill, select or check a control of one
    of the first ten sections; no click, no key press. *)
Definition writes_in_first_ten (modal : PyObj) (e : Event) : Prop :=
  match e with
  | Called r _ =>
      match r with
      | Fill l _ | SelectOption l _ | Check l =>
          exists sections j selector i,
            In sections (section_lists modal) /\ j < 10 /\
            l = Nth (SubLoc (Nth sections j) selector) i
      | Click _ | KeyboardPress _ => False
      | _ => True
      end
  | Timed _ _ => True
  end.


(** The end of a run in which a submit button of [modal] was clicked: the
    click went through and the pause after it was taken. *)
Definition submit_click (modal : PyObj) (evs : list Event) : Prop :=
  exists earlier selector x,
    In ("submit", selector) nav_order /\
    evs = earlier ++ [ Called (Click (First (obj_locator modal selector))) (Ok tt);
                       Timed (RandomUniform 1 2) x;
                       Timed (Sleep x) tt ].

(** What a round of the wizard has done when it returns from the function. *)
Definition round_submits (modal : PyObj) (c : Ctl (gset string) bool)
    (evs : list Event) : Prop :=
  match c with
  | Return b => b = true /\ submit_click modal evs
  | Continue _ | Break _ => True
  end.

(** [Q] still holds of a trace when calls are put in front of it. *)
Definition grows {A} (Q : A -> list Event -> Prop) : Prop :=
  forall a earlier evs, Q a evs -> Q a (earlier ++ evs).

Section TraceVocabulary.
Context `{Env}.

(** [traced Q m]: when [m] returns [a], the calls it made satisfy [Q a]. *)
Definition traced {A} (Q : A -> list Event -> Prop) (m : M D A) : Prop :=
  forall d a, result (m d) = Ok a -> Q a (events (m d)).

End TraceVocabulary.

(** ** A dialog with a submit button *)

Module MoreDoubles.

(** The dialog of [Doubles.stuck_page] with a Submit button in the place of
    the Next button. *)
Definition submit_oracle (A : Type) (r : Req A) (d : nat) : res A * nat :=
  match r in Req T return res T * nat with
  | IsVisible l =>
      (Ok match l with
          | First (SubLoc _ "button:has-text('Submit')") => true
          | First (SubLoc _ _) => false
          | _ => true
          end, d)
  | r' => Doubles.stuck_oracle _ r' d
  end.

Definition submit_page : Env :=
  {| D := nat; oracle := submit_oracle; sys := Doubles.stuck_sys;
     RESUME_TEXT := "B.Sc. student" |}.

End MoreDoubles.

(** What the job loop of [main] may call: it clicks job cards and the
    "Not now" button and nothing else, fills, selects, checks and presses
    nothing, and does not ask the language model. *)
Definition job_loop_call (e : Event) : Prop :=
  match e with
  | Called r _ =>
      match r with
      | Click l => (exists i, l = Nth (PageLoc JOB_CARD) i) \/ l = First (PageLoc NOT_NOW)
      | Fill _ _ | SelectOption _ _ | Check _ | KeyboardPress _ => False
      | ChatCompletion _ _ _ _ => False
      | _ => True
      end
  | Timed _ _ => True
  end.

(** The status written for a row. *)
Definition status (row : Row) : option string := Csv.get row "Status".

(** ** Further functions of the scripts *)

Definition easy_apply_selectors : list string :=
  [ "button[data-test-job-apply-button]";
    "button[data-control-name='jobdetails_topcard_inapply']";
    "button:has-text('Easy Apply')";
    "button:has-text('Apply now')";
    "button:has-text('Apply')";
    "button[aria-label*='Easy Apply']";
    "button[aria-label*='Apply']";
    ".jobs-apply-button";
    ".jobs-s-apply";
    ".artdeco-button--primary:has-text('Easy Apply')";
    ".artdeco-button:has-text('Easy Apply')";
    "[data-test-id*='apply']";
    "[data-test*='apply']";
    "[data-automation-id*='apply']";
    "button[class*='apply']:has-text('Easy Apply')";
    "button[class*='apply']:has-text('Apply')";
    "button[type='button']:has-text('Easy Apply')";
    "a[role='button']:has-text('Easy Apply')" ].

Section MoreModel.
Context `{Env}.

Local Open Scope py_scope.

(** [find_easy_apply_button] of [linkedin_easy_apply_improved.py].  A
    selector whose button is not taken has its count read once more, by the
    [elif]; [and] reads [is_visible] only when the count is positive. *)
Definition find_easy_apply_button (page : PyObj) : M D (option Locator) :=
  r <- for_each easy_apply_selectors (fun selector (_ : unit) =>
         try_except
           (let btn := First (obj_locator page selector) in
            c <- call (Count btn);;
            v <- (if (0 <? c)%nat then call (IsVisible btn) else ret false);;
            if v then ret (Return (Some btn))
            else
              call (Count btn);;;
              ret (Continue tt))
           (fun _ => ret (Continue tt))) tt;;
  match r with
  | inr found => ret found
  | inl _ => ret None
  end.

(** [process_form_fields_simple] of [test_field_detection.py]: the body of
    its two loops, which is the same in both. *)
Definition simple_field (fld : Locator) (did_fill : bool) : M D (Ctl bool Empty_set) :=
  try_except
    (empty <- is_field_empty fld;;
     if negb empty
     then call (InputValue fld);;; ret (Continue did_fill)   (* printed *)
     else ret (Continue true))
    (fun _ => ret (Continue did_fill)).

Definition simple_texts (section : Locator) (did_fill : bool) : M D bool :=
  try_except
    (let texts := SubLoc section "textarea, input[type=text]" in
     n <- call (Count texts);;
     r <- for_each (range n) (fun txt_idx did_fill =>
            simple_field (Nth texts txt_idx) did_fill) did_fill;;
     ret (loop_vars r))
    (fun _ => ret did_fill).

Definition simple_numbers (section : Locator) (did_fill : bool) : M D bool :=
  try_except
    (let numbers := SubLoc section "input[type=number]" in
     n <- call (Count numbers);;
     r <- for_each (range n) (fun num_idx did_fill =>
            simple_field (Nth numbers num_idx) did_fill) did_fill;;
     ret (loop_vars r))
    (fun _ => ret did_fill).

Definition process_form_fields_simple (section : Locator) : M D bool :=
  let did_fill := false in
  did_fill <- simple_texts section did_fill;;
  did_fill <- simple_numbers section did_fill;;
  ret did_fill.

(** [leads P f b0 m]: when the flag [f] of what [m] returns is set, it was
    set before ([b0]) or [m] made a call that [P] marks. *)
Definition leads {A} (P : Event -> bool) (f : A -> bool) (b0 : bool) (m : M D A) : Prop :=
  forall d a, result (m d) = Ok a -> f a = true ->
    b0 = true \/ existsb P (events (m d)) = true.

End MoreModel.

(** What [find_easy_apply_button] has done when it returns a button: the
    last two calls counted the button and found it visible. *)
Definition found_visible (page : PyObj) (found : option Locator) (evs : list Event)
    : Prop :=
  match found with
  | Some btn =>
      exists earlier selector c,
        In selector easy_apply_selectors /\
        btn = First (obj_locator page selector) /\
        0 < c /\
        evs = earlier ++ [ Called (Count btn) (Ok c); Called (IsVisible btn) (Ok true) ]
  | None => True
  end.

(** A read of a field that finds it empty: [input_value] raised, or gave
    nothing but whitespace. *)
Definition blank_read (e : Event) : bool :=
  match e with
  | Called r o =>
      match r in Req T return res T -> bool with
      | InputValue _ => fun o =>
          match o with
          | Ok v => PyStr.all_chars PyStr.isspace_char v
          | Raise _ => true
          end
      | _ => fun _ => false
      end o
  | Timed _ _ => false
  end.

(** An [input()] that returned: the user pressed ENTER. *)
Definition entered (e : Event) : bool :=
  match e with
  | Called r o =>
      match r in Req T return res T -> bool with
      | Input => fun o => match o with Ok _ => true | Raise _ => false end
      | _ => fun _ => false
      end o
  | Timed _ _ => false
  end.

(** ** Writes and the reads before them *)

(** The control a [fill] or a [select_option] writes to. *)
Definition write_target (e : Event) : option Locator :=
  match e with
  | Called r _ =>
      match r with
      | Fill l _ | SelectOption l _ => Some l
      | _ => None
      end
  | Timed _ _ => None
  end.

(** A read of the value of [l] that found nothing there: [input_value]
    raised, or gave only whitespace. *)
Definition found_empty (l : Locator) (e : Event) : Prop :=
  exists o,
    e = Called (InputValue l) o /\
    match o with
    | Ok v => PyStr.all_chars PyStr.isspace_char v = true
    | Raise _ => True
    end.

(** Every fill and every select in [evs] comes after a read of the same
    control that found it empty. *)
Definition guarded (evs : list Event) : Prop :=
  forall pre e post l,
    evs = pre ++ e :: post -> write_target e = Some l -> Exists (found_empty l) pre.

(** [e] fills or selects nothing but [l]. *)
Definition writes_only (l : Locator) (e : Event) : Prop :=
  match write_target e with
  | Some l' => l' = l
  | None => True
  end.

Section GuardVocabulary.
Context `{Env}.

Definition keeps_guard {A} (m : M D A) : Prop :=
  forall d, guarded (events (m d)).

End GuardVocabulary.

(** What [find_easy_apply_button] may call: a count or an [is_visible] of
    the first element of one of its selectors, and nothing else. *)
Definition button_probe (page : PyObj) (e : Event) : Prop :=
  match e with
  | Called r _ =>
      match r with
      | Count l | IsVisible l =>
          exists selector,
            In selector easy_apply_selectors /\ l = First (obj_locator page selector)
      | _ => False
      end
  | Timed _ _ => False
  end.

(** The entry [(key, val)] of [ANSWER_MAP] applies to [option] for the
    question [q]: the key occurs in the question and the option contains the
    mapped answer, both read in lower case. *)
Definition applies (q : string) (key val option : string) : Prop :=
  PyStr.Occurs key (PyStr.lower q) /\
  PyStr.Occurs (PyStr.lower val) (PyStr.lower option).

(** ** The rule for number fields *)

(** The control and the string of a [fill]. *)
Definition fill_of (e : Event) : option (Locator * string) :=
  match e with
  | Called r _ =>
      match r with
      | Fill l v => Some (l, v)
      | _ => None
      end
  | Timed _ _ => None
  end.

(** [e] is no fill of a number input of [section]. *)
Definition not_number_fill (section : Locator) (e : Event) : Prop :=
  match e with
  | Called r _ =>
      match r with
      | Fill (Nth (SubLoc s selector) _) _ =>
          s = section -> selector <> "input[type=number]"
      | _ => True
      end
  | Timed _ _ => True
  end.

Section NumberRule.
Context `{Env}.

(** What came before a fill of [v] into a number input of [section]: the
    text of the section was read, its stripped text is the label, and the
    calls from there to the fill are those of the rule for number fields run
    on that label, which gave [v].  For a label about years, experience or
    salary the rule calls nothing and gives "0"; for any other label it
    calls [answer_text_with_retry(label)] and nothing else, and gives the
    answer when that is all digits and "0" when it is not. *)
Definition follows_number_rule (section : Locator) (pre : list Event) (v : string)
    : Prop :=
  exists earlier t d',
    let label := PyStr.strip t in
    let asked := events (number_answer label d') in
    pre = earlier ++ Called (InnerText section) (Ok t) :: asked /\
    result (number_answer label d') = Ok v /\
    PyStr.isdigit v = true /\
    (mentions label ["year"; "experience"; "salary"] -> v = "0" /\ asked = []) /\
    (~ mentions label ["year"; "experience"; "salary"] ->
     exists answer,
       result (answer_text_with_retry label 3 d') = Ok answer /\
       asked = events (answer_text_with_retry label 3 d') /\
       v = if PyStr.isdigit answer then answer else "0").

(** Every fill of a number input of [section] in [evs] follows the rule. *)
Definition number_ruled (section : Locator) (evs : list Event) : Prop :=
  forall pre e post i v,
    evs = pre ++ e :: post ->
    fill_of e = Some (Nth (SubLoc section "input[type=number]") i, v) ->
    follows_number_rule section pre v.

(** [m] makes only traces in [G]. *)
Definition always {A} (G : list Event -> Prop) (m : M D A) : Prop :=
  forall d, G (events (m d)).

End NumberRule.
(** * Properties *)

(** ** Strings *)

Lemma append_cons (x : ascii) (a b : string) : String x a +:+ b = String x (a +:+ b).
Proof. reflexivity. Qed.

Lemma append_nil (b : string) : "" +:+ b = b.
Proof. reflexivity. Qed.

Lemma append_assoc (a b c : string) : (a +:+ b) +:+ c = a +:+ (b +:+ c).
Proof.
  induction a as [|x a IH]; [reflexivity |].
  rewrite !append_cons. f_equal. exact IH.
Qed.

Lemma append_empty_r (a : string) : a +:+ "" = a.
Proof.
  induction a as [|x a IH]; [reflexivity |].
  rewrite append_cons. f_equal. exact IH.
Qed.

Lemma starts_with_spec (p s : string) :
  PyStr.starts_with p s = true <-> exists post, s = p +:+ post.
Proof.
  revert s. induction p as [|a p IH]; intros s; simpl.
  - split; [intros _; now exists s | reflexivity].
  - destruct s as [|b s].
    + split; [discriminate | intros [post E]; rewrite append_cons in E; discriminate].
    + rewrite andb_true_iff, Ascii.eqb_eq, IH. split.
      * intros [-> [post ->]]. now exists post.
      * intros [post E]. rewrite append_cons in E. injection E as -> ->.
        split; [reflexivity | now exists post].
Qed.

Lemma contains_spec (w s : string) :
  PyStr.contains w s = true <-> PyStr.Occurs w s.
Proof.
  unfold PyStr.Occurs. induction s as [|c s IH].
  - simpl. rewrite orb_false_r, starts_with_spec. split.
    + intros [post E]. now exists "", post.
    + intros [pre [post E]]. destruct pre.
      * now exists post.
      * rewrite append_cons in E. discriminate.
  - cbn [PyStr.contains]. rewrite orb_true_iff, starts_with_spec, IH. split.
    + intros [[post E] | [pre [post E]]].
      * now exists "", post.
      * exists (String c pre), post. rewrite append_cons. now rewrite E.
    + intros [pre [post E]]. destruct pre as [|x pre].
      * left. now exists post.
      * right. rewrite append_cons in E. injection E as _ E. now exists pre, post.
Qed.

Lemma any_in_spec (words : list string) (s : string) :
  PyStr.any_in words s = true <-> exists w, In w words /\ PyStr.Occurs w s.
Proof.
  unfold PyStr.any_in. rewrite existsb_exists.
  split; intros [w [Hin Hw]]; exists w; (split; [exact Hin |]); now apply contains_spec.
Qed.

Lemma any_in_mentions (q : string) (words : list string) :
  PyStr.any_in words (PyStr.lower q) = true <-> mentions q words.
Proof. apply any_in_spec. Qed.

Lemma not_mentions (q : string) (words : list string) :
  ~ mentions q words -> PyStr.any_in words (PyStr.lower q) = false.
Proof.
  intros Hn. destruct (PyStr.any_in words (PyStr.lower q)) eqn:E; [| reflexivity].
  exfalso. apply Hn. now apply any_in_mentions.
Qed.

(** ** [get_smart_fallback] *)

(** C8. [get_smart_fallback] is a total function of the question: reading
    the question case-insensitively, the first keyword group it mentions, in
    the order year/experience/salary/number, authorized/eligible/legal,
    sponsor/visa/h1b, relocate/move/willing, start/available/notice,
    degree/education/university, cover letter/why/interest, decides the
    answer, and a question that mentions no group gets "Yes". *)
Theorem get_smart_fallback_priority (q : string) :
  let g1 := ["year"; "experience"; "salary"; "number"] in
  let g2 := ["authorized"; "eligible"; "legal"] in
  let g3 := ["sponsor"; "visa"; "h1b"] in
  let g4 := ["relocate"; "move"; "willing"] in
  let g5 := ["start"; "available"; "notice"] in
  let g6 := ["degree"; "education"; "university"] in
  let g7 := ["cover letter"; "why"; "interest"] in
  (mentions q g1 -> get_smart_fallback q = "0") /\
  (~ mentions q g1 -> mentions q g2 -> get_smart_fallback q = "Yes") /\
  (~ mentions q g1 -> ~ mentions q g2 -> mentions q g3 -> get_smart_fallback q = "No") /\
  (~ mentions q g1 -> ~ mentions q g2 -> ~ mentions q g3 -> mentions q g4 ->
     get_smart_fallback q = "Yes") /\
  (~ mentions q g1 -> ~ mentions q g2 -> ~ mentions q g3 -> ~ mentions q g4 ->
     mentions q g5 -> get_smart_fallback q = "Immediately") /\
  (~ mentions q g1 -> ~ mentions q g2 -> ~ mentions q g3 -> ~ mentions q g4 ->
     ~ mentions q g5 -> mentions q g6 -> get_smart_fallback q = "Bachelor's Degree") /\
  (~ mentions q g1 -> ~ mentions q g2 -> ~ mentions q g3 -> ~ mentions q g4 ->
     ~ mentions q g5 -> ~ mentions q g6 -> mentions q g7 ->
     get_smart_fallback q =
       "I am excited about this opportunity and believe my skills align well with the requirements.") /\
  (~ mentions q g1 -> ~ mentions q g2 -> ~ mentions q g3 -> ~ mentions q g4 ->
     ~ mentions q g5 -> ~ mentions q g6 -> ~ mentions q g7 ->
     get_smart_fallback q = "Yes").
Proof.
  cbv zeta. unfold get_smart_fallback. cbv zeta.
  repeat split; intros;
    repeat match goal with
           | Hn : ~ mentions _ _ |- _ => apply not_mentions in Hn; rewrite Hn; clear Hn
           | Hm : mentions _ _ |- _ => apply any_in_mentions in Hm; rewrite Hm; clear Hm
           end; reflexivity.
Qed.

(** The boolean test decides the relation on a given question. *)
Lemma mentions_by_test (q : string) (words : list string) :
  PyStr.any_in words (PyStr.lower q) = true -> mentions q words.
Proof. apply any_in_mentions. Qed.

Lemma not_mentions_by_test (q : string) (words : list string) :
  PyStr.any_in words (PyStr.lower q) = false -> ~ mentions q words.
Proof. intros E Hm. apply any_in_mentions in Hm. congruence. Qed.

Lemma get_smart_fallback_priority_witness :
  get_smart_fallback "Years of EXPERIENCE with Python?" = "0" /\
  get_smart_fallback "Are you legally Authorized to work?" = "Yes" /\
  get_smart_fallback "Will you require Visa support?" = "No" /\
  get_smart_fallback "Can you move to Berlin?" = "Yes" /\
  get_smart_fallback "What is your notice period?" = "Immediately" /\
  get_smart_fallback "Highest degree?" = "Bachelor's Degree" /\
  get_smart_fallback "WHY this company?" = cover_letter_sentence /\
  get_smart_fallback "Favourite colour" = "Yes".
Proof.
  refine (conj _ (conj _ (conj _ (conj _ (conj _ (conj _ (conj _ _))))))).
  - destruct (get_smart_fallback_priority "Years of EXPERIENCE with Python?") as [C _].
    apply C. apply mentions_by_test; reflexivity.
  - destruct (get_smart_fallback_priority "Are you legally Authorized to work?")
      as (_ & C & _).
    apply C; first [apply not_mentions_by_test; reflexivity | apply mentions_by_test; reflexivity].
  - destruct (get_smart_fallback_priority "Will you require Visa support?")
      as (_ & _ & C & _).
    apply C; first [apply not_mentions_by_test; reflexivity | apply mentions_by_test; reflexivity].
  - destruct (get_smart_fallback_priority "Can you move to Berlin?")
      as (_ & _ & _ & C & _).
    apply C; first [apply not_mentions_by_test; reflexivity | apply mentions_by_test; reflexivity].
  - destruct (get_smart_fallback_priority "What is your notice period?")
      as (_ & _ & _ & _ & C & _).
    apply C; first [apply not_mentions_by_test; reflexivity | apply mentions_by_test; reflexivity].
  - destruct (get_smart_fallback_priority "Highest degree?")
      as (_ & _ & _ & _ & _ & C & _).
    apply C; first [apply not_mentions_by_test; reflexivity | apply mentions_by_test; reflexivity].
  - destruct (get_smart_fallback_priority "WHY this company?")
      as (_ & _ & _ & _ & _ & _ & C & _).
    apply C; first [apply not_mentions_by_test; reflexivity | apply mentions_by_test; reflexivity].
  - destruct (get_smart_fallback_priority "Favourite colour")
      as (_ & _ & _ & _ & _ & _ & _ & C).
    apply C; apply not_mentions_by_test; reflexivity.
Defined.

(** ** The output file *)

Lemma writerows_from (fieldnames : list string) (rows : list Row) (text : string) :
  Csv.writerows fieldnames rows text =
    (fst (Csv.writerows fieldnames rows ""),
     text +:+ snd (Csv.writerows fieldnames rows "")).
Proof.
  revert text. induction rows as [|row rows IH]; intros text; simpl.
  - now rewrite append_empty_r.
  - destruct (Csv.dict_to_list fieldnames row) as [cells | e]; simpl.
    + rewrite (IH (text +:+ Csv.line cells)), (IH ("" +:+ Csv.line cells)). simpl.
      now rewrite append_nil, append_assoc.
    + now rewrite append_empty_r.
Qed.

Lemma save_results_text (fieldnames : list string) (results : list Row) (file : File) :
  snd (save_results fieldnames results file) =
    Some ((match file with Some t => t | None => "" end)
          +:+ (match file with Some _ => "" | None => Csv.line fieldnames end)
          +:+ snd (Csv.writerows fieldnames results "")).
Proof.
  unfold save_results, Csv.writeheader.
  destruct file as [t|]; simpl negb; cbv iota.
  - rewrite (writerows_from fieldnames results t). simpl. now rewrite append_nil.
  - rewrite (writerows_from fieldnames results ("" +:+ Csv.line fieldnames)). simpl.
    reflexivity.
Qed.

(** C6. Recording is append-only.  In both scripts the text of the file
    after the run is the text it had before (nothing, for a file that was
    not there), then the header line exactly when the file was not there,
    then the lines of the rows. *)
Theorem output_file_append_only (results : list Row) (file : File) :
  let before := match file with Some t => t | None => "" end in
  snd (Improved.save results file) =
    Some (before
          +:+ (match file with Some _ => "" | None => Csv.line Improved.fieldnames end)
          +:+ snd (Csv.writerows Improved.fieldnames results "")) /\
  snd (Automation.save results file) =
    Some (before
          +:+ (match file with Some _ => "" | None => Csv.line Automation.fieldnames end)
          +:+ snd (Csv.writerows Automation.fieldnames results "")).
Proof.
  split; apply save_results_text.
Qed.

Example save_to_new_file :
  snd (Improved.save [] None) =
    Some ("Title,Company,Link,DateApplied,Runtime,Status" +:+ crlf).
Proof. reflexivity. Qed.

Example save_to_existing_file :
  snd (Automation.save
         [Automation.make_row "Intern, SWE" "ACME" None "2024-05-01 10:00:00" "3 sec"]
         (Some "old text")) =
    Some ("old text" +:+ dq +:+ "Intern, SWE" +:+ dq +:+
          ",ACME,,2024-05-01 10:00:00,3 sec" +:+ crlf).
Proof. reflexivity. Qed.

(** ** Reasoning about computations *)

Section Logic.
Context `{Env}.

Lemma bind_ok {A B} (m : M D A) (k : A -> M D B) (d : D) (a : A) :
  result (m d) = Ok a ->
  bind m k d =
    MkOut (result (k a (final (m d)))) (final (k a (final (m d))))
          (events (m d) ++ events (k a (final (m d)))).
Proof. intros E. unfold bind. now rewrite E. Qed.

Lemma bind_raise {A B} (m : M D A) (k : A -> M D B) (d : D) (e : exn) :
  result (m d) = Raise e ->
  bind m k d = MkOut (Raise e) (final (m d)) (events (m d)).
Proof. intros E. unfold bind. now rewrite E. Qed.

Lemma try_ok {A} (m : M D A) (h : exn -> M D A) (d : D) (a : A) :
  result (m d) = Ok a -> try_except m h d = m d.
Proof. intros E. unfold try_except. now rewrite E. Qed.

Lemma try_raise {A} (m : M D A) (h : exn -> M D A) (d : D) (e : exn) :
  result (m d) = Raise e ->
  try_except m h d =
    MkOut (result (h e (final (m d)))) (final (h e (final (m d))))
          (events (m d) ++ events (h e (final (m d)))).
Proof. intros E. unfold try_except. now rewrite E. Qed.

Lemma syscall_run {A} (r : SysReq A) (d : D) (a : A) (d1 : D) :
  sys A r d = (a, d1) -> syscall r d = MkOut (Ok a) d1 [Timed r a].
Proof. intros E. unfold syscall. now rewrite E. Qed.

Lemma call_run {A} (r : Req A) (d : D) (o : res A) (d1 : D) :
  oracle A r d = (o, d1) -> call r d = MkOut o d1 [Called r o].
Proof. intros E. unfold call. now rewrite E. Qed.

Lemma bind_ext {A B} (m : M D A) (k k' : A -> M D B) (d : D) :
  (forall a d', k a d' = k' a d') -> bind m k d = bind m k' d.
Proof. intros E. unfold bind. destruct (result (m d)); [now rewrite E | reflexivity]. Qed.

(** What [bind] gives when it succeeds. *)
Lemma bind_inv {A B} (m : M D A) (k : A -> M D B) (d : D) (b : B) :
  result (bind m k d) = Ok b ->
  exists a, result (m d) = Ok a /\
            result (k a (final (m d))) = Ok b /\
            final (bind m k d) = final (k a (final (m d))) /\
            events (bind m k d) = events (m d) ++ events (k a (final (m d))).
Proof.
  intros E. destruct (result (m d)) as [a | e] eqn:Em.
  - rewrite (bind_ok _ _ _ _ Em) in E |- *. simpl in *. now exists a.
  - rewrite (bind_raise _ _ _ _ Em) in E. discriminate.
Qed.

(** [holds P Q m]: every call [m] makes satisfies [P], and a value it
    returns satisfies [Q]. *)
Lemma holds_ret {A} (P : Event -> Prop) (Q : A -> Prop) (a : A) :
  Q a -> holds P Q (ret a).
Proof.
  intros Ha d. simpl. split; [constructor |].
  intros a' E. injection E as <-. exact Ha.
Qed.

Lemma holds_raise {A} (P : Event -> Prop) (Q : A -> Prop) (e : exn) :
  holds P Q (raise e).
Proof. intros d. simpl. split; [constructor | intros a' E; discriminate]. Qed.

Lemma holds_weaken {A} (P : Event -> Prop) (Q Q' : A -> Prop) (m : M D A) :
  holds P Q m -> (forall a, Q a -> Q' a) -> holds P Q' m.
Proof. intros Hm Hq d. destruct (Hm d) as [He Hr]. split; auto. Qed.

Lemma holds_bind {A B} (P : Event -> Prop) (Q : A -> Prop) (Q' : B -> Prop)
    (m : M D A) (k : A -> M D B) :
  holds P Q m -> (forall a, Q a -> holds P Q' (k a)) -> holds P Q' (bind m k).
Proof.
  intros Hm Hk d. destruct (Hm d) as [He Hr].
  destruct (result (m d)) as [a | e] eqn:Em.
  - rewrite (bind_ok _ _ _ _ Em). simpl.
    destruct (Hk a (Hr a eq_refl) (final (m d))) as [He' Hr'].
    split; [apply Forall_app; now split | exact Hr'].
  - rewrite (bind_raise _ _ _ _ Em). simpl. split; [exact He | discriminate].
Qed.

Lemma holds_try {A} (P : Event -> Prop) (Q : A -> Prop)
    (m : M D A) (h : exn -> M D A) :
  holds P Q m -> (forall e, holds P Q (h e)) -> holds P Q (try_except m h).
Proof.
  intros Hm Hh d. destruct (Hm d) as [He Hr].
  destruct (result (m d)) as [a | e] eqn:Em.
  - rewrite (try_ok _ _ _ _ Em). split; [exact He |]. now rewrite Em.
  - rewrite (try_raise _ _ _ _ Em). simpl.
    destruct (Hh e (final (m d))) as [He' Hr'].
    split; [apply Forall_app; now split | exact Hr'].
Qed.

Lemma holds_call {A} (P : Event -> Prop) (r : Req A) :
  (forall o, P (Called r o)) -> holds P (fun _ => True) (call r).
Proof.
  intros Hp d. unfold call. destruct (oracle A r d) as [o d'] eqn:E. simpl.
  split; [repeat constructor; apply Hp | trivial].
Qed.

Lemma holds_syscall {A} (P : Event -> Prop) (r : SysReq A) :
  (forall a, P (Timed r a)) -> holds P (fun _ => True) (syscall r).
Proof.
  intros Hp d. unfold syscall. destruct (sys A r d) as [a d'] eqn:E. simpl.
  split; [repeat constructor; apply Hp | trivial].
Qed.

(** A loop keeps an invariant [I] of its variables, and returns only values
    in [Q]. *)
Definition ctl_post {S R} (I : S -> Prop) (Q : R -> Prop) (c : Ctl S R) : Prop :=
  match c with
  | Continue s | Break s => I s
  | Return r => Q r
  end.

Definition loop_post {S R} (I : S -> Prop) (Q : R -> Prop) (r : S + R) : Prop :=
  match r with
  | inl s => I s
  | inr x => Q x
  end.

Lemma holds_for_each {X S R} (P : Event -> Prop) (I : S -> Prop) (Q : R -> Prop)
    (items : list X) (body : X -> S -> M D (Ctl S R)) (s : S) :
  (forall x s, I s -> holds P (ctl_post I Q) (body x s)) ->
  I s -> holds P (loop_post I Q) (for_each items body s).
Proof.
  intros Hb. revert s. induction items as [|x items IH]; intros s Hs; simpl.
  - now apply holds_ret.
  - eapply holds_bind; [apply Hb, Hs |].
    intros [s' | s' | r] Hc; simpl in Hc.
    + now apply IH.
    + now apply holds_ret.
    + now apply holds_ret.
Qed.

Lemma holds_emits {A} (P : Event -> Prop) (Q : A -> Prop) (m : M D A) :
  holds P Q m -> emits P m.
Proof. intros Hm d. apply Hm. Qed.

Lemma emits_holds {A} (P : Event -> Prop) (m : M D A) :
  emits P m -> holds P (fun _ => True) m.
Proof. intros Hm d. split; [apply Hm | trivial]. Qed.

Lemma emits_ret {A} (P : Event -> Prop) (a : A) : emits P (ret a).
Proof. intros d. constructor. Qed.

Lemma emits_raise {A} (P : Event -> Prop) (e : exn) : emits P (raise (A := A) e).
Proof. intros d. constructor. Qed.

Lemma emits_bind {A B} (P : Event -> Prop) (m : M D A) (k : A -> M D B) :
  emits P m -> (forall a, emits P (k a)) -> emits P (bind m k).
Proof.
  intros Hm Hk. eapply holds_emits with (Q := fun _ => True).
  apply holds_bind with (Q := fun _ => True); [now apply emits_holds |].
  intros a _. apply emits_holds, Hk.
Qed.

Lemma emits_try {A} (P : Event -> Prop) (m : M D A) (h : exn -> M D A) :
  emits P m -> (forall e, emits P (h e)) -> emits P (try_except m h).
Proof.
  intros Hm Hh. eapply holds_emits with (Q := fun _ => True).
  apply holds_try; [now apply emits_holds |]. intros e. apply emits_holds, Hh.
Qed.

Lemma emits_call {A} (P : Event -> Prop) (r : Req A) :
  (forall o, P (Called r o)) -> emits P (call r).
Proof. intros Hp. exact (holds_emits _ _ _ (holds_call P r Hp)). Qed.

Lemma emits_syscall {A} (P : Event -> Prop) (r : SysReq A) :
  (forall a, P (Timed r a)) -> emits P (syscall r).
Proof. intros Hp. exact (holds_emits _ _ _ (holds_syscall P r Hp)). Qed.

Lemma emits_for_each {X S R} (P : Event -> Prop)
    (items : list X) (body : X -> S -> M D (Ctl S R)) (s : S) :
  (forall x s, emits P (body x s)) -> emits P (for_each items body s).
Proof.
  intros Hb. eapply holds_emits with (Q := loop_post (fun _ => True) (fun _ => True)).
  apply holds_for_each; [| exact I].
  intros x s' _. eapply holds_weaken; [apply emits_holds, Hb |].
  intros [?|?|?] _; exact I.
Qed.

Lemma emits_weaken {A} (P P' : Event -> Prop) (m : M D A) :
  emits P m -> (forall e, P e -> P' e) -> emits P' m.
Proof. intros Hm Hp d. eapply Forall_impl; [apply Hm | exact Hp]. Qed.

Lemma quiet_emits {A} (P : Event -> Prop) (m : M D A) :
  quiet m -> (forall e, is_action e = false -> P e) -> emits P m.
Proof. intros Hm Hp. eapply emits_weaken; [exact Hm | exact Hp]. Qed.

Lemma never_raises_ret {A} (a : A) : never_raises (ret a).
Proof. intros d. now exists a. Qed.

Lemma never_raises_syscall {A} (r : SysReq A) : never_raises (syscall r).
Proof. intros d. unfold syscall. destruct (sys A r d) as [a d']. now exists a. Qed.

Lemma never_raises_bind {A B} (m : M D A) (k : A -> M D B) :
  never_raises m -> (forall a, never_raises (k a)) -> never_raises (bind m k).
Proof.
  intros Hm Hk d. destruct (Hm d) as [a Ea].
  rewrite (bind_ok _ _ _ _ Ea). simpl. apply Hk.
Qed.

(** A [try] whose handler does not raise does not raise. *)
Lemma never_raises_try {A} (m : M D A) (h : exn -> M D A) :
  (forall e, never_raises (h e)) -> never_raises (try_except m h).
Proof.
  intros Hh d. destruct (result (m d)) as [a | e] eqn:Em.
  - rewrite (try_ok _ _ _ _ Em). now exists a.
  - rewrite (try_raise _ _ _ _ Em). simpl. apply Hh.
Qed.

Lemma never_raises_for_each {X S R}
    (items : list X) (body : X -> S -> M D (Ctl S R)) (s : S) :
  (forall x s, never_raises (body x s)) -> never_raises (for_each items body s).
Proof.
  intros Hb. revert s. induction items as [|x items IH]; intros s; simpl.
  - apply never_raises_ret.
  - apply never_raises_bind; [apply Hb |].
    intros [s' | s' | r]; [apply IH | apply never_raises_ret | apply never_raises_ret].
Qed.

Lemma try_inv {A} (m : M D A) (h : exn -> M D A) (d : D) (a : A) :
  result (try_except m h d) = Ok a ->
  result (m d) = Ok a \/
  exists e, result (m d) = Raise e /\ result (h e (final (m d))) = Ok a.
Proof.
  intros E. destruct (result (m d)) as [a' | e] eqn:Em.
  - rewrite (try_ok _ _ _ _ Em) in E. left. congruence.
  - rewrite (try_raise _ _ _ _ Em) in E. right. now exists e.
Qed.

Lemma returns_ret {A} (Q : A -> Prop) (a : A) : Q a -> returns Q (ret a).
Proof. intros Ha d a' E. injection E as <-. exact Ha. Qed.

Lemma returns_bind {A B} (Q : B -> Prop) (m : M D A) (k : A -> M D B) :
  (forall a, returns Q (k a)) -> returns Q (bind m k).
Proof.
  intros Hk d b E. destruct (bind_inv _ _ _ _ E) as [a [_ [Ek _]]].
  exact (Hk a _ _ Ek).
Qed.

Lemma returns_bind_with {A B} (Q1 : A -> Prop) (Q : B -> Prop)
    (m : M D A) (k : A -> M D B) :
  returns Q1 m -> (forall a, Q1 a -> returns Q (k a)) -> returns Q (bind m k).
Proof.
  intros Hm Hk d b E. destruct (bind_inv _ _ _ _ E) as [a [Ea [Ek _]]].
  exact (Hk a (Hm _ _ Ea) _ _ Ek).
Qed.

Lemma returns_try {A} (Q : A -> Prop) (m : M D A) (h : exn -> M D A) :
  returns Q m -> (forall e, returns Q (h e)) -> returns Q (try_except m h).
Proof.
  intros Hm Hh d a E. destruct (try_inv _ _ _ _ E) as [Ea | [e [_ Ea]]].
  - exact (Hm _ _ Ea).
  - exact (Hh e _ _ Ea).
Qed.

Lemma returns_for_each {X S R} (I : S -> Prop) (Q : R -> Prop)
    (items : list X) (body : X -> S -> M D (Ctl S R)) (s : S) :
  (forall x s, I s -> returns (ctl_post I Q) (body x s)) ->
  I s -> returns (loop_post I Q) (for_each items body s).
Proof.
  intros Hb. revert s. induction items as [|x items IH]; intros s Hs; simpl.
  - now apply returns_ret.
  - eapply returns_bind_with; [apply Hb, Hs |].
    intros [s' | s' | r] Hc; simpl in Hc.
    + now apply IH.
    + now apply returns_ret.
    + now apply returns_ret.
Qed.

Lemma after_nil {A} (o : Out D A) : after [] o = o.
Proof. now destruct o. Qed.

Lemma after_after {A} (e1 e2 : list Event) (o : Out D A) :
  after e1 (after e2 o) = after (e1 ++ e2) o.
Proof. unfold after. simpl. now rewrite app_assoc. Qed.

End Logic.

(** Take a computation apart along its structure. *)
Ltac emits_step :=
  first
    [ progress cbv beta zeta
    | apply emits_ret
    | apply emits_raise
    | apply emits_bind; [| intros ?]
    | apply emits_try; [| intros ?]
    | apply emits_for_each; intros ? ?
    | apply emits_call; intros ?; cbn; try exact I; try reflexivity
    | apply emits_syscall; intros ?; cbn; try exact I; try reflexivity
    | match goal with
      | |- emits _ (if ?b then _ else _) => destruct b
      | |- emits _ (match ?x with _ => _ end) => destruct x
      | |- emits _ (let '(_, _) := ?x in _) => destruct x
      end ].

Ltac emits_auto := repeat emits_step.

(** ** [answer_text_with_retry] *)

Section Answers.
Context `{Env}.

Local Open Scope py_scope.

(** The attempts [k], [k+1], ... of the retry loop, [m] of them, the last
    being attempt [n - 1]. *)
Lemma retry_outcomes (q : string) (n k m : nat) (d : D) :
  k + m = n ->
  let o := for_each (seq k m) (fun attempt (_ : unit) =>
             try_except
               (content <- call (ChatCompletion (5 # 10) 80 15 (text_prompt q));;
                let answer := PyStr.strip content in
                ret (Return answer))
               (fun _ =>
                  if (attempt =? n - 1)%nat
                  then ret (Return (get_smart_fallback q))
                  else (syscall (Sleep (inject_Z (2 ^ Z.of_nat attempt)));;;
                        ret (Continue tt)))) tt d in
  exists failed,
    (exists content,
       result o = Ok (inr (PyStr.strip content)) /\
       omap llm_outcome (events o) = map Raise failed ++ [Ok content] /\
       length failed < m) \/
    (result o = Ok (inr (get_smart_fallback q)) /\
     omap llm_outcome (events o) = map Raise failed /\
     length failed = m /\ 1 <= m) \/
    (m = 0 /\ result o = Ok (inl tt) /\ events o = []).
Proof.
  intros Hk. cbv zeta. revert k d Hk. induction m as [|m IH]; intros k d Hk.
  - exists []. right. right. auto.
  - cbn [seq for_each].
    match goal with
    | |- context [bind ?b _ d] => set (round := b)
    end.
    destruct (oracle string (ChatCompletion (5 # 10) 80 15 (text_prompt q)) d)
      as [[content | e] d1] eqn:Eo.
    + assert (Hb : round d = MkOut (Ok (Return (PyStr.strip content))) d1
                     [Called (ChatCompletion (5 # 10) 80 15 (text_prompt q)) (Ok content)]).
      { unfold round, try_except, bind, call. rewrite Eo. reflexivity. }
      rewrite (bind_ok _ _ _ (Return (PyStr.strip content))) by now rewrite Hb.
      rewrite Hb. cbn [result final events ret].
      exists []. left. exists content. cbn. repeat split. lia.
    + destruct (k =? n - 1)%nat eqn:Ek.
      * assert (Hb : round d = MkOut (Ok (Return (get_smart_fallback q))) d1
                       [Called (ChatCompletion (5 # 10) 80 15 (text_prompt q)) (Raise e)]).
        { unfold round, try_except, bind, call. rewrite Eo. cbn [result final events].
          reflexivity. }
        rewrite (bind_ok _ _ _ (Return (get_smart_fallback q))) by now rewrite Hb.
        rewrite Hb. cbn [result final events ret].
        apply Nat.eqb_eq in Ek.
        exists [e]. right. left. cbn. repeat split; lia.
      * destruct (sys unit (Sleep (inject_Z (2 ^ Z.of_nat k))) d1) as [u d2] eqn:Es.
        assert (Hb : round d = MkOut (Ok (Continue tt)) d2
                       [Called (ChatCompletion (5 # 10) 80 15 (text_prompt q)) (Raise e);
                        Timed (Sleep (inject_Z (2 ^ Z.of_nat k))) u]).
        { unfold round, try_except, bind, call, syscall. rewrite Eo.
          cbn [result final events]. rewrite Es. reflexivity. }
        rewrite (bind_ok _ _ _ (Continue tt)) by now rewrite Hb.
        rewrite Hb. cbn [result final events].
        apply Nat.eqb_neq in Ek.
        destruct (IH (S k) d2 ltac:(lia)) as [failed Hf].
        exists (e :: failed).
        destruct Hf as [(content & Er & Eo' & Hl) | [(Er & Eo' & Hl & Hm) | (-> & _)]].
        -- left. exists content. rewrite Er. cbn. rewrite Eo'. repeat split. lia.
        -- right. left. rewrite Er. cbn. rewrite Eo'. repeat split; lia.
        -- lia.
Qed.

Lemma answer_text_outcomes (q : string) (d : D) :
  let o := answer_text_with_retry q 3 d in
  let outcomes := omap llm_outcome (events o) in
  exists answer, result o = Ok answer /\
    ((exists failed content,
        outcomes = map Raise failed ++ [Ok content] /\
        length failed < 3 /\
        answer = PyStr.strip content)
     \/
     (exists e1 e2 e3,
        outcomes = [Raise e1; Raise e2; Raise e3] /\
        answer = get_smart_fallback q)).
Proof.
  cbv zeta. unfold answer_text_with_retry, range.
  destruct (retry_outcomes q 3 0 3 d eq_refl) as [failed Hf]. cbv zeta in Hf.
  destruct Hf as [(content & Er & Eo & Hl) | [(Er & Eo & Hl & _) | (Hm & _)]].
  - rewrite (bind_ok _ _ _ _ Er). cbn [result final events ret]. rewrite app_nil_r.
    eexists. split; [reflexivity |]. left. now exists failed, content.
  - rewrite (bind_ok _ _ _ _ Er). cbn [result final events ret]. rewrite app_nil_r.
    eexists. split; [reflexivity |]. right.
    destruct failed as [|e1 [|e2 [|e3 [|]]]]; try discriminate Hl.
    now exists e1, e2, e3.
  - discriminate Hm.
Qed.
(** C4. [answer_text_with_retry(q)] does not raise.  It asks the language
    model at most three times; at the first attempt that succeeds it returns
    that attempt's answer, stripped, and when all three attempts raise it
    returns [get_smart_fallback(q)]. *)
Theorem answer_text_with_retry_total (q : string) (d : D) :
  let o := answer_text_with_retry q 3 d in
  let outcomes := omap llm_outcome (events o) in
  exists answer, result o = Ok answer /\
    ((exists failed content,
        outcomes = map Raise failed ++ [Ok content] /\
        length failed < 3 /\
        answer = PyStr.strip content)
     \/
     (exists e1 e2 e3,
        outcomes = [Raise e1; Raise e2; Raise e3] /\
        answer = get_smart_fallback q)).
Proof. exact (answer_text_outcomes q d). Qed.

End Answers.

(** ** The helpers of the form filler only read *)

Section Quiet.
Context `{Env}.

Lemma quiet_is_field_empty (field : Locator) : quiet (is_field_empty field).
Proof. unfold quiet, is_field_empty. emits_auto. Qed.

Lemma quiet_answer_text (q : string) (n : nat) : quiet (answer_text_with_retry q n).
Proof. unfold quiet, answer_text_with_retry. emits_auto. Qed.

Lemma quiet_answer_select (q : string) (options : list string) (n : nat) :
  quiet (answer_select_with_retry q options n).
Proof. unfold quiet, answer_select_with_retry. emits_auto. Qed.

Lemma quiet_number_answer (label : string) : quiet (number_answer label).
Proof. unfold quiet, number_answer. emits_auto. Qed.

Lemma quiet_group_labels (section group_radios : Locator) :
  quiet (group_labels section group_radios).
Proof. unfold quiet, group_labels. emits_auto. Qed.

Lemma quiet_find_navigation_button (modal : PyObj) :
  quiet (find_navigation_button modal).
Proof. unfold quiet, find_navigation_button. emits_auto. Qed.

Lemma quiet_get_modal_state (modal : PyObj) : quiet (get_modal_state modal).
Proof. unfold quiet, get_modal_state. emits_auto. Qed.

End Quiet.

(** ** Number fields *)

Section NumberFields.
Context `{Env}.

Lemma number_fill_ok_quiet (section : Locator) (e : Event) :
  is_action e = false -> number_fill_ok section e.
Proof.
  destruct e as [A r o | A r a]; [| intros _; exact I].
  destruct r; cbn; try (intros _; exact I); discriminate.
Qed.

(** What [number_answer] returns: "0" for a label about years, experience or
    salary, and otherwise the answer when it is all digits, else "0". *)
Lemma number_answer_value (label : string) (d : D) :
  exists ans, result (number_answer label d) = Ok ans /\
    PyStr.isdigit ans = true /\
    (mentions label ["year"; "experience"; "salary"] -> ans = "0") /\
    (~ mentions label ["year"; "experience"; "salary"] ->
     exists answer,
       result (answer_text_with_retry label 3 d) = Ok answer /\
       ans = if PyStr.isdigit answer then answer else "0").
Proof.
  unfold number_answer.
  destruct (PyStr.any_in ["year"; "experience"; "salary"] (PyStr.lower label)) eqn:E.
  - exists "0". repeat split; try reflexivity.
    intros Hn. exfalso. apply Hn. now apply any_in_mentions.
  - destruct (answer_text_outcomes label d) as [answer [Ea _]].
    cbv zeta in Ea. rewrite (bind_ok _ _ _ _ Ea). cbn [result].
    destruct (PyStr.isdigit answer) eqn:Ed; cbn.
    + exists answer. split; [reflexivity |]. split; [exact Ed |]. split.
      * intros Hm. apply any_in_mentions in Hm. congruence.
      * intros _. exists answer. now rewrite Ed.
    + exists "0". split; [reflexivity |]. split; [reflexivity |]. split.
      * reflexivity.
      * intros _. exists answer. now rewrite Ed.
Qed.

Lemma number_answer_holds (section : Locator) (label : string) :
  holds (number_fill_ok section) (fun ans => PyStr.isdigit ans = true)
        (number_answer label).
Proof.
  intros d. split.
  - apply (quiet_emits _ _ (quiet_number_answer label)), number_fill_ok_quiet.
  - intros a Ea. destruct (number_answer_value label d) as [ans [E [Hd _]]].
    congruence.
Qed.

Lemma fill_number_digits (section : Locator) (i : nat) (did_fill : bool) :
  emits (number_fill_ok section)
        (fill_number section (Nth (SubLoc section "input[type=number]") i) did_fill).
Proof.
  unfold fill_number.
  apply emits_try; [| intros; apply emits_ret].
  apply emits_bind.
  { apply (quiet_emits _ _ (quiet_is_field_empty _)), number_fill_ok_quiet. }
  intros [|]; cbn [negb].
  - apply emits_bind; [emits_auto |]. intros t.
    eapply holds_emits with (Q := fun _ => True).
    eapply holds_bind; [apply number_answer_holds |].
    intros ans Hd. apply emits_holds.
    apply emits_bind; [| intros; apply emits_ret].
    apply emits_call. intros o. cbn. intros _ _. exact Hd.
  - emits_auto.
Qed.

Lemma fill_numbers_digits (section : Locator) (did_fill : bool) :
  emits (number_fill_ok section) (fill_numbers section did_fill).
Proof.
  unfold fill_numbers.
  apply emits_try; [| intros; apply emits_ret].
  apply emits_bind; [emits_auto |]. intros n.
  apply emits_bind; [| intros; apply emits_ret].
  apply emits_for_each. intros num_idx df. apply fill_number_digits.
Qed.

Lemma fill_selects_digits (section : Locator) (did_fill : bool) :
  emits (number_fill_ok section) (fill_selects section did_fill).
Proof.
  unfold fill_selects, fill_select. emits_auto.
  apply (quiet_emits _ _ (quiet_answer_select _ _ _)), number_fill_ok_quiet.
Qed.

Lemma fill_radios_digits (section : Locator) (did_fill : bool) :
  emits (number_fill_ok section) (fill_radios section did_fill).
Proof.
  unfold fill_radios. emits_auto.
  all: apply (quiet_emits _ _ (quiet_answer_select _ _ _)), number_fill_ok_quiet.
Qed.

Lemma fill_texts_digits (section : Locator) (did_fill : bool) :
  emits (number_fill_ok section) (fill_texts section did_fill).
Proof. unfold fill_texts, fill_text. emits_auto; intros _ E; discriminate E. Qed.

(** Every string filled into a number input is all digits. *)
Lemma number_fills_are_digits (section : Locator) (d : D) :
  Forall (number_fill_ok section) (events (process_form_fields section d)).
Proof.
  revert d. change (emits (number_fill_ok section) (process_form_fields section)).
  unfold process_form_fields.
  apply emits_bind; [apply fill_selects_digits | intros ?].
  apply emits_bind; [apply fill_radios_digits | intros ?].
  apply emits_bind; [apply fill_numbers_digits | intros ?].
  apply emits_bind; [apply fill_texts_digits | intros ?].
  apply emits_ret.
Qed.

End NumberFields.

(** ** Controls that already have a value *)

Section FilledControls.
Context `{Env}.

(** A [select] whose value is not blank is left alone: its round reads the
    value and goes on. *)
Lemma filled_select_skipped (section sel : Locator) (did_fill : bool) (d : D)
    (v : string) :
  result (call (InputValue sel) d) = Ok v ->
  non_blank v = true ->
  fill_select section sel did_fill d =
    MkOut (Ok (Continue did_fill)) (final (call (InputValue sel) d))
          (events (call (InputValue sel) d) ++ []).
Proof.
  intros Ev Hv. unfold fill_select.
  assert (Ho : PyStr.or_else v "" = v) by (destruct v; [discriminate Hv | reflexivity]).
  match goal with
  | |- try_except ?m ?h d = ?o => assert (Em : m d = o)
  end.
  { rewrite (bind_ok _ _ _ _ Ev). cbv zeta. rewrite Ho, Hv. reflexivity. }
  rewrite (try_ok _ _ _ (Continue did_fill)) by now rewrite Em.
  exact Em.
Qed.

(** A number input that [is_field_empty] finds filled is left alone. *)
Lemma filled_number_skipped (section num : Locator) (did_fill : bool) (d : D) :
  result (is_field_empty num d) = Ok false ->
  result (fill_number section num did_fill d) = Ok (Continue did_fill) /\
  Forall (fun e => is_action e = false) (events (fill_number section num did_fill d)).
Proof.
  intros Ee. unfold fill_number, try_except.
  rewrite (bind_ok _ _ _ _ Ee). cbn [result final events negb].
  unfold bind, call, ret.
  destruct (oracle string (InputValue num) (final (is_field_empty num d))) as [[v | e] d1];
    cbn; (split; [reflexivity |]).
  - apply Forall_app. split; [apply quiet_is_field_empty | repeat constructor].
  - rewrite app_nil_r. apply Forall_app.
    split; [apply quiet_is_field_empty | repeat constructor].
Qed.

(** A text input or textarea that [is_field_empty] finds filled is left
    alone. *)
Lemma filled_text_skipped (section fld : Locator) (did_fill : bool) (d : D) :
  result (is_field_empty fld d) = Ok false ->
  result (fill_text section fld did_fill d) = Ok (Continue did_fill) /\
  Forall (fun e => is_action e = false) (events (fill_text section fld did_fill d)).
Proof.
  intros Ee. unfold fill_text, try_except.
  rewrite (bind_ok _ _ _ _ Ee). cbn [result final events negb].
  unfold bind, call, ret.
  destruct (oracle string (InputValue fld) (final (is_field_empty fld d))) as [[v | e] d1];
    cbn; (split; [reflexivity |]).
  - apply Forall_app. split; [apply quiet_is_field_empty | repeat constructor].
  - rewrite app_nil_r. apply Forall_app.
    split; [apply quiet_is_field_empty | repeat constructor].
Qed.

End FilledControls.

(** ** The modal loop *)

Section ModalLoop.
Context `{Env}.

Local Open Scope py_scope.

(** The loop as Python writes it: one test of
    [time.monotonic() - start_time < max_duration and loop_count < max_loops],
    then a round. *)
Lemma modal_loop_guard (page modal : PyObj) (start_time : Q) (max_duration : Z)
    (loop_count : nat) (seen_states : gset string) (d : D) :
  modal_loop page modal start_time max_duration loop_count seen_states d =
    (now <- syscall Monotonic;;
     if within now start_time max_duration && (loop_count <? max_loops)%nat then
       c <- modal_iteration page modal seen_states;;
       match c with
       | Continue seen_states =>
           modal_loop page modal start_time max_duration (S loop_count) seen_states
       | Break _ => ret (None, S loop_count)
       | Return b => ret (Some b, S loop_count)
       end
     else ret (None, loop_count)) d.
Proof.
  simp modal_loop.
  destruct (le_lt_dec max_loops loop_count) as [Hge | Hlt]; simpl.
  - apply Nat.ltb_ge in Hge. rewrite Hge.
    apply bind_ext. intros now d'. now rewrite andb_false_r.
  - apply Nat.ltb_lt in Hlt. rewrite Hlt.
    apply bind_ext. intros now d'. now rewrite andb_true_r.
Qed.

Lemma modal_iteration_never_raises (page modal : PyObj) (seen_states : gset string) :
  never_raises (modal_iteration page modal seen_states).
Proof. apply never_raises_try. intros e. apply never_raises_ret. Qed.

(** The loop ends, with a result and a round count of at most [max_loops]
    (or the count it started from, if that was larger). *)
Lemma modal_loop_ends (page modal : PyObj) (start_time : Q) (max_duration : Z)
    (loop_count : nat) (seen_states : gset string) (d : D) :
  exists r rounds,
    result (modal_loop page modal start_time max_duration loop_count seen_states d)
      = Ok (r, rounds) /\
    loop_count <= rounds <= Nat.max loop_count max_loops.
Proof.
  remember (max_loops - loop_count) as n eqn:En.
  revert loop_count seen_states d En.
  induction n as [n IH] using lt_wf_ind. intros loop_count seen_states d En.
  rewrite modal_loop_guard.
  destruct (never_raises_syscall Monotonic d) as [now Enow].
  rewrite (bind_ok _ _ _ _ Enow). cbn [result].
  destruct (within now start_time max_duration && (loop_count <? max_loops)%nat) eqn:Eg.
  - apply andb_true_iff in Eg. destruct Eg as [_ Hlt]. apply Nat.ltb_lt in Hlt.
    destruct (modal_iteration_never_raises page modal seen_states
                (final (syscall Monotonic d))) as [c Ec].
    rewrite (bind_ok _ _ _ _ Ec). cbn [result].
    destruct c as [seen' | seen' | b].
    + destruct (IH (max_loops - S loop_count) ltac:(lia) (S loop_count) seen'
                  (final (modal_iteration page modal seen_states
                            (final (syscall Monotonic d)))) eq_refl)
        as [r [rounds [Er Hr]]].
      exists r, rounds. split; [exact Er | lia].
    + exists None, (S loop_count). split; [reflexivity | lia].
    + exists (Some b), (S loop_count). split; [reflexivity | lia].
  - exists None, loop_count. split; [reflexivity | lia].
Qed.

(** When the time is up at a test, the loop is left there: no round, no call
    but the clock reading. *)
Lemma modal_loop_timeout (page modal : PyObj) (start_time : Q) (max_duration : Z)
    (loop_count : nat) (seen_states : gset string) (d : D) (now : Q) (d1 : D) :
  sys Q Monotonic d = (now, d1) ->
  (inject_Z max_duration <= now - start_time)%Q ->
  modal_loop page modal start_time max_duration loop_count seen_states d =
    MkOut (Ok (None, loop_count)) d1 [Timed Monotonic now].
Proof.
  intros Es Hle. rewrite modal_loop_guard.
  pose proof (syscall_run _ _ _ _ Es) as Er.
  rewrite (bind_ok _ _ _ now) by now rewrite Er.
  rewrite Er. cbn [result final events].
  unfold within. apply Qle_bool_iff in Hle. rewrite Hle. reflexivity.
Qed.

Lemma process_modal_never_raises (page modal : PyObj) (max_duration : Z) :
  never_raises (process_modal_with_timeout page modal max_duration).
Proof.
  unfold process_modal_with_timeout.
  apply never_raises_bind; [apply never_raises_syscall |]. intros start_time.
  apply never_raises_bind.
  - intros d. destruct (modal_loop_ends page modal start_time max_duration 0 ∅ d)
      as [r [rounds [E _]]]. now exists (r, rounds).
  - intros [[b |] rounds]; [apply never_raises_ret |].
    apply never_raises_bind; [apply never_raises_syscall |].
    intros _. apply never_raises_ret.
Qed.

(** C1. [process_modal_with_timeout] returns a boolean from every state of
    the world; its loop runs at most [max_loops = 20] rounds; and at a test
    of the loop condition where the clock shows [max_duration] seconds or
    more since entry, the loop is left at once, with no further round. *)
Theorem process_modal_terminates (page modal : PyObj) (max_duration : Z) :
  (forall d, exists b : bool,
     result (process_modal_with_timeout page modal max_duration d) = Ok b) /\
  max_loops = 20 /\
  (forall start_time d, exists r rounds,
     result (modal_loop page modal start_time max_duration 0 ∅ d) = Ok (r, rounds) /\
     rounds <= max_loops) /\
  (forall start_time loop_count seen_states d now d1,
     sys Q Monotonic d = (now, d1) ->
     (inject_Z max_duration <= now - start_time)%Q ->
     modal_loop page modal start_time max_duration loop_count seen_states d =
       MkOut (Ok (None, loop_count)) d1 [Timed Monotonic now]).
Proof.
  split; [apply process_modal_never_raises |].
  split; [reflexivity |].
  split.
  - intros start_time d.
    destruct (modal_loop_ends page modal start_time max_duration 0 ∅ d)
      as [r [rounds [E Hr]]].
    exists r, rounds. split; [exact E | lia].
  - intros. now apply modal_loop_timeout.
Qed.

(** Every way on from a round hands the same set to the next round. *)
Ltac carries_step :=
  first
    [ progress cbv beta zeta
    | apply returns_ret; intros ? E; first [discriminate E | injection E as <-; reflexivity]
    | apply returns_bind; intros ?
    | progress unfold click_and_advance
    | match goal with
      | |- returns _ (if ?b then _ else _) => destruct b
      | |- returns _ (match ?x with _ => _ end) => destruct x
      end ].

Lemma round_start (modal : PyObj) (d : D) (s : string) :
  round_state modal d = Some s ->
  result (obj_is_visible modal d) = Ok true /\
  result (get_modal_state modal (final (obj_is_visible modal d))) = Ok s.
Proof.
  unfold round_state. cbv zeta.
  destruct (result (obj_is_visible modal d)) as [[|] | e]; try discriminate.
  destruct (result (get_modal_state modal (final (obj_is_visible modal d))))
    as [s' | e]; try discriminate.
  intros [= ->]. now split.
Qed.

(** A round that computes a state already seen ends the loop, and what it
    has done up to there is reading. *)
Lemma duplicate_round (page modal : PyObj) (seen_states : gset string) (d : D)
    (s : string) :
  round_state modal d = Some s -> s ∈ seen_states ->
  result (modal_iteration page modal seen_states d) = Ok (Break seen_states) /\
  Forall (fun e => is_action e = false)
         (events (modal_iteration page modal seen_states d)).
Proof.
  intros Hs Hin. destruct (round_start modal d s Hs) as [Ev Es].
  unfold modal_iteration.
  match goal with
  | |- context [try_except ?m ?h d] =>
      assert (Em : m d =
                MkOut (Ok (Break seen_states))
                  (final (get_modal_state modal (final (obj_is_visible modal d))))
                  (events (obj_is_visible modal d) ++
                   events (get_modal_state modal (final (obj_is_visible modal d))) ++ []))
  end.
  { rewrite (bind_ok _ _ _ _ Ev). cbn [negb].
    rewrite (bind_ok _ _ _ _ Es).
    rewrite bool_decide_eq_true_2 by exact Hin. reflexivity. }
  rewrite (try_ok _ _ _ (Break seen_states)) by now rewrite Em.
  rewrite Em. cbn [result events]. split; [reflexivity |].
  rewrite app_nil_r. apply Forall_app. split.
  - destruct modal; [constructor |]. apply (emits_call _ (IsVisible l)). reflexivity.
  - apply quiet_get_modal_state.
Qed.

(** A round that goes on to the next one computed a state not seen before,
    and adds exactly that state to the set. *)
Lemma continuing_round (page modal : PyObj) (seen_states seen_states' : gset string)
    (d : D) (s : string) :
  round_state modal d = Some s ->
  result (modal_iteration page modal seen_states d) = Ok (Continue seen_states') ->
  (s ∉ seen_states) /\ seen_states' = {[s]} ∪ seen_states.
Proof.
  intros Hs Hc. destruct (round_start modal d s Hs) as [Ev Es].
  destruct (decide (s ∈ seen_states)) as [Hin | Hnin].
  { destruct (duplicate_round page modal seen_states d s Hs Hin) as [E _]. congruence. }
  split; [exact Hnin |].
  unfold modal_iteration in Hc.
  apply try_inv in Hc. destruct Hc as [Hc | [e [_ Hc]]]; [| discriminate Hc].
  rewrite (bind_ok _ _ _ _ Ev) in Hc. cbn [result negb] in Hc.
  rewrite (bind_ok _ _ _ _ Es) in Hc. cbn [result] in Hc.
  rewrite bool_decide_eq_false_2 in Hc by exact Hnin.
  match type of Hc with
  | result (?tail ?d3) = _ =>
      assert (Ht : returns (fun c => forall x, c = Continue x -> x = {[s]} ∪ seen_states) tail)
  end.
  { repeat carries_step. }
  exact (Ht _ _ Hc _ eq_refl).
Qed.

Lemma round_next (page modal : PyObj) (start_time : Q) (max_duration : Z)
    (loop_count : nat) (seen_states seen_states' : gset string) (d : D) :
  within (fst (sys Q Monotonic d)) start_time max_duration
    && (loop_count <? max_loops)%nat = true ->
  result (modal_iteration page modal seen_states (snd (sys Q Monotonic d)))
    = Ok (Continue seen_states') ->
  modal_loop page modal start_time max_duration loop_count seen_states d =
    after (Timed Monotonic (fst (sys Q Monotonic d))
             :: events (modal_iteration page modal seen_states (snd (sys Q Monotonic d))))
          (modal_loop page modal start_time max_duration (S loop_count) seen_states'
             (final (modal_iteration page modal seen_states (snd (sys Q Monotonic d))))).
Proof.
  intros Hg Hc. rewrite modal_loop_guard.
  destruct (sys Q Monotonic d) as [now d1] eqn:Es. cbn [fst snd] in *.
  pose proof (syscall_run _ _ _ _ Es) as Er.
  rewrite (bind_ok _ _ _ now) by now rewrite Er.
  rewrite Er. cbn [result final events]. rewrite Hg.
  rewrite (bind_ok _ _ _ _ Hc). cbn [result final events].
  unfold after. cbn. reflexivity.
Qed.

(** The configurations [Rounds] describes are those the loop goes through:
    the whole call is the calls made so far, then the loop from there. *)
Lemma rounds_reach (page modal : PyObj) (start_time : Q) (max_duration : Z) (d0 : D)
    (recorded : list string) (loop_count : nat) (seen_states : gset string) (d : D) :
  Rounds page modal start_time max_duration d0 recorded loop_count seen_states d ->
  exists evs,
    modal_loop page modal start_time max_duration 0 ∅ d0 =
      after evs (modal_loop page modal start_time max_duration loop_count seen_states d).
Proof.
  induction 1 as [| recorded loop_count seen_states d s seen_states' _ [evs IH] Hg Hs Hc].
  - exists []. now rewrite after_nil.
  - rewrite (round_next _ _ _ _ _ _ _ _ Hg Hc) in IH. rewrite after_after in IH.
    eexists. exact IH.
Qed.

(** The set [seen_states] holds the recorded states, each recorded once. *)
Lemma rounds_recorded (page modal : PyObj) (start_time : Q) (max_duration : Z) (d0 : D)
    (recorded : list string) (loop_count : nat) (seen_states : gset string) (d : D) :
  Rounds page modal start_time max_duration d0 recorded loop_count seen_states d ->
  NoDup recorded /\ length recorded = loop_count /\
  forall s, s ∈ seen_states <-> In s recorded.
Proof.
  induction 1 as [| recorded loop_count seen_states d s seen_states' _ [Hnd [Hlen Hset]]
                     Hg Hs Hc].
  - split; [constructor |]. split; [reflexivity |]. intros s. split.
    + intros Hin. now apply not_elem_of_empty in Hin.
    + intros [].
  - destruct (continuing_round _ _ _ _ _ _ Hs Hc) as [Hnin ->].
    split; [| split].
    + apply NoDup_app. split; [exact Hnd |]. split.
      * intros x Hx Hx'. apply list_elem_of_In in Hx.
        apply list_elem_of_singleton in Hx'. subst x. apply Hnin, Hset, Hx.
      * apply NoDup_singleton.
    + rewrite length_app. simpl. lia.
    + intros x. rewrite elem_of_union, elem_of_singleton, Hset, in_app_iff. simpl.
      split; [intros [-> | Hx]; auto | intros [Hx | [-> | []]]; auto].
Qed.

(** C2. Within one call of [process_modal_with_timeout] no modal state is
    processed twice.  The states recorded by the rounds so far are pairwise
    different and are the members of [seen_states]; and when the round that
    starts next computes a state recorded by an earlier round, it makes no
    click, fill, select, check or key press, and the loop is left. *)
Theorem duplicate_state_ends_loop (page modal : PyObj) (start_time : Q)
    (max_duration : Z) (d0 : D) (recorded : list string) (loop_count : nat)
    (seen_states : gset string) (d : D) :
  Rounds page modal start_time max_duration d0 recorded loop_count seen_states d ->
  NoDup recorded /\
  (forall s, s ∈ seen_states <-> In s recorded) /\
  (exists evs,
     modal_loop page modal start_time max_duration 0 ∅ d0 =
       after evs (modal_loop page modal start_time max_duration loop_count seen_states d)) /\
  forall s,
    within (fst (sys Q Monotonic d)) start_time max_duration
      && (loop_count <? max_loops)%nat = true ->
    round_state modal (snd (sys Q Monotonic d)) = Some s ->
    In s recorded ->
    let o := modal_loop page modal start_time max_duration loop_count seen_states d in
    result o = Ok (None, S loop_count) /\
    Forall (fun e => is_action e = false) (events o).
Proof.
  intros HR. destruct (rounds_recorded _ _ _ _ _ _ _ _ _ HR) as [Hnd [_ Hset]].
  split; [exact Hnd |]. split; [exact Hset |].
  split; [exact (rounds_reach _ _ _ _ _ _ _ _ _ HR) |].
  intros s Hg Hs Hin. cbv zeta.
  apply Hset in Hin.
  destruct (duplicate_round page modal seen_states _ s Hs Hin) as [Eb Hq].
  rewrite modal_loop_guard.
  destruct (sys Q Monotonic d) as [now d1] eqn:Es. cbn [fst snd] in *.
  pose proof (syscall_run _ _ _ _ Es) as Er.
  rewrite (bind_ok _ _ _ now) by now rewrite Er.
  rewrite Er. cbn [result final events]. rewrite Hg.
  rewrite (bind_ok _ _ _ _ Eb). cbn [result final events].
  split; [reflexivity |].
  constructor; [reflexivity |]. rewrite app_nil_r. exact Hq.
Qed.

End ModalLoop.

(** ** The job loop and the rows it records *)

Section Recording.
Context `{Env}.

Local Open Scope py_scope.

Lemma segment_refl {X} (w : list X) : Segment w w.
Proof. exists [], []. now rewrite app_nil_r. Qed.

Lemma segment_app_r {X} (w p l : list X) : Segment w l -> Segment w (p ++ l).
Proof. intros [pre [post ->]]. exists (p ++ pre), post. now rewrite <- app_assoc. Qed.

Lemma segment_app_l {X} (w l q : list X) : Segment w l -> Segment w (l ++ q).
Proof.
  intros [pre [post ->]]. exists pre, (post ++ q). now rewrite <- !app_assoc.
Qed.

(** With the page in the place of the dialog, [modal.is_visible()] raises
    and the round ends the loop at once. *)
Lemma round_on_page (page : PyObj) (seen_states : gset string) (d : D) :
  modal_iteration page PageObj seen_states d = MkOut (Ok (Break seen_states)) d [].
Proof. reflexivity. Qed.

Lemma loop_on_page (page : PyObj) (start_time : Q) (max_duration : Z) (d : D) :
  modal_loop page PageObj start_time max_duration 0 ∅ d =
    MkOut (Ok (None,
               if within (fst (sys Q Monotonic d)) start_time max_duration then 1 else 0))
          (snd (sys Q Monotonic d))
          [Timed Monotonic (fst (sys Q Monotonic d))].
Proof.
  rewrite modal_loop_guard.
  destruct (sys Q Monotonic d) as [now d1] eqn:Es. cbn [fst snd].
  pose proof (syscall_run _ _ _ _ Es) as Er.
  rewrite (bind_ok _ _ _ now) by now rewrite Er.
  rewrite Er. cbn [result final events]. rewrite andb_true_r.
  destruct (within now start_time max_duration); [| reflexivity].
  rewrite (bind_ok _ _ _ (Break ∅)) by now rewrite round_on_page.
  rewrite round_on_page. reflexivity.
Qed.

(** In [main] the wizard is called with the page in the place of the dialog:
    the call returns [False] after three clock readings and nothing else. *)
Lemma wizard_call_in_main (modal : Locator) (max_duration : Z) (d : D) :
  result (process_modal_with_timeout (LocObj modal) PageObj max_duration d) = Ok false /\
  Forall (fun e => exists now, e = Timed Monotonic now)
         (events (process_modal_with_timeout (LocObj modal) PageObj max_duration d)).
Proof.
  unfold process_modal_with_timeout.
  destruct (sys Q Monotonic d) as [start_time d1] eqn:Es.
  pose proof (syscall_run _ _ _ _ Es) as Er.
  rewrite (bind_ok _ _ _ start_time) by now rewrite Er.
  rewrite Er. cbn [result final events].
  rewrite (bind_ok _ _ _ (None, _)) by now rewrite loop_on_page.
  rewrite loop_on_page. cbn [result final events].
  destruct (sys Q Monotonic (snd (sys Q Monotonic d1))) as [now' d3] eqn:Es'.
  pose proof (syscall_run _ _ _ _ Es') as Er'.
  rewrite (bind_ok _ _ _ now') by now rewrite Er'.
  rewrite Er'. cbn. split; [reflexivity |]. repeat constructor; eauto.
Qed.

(** What the inner [try] of a round gives back: nothing, or the rows so far
    and one new row, built after one run of the wizard in this round. *)
Lemma record_application_result (title company link : string) (results : list Row)
    (d : D) :
  exists r, result (record_application title company link results d) = Ok r /\
    match r with
    | None => True
    | Some results' =>
        exists modal d1 timestamp duration success,
          results' = results ++ [make_row title company link timestamp duration success] /\
          result (process_modal_with_timeout (LocObj modal) PageObj 300 d1) = Ok success /\
          Segment (events (process_modal_with_timeout (LocObj modal) PageObj 300 d1))
                  (events (record_application title company link results d))
    end.
Proof.
  unfold record_application.
  match goal with |- context [try_except ?m ?h d] => destruct (result (m d)) as [r | e] eqn:Em end.
  - rewrite (try_ok _ _ _ _ Em). exists r. split; [exact Em |].
    destruct r as [results' |]; [| exact I].
    apply bind_inv in Em. destruct Em as (found & _ & Em & _ & ->).
    destruct found as [modal |]; [| discriminate Em].
    apply bind_inv in Em. destruct Em as (start_time & _ & Em & _ & ->).
    apply bind_inv in Em. destruct Em as (success & Es & Em & _ & ->).
    apply bind_inv in Em. destruct Em as (u & _ & Em & _ & Ee).
    apply bind_inv in Em. destruct Em as (now & _ & Em & _ & _).
    apply bind_inv in Em. destruct Em as (timestamp & _ & Em & _ & _).
    injection Em as <-.
    eexists modal, _, timestamp, _, success.
    split; [reflexivity |]. split; [exact Es |].
    apply segment_app_r, segment_app_r, segment_app_l, segment_refl.
  - rewrite (try_raise _ _ _ _ Em). cbn. exists None. now split.
Qed.

(** A round never ends the loop and never raises; it leaves the rows as they
    were or adds one. *)
Lemma apply_to_job_result (i : nat) (results : list Row) (d : D) :
  exists added,
    result (apply_to_job i results d) = Ok (Continue (results ++ added)) /\
    (added = [] \/
     exists title company link modal d1 timestamp duration success,
       added = [make_row title company link timestamp duration success] /\
       result (process_modal_with_timeout (LocObj modal) PageObj 300 d1) = Ok success /\
       Segment (events (process_modal_with_timeout (LocObj modal) PageObj 300 d1))
               (events (apply_to_job i results d))).
Proof.
  unfold apply_to_job.
  match goal with |- context [try_except ?m ?h d] => destruct (result (m d)) as [c | e] eqn:Em end.
  - rewrite (try_ok _ _ _ _ Em). rewrite Em.
    apply bind_inv in Em. destruct Em as (n & _ & Em & _ & ->).
    destruct (n <=? i)%nat.
    { injection Em as <-. exists []. rewrite app_nil_r. split; [reflexivity | now left]. }
    apply bind_inv in Em. destruct Em as (title & _ & Em & _ & ->).
    apply bind_inv in Em. destruct Em as (company & _ & Em & _ & ->).
    apply bind_inv in Em. destruct Em as (link & _ & Em & _ & ->).
    apply bind_inv in Em. destruct Em as (u1 & _ & Em & _ & ->).
    apply bind_inv in Em. destruct Em as (u2 & _ & Em & _ & ->).
    apply bind_inv in Em. destruct Em as (u3 & _ & Em & _ & ->).
    apply bind_inv in Em. destruct Em as (u4 & _ & Em & _ & ->).
    apply bind_inv in Em. destruct Em as (r & Er & Em & _ & ->).
    match type of Er with
    | result (record_application _ _ _ _ ?d') = _ =>
        destruct (record_application_result title company link results d')
          as [r' [Er' Hr]]
    end.
    rewrite Er in Er'. injection Er' as <-.
    destruct r as [results' |].
    + apply bind_inv in Em. destruct Em as (u5 & _ & Em & _ & _).
      injection Em as <-.
      destruct Hr as (modal & d1 & timestamp & duration & success & -> & Es & Hseg).
      eexists. split; [reflexivity |]. right.
      exists title, company, link, modal, d1, timestamp, duration, success.
      split; [reflexivity |]. split; [exact Es |].
      do 8 apply segment_app_r. apply segment_app_l. exact Hseg.
    + injection Em as <-. exists []. rewrite app_nil_r. split; [reflexivity | now left].
  - rewrite (try_raise _ _ _ _ Em). cbn. exists []. rewrite app_nil_r.
    split; [reflexivity | now left].
Qed.

(** A loop whose rounds each add at most one row adds at most as many rows
    as it has rounds, and each row added is one some round added. *)
Lemma for_each_adds {X} (P : Row -> Prop) (items : list X)
    (body : X -> list Row -> M D (Ctl (list Row) Empty_set)) (results : list Row) (d : D) :
  (forall x rs d', exists added,
      result (body x rs d') = Ok (Continue (rs ++ added)) /\
      length added <= 1 /\ Forall P added) ->
  exists added,
    result (for_each items body results d) = Ok (inl (results ++ added)) /\
    length added <= length items /\ Forall P added.
Proof.
  intros Hb. revert results d. induction items as [|x items IH]; intros results d.
  - exists []. rewrite app_nil_r. cbn. split; [reflexivity |]. split; [lia | constructor].
  - cbn [for_each]. destruct (Hb x results d) as (a1 & E1 & L1 & P1).
    rewrite (bind_ok _ _ _ _ E1). cbn [result].
    destruct (IH (results ++ a1) (final (body x results d))) as (a2 & E2 & L2 & P2).
    exists (a1 ++ a2). rewrite app_assoc. split; [exact E2 |].
    split; [rewrite length_app; cbn [length]; lia | now apply Forall_app].
Qed.

Lemma make_row_written (title company link timestamp duration : string) (success : bool) :
  written_as Improved.fieldnames
    (make_row title company link timestamp duration success).
Proof. split; reflexivity. Qed.

Lemma apply_to_jobs_rows (cfg : Config) (count : nat) (d : D) :
  exists rows,
    result (apply_to_jobs cfg count d) = Ok rows /\
    length rows <= Z.to_nat (total cfg count) /\
    Forall (written_as Improved.fieldnames) rows.
Proof.
  unfold apply_to_jobs.
  destruct (for_each_adds (written_as Improved.fieldnames)
              (range (Z.to_nat (total cfg count))) apply_to_job [] d) as (added & E & L & P).
  - intros i rs d'. destruct (apply_to_job_result i rs d') as (added & E & Hadd).
    exists added. split; [exact E |].
    destruct Hadd as [-> | (t & c & l & m & d1 & ts & dur & s & -> & _)].
    + split; [cbn; lia | constructor].
    + split; [cbn; lia |]. repeat constructor; apply make_row_written.
  - rewrite (bind_ok _ _ _ _ E). cbn. exists added.
    unfold range in L. rewrite length_seq in L. auto.
Qed.

(** C5, amended. Every row recorded by [linkedin_easy_apply_improved.py] has
    exactly the six fields Title, Company, Link, DateApplied, Runtime,
    Status, in that order, and is written with its six values in that
    order.  A row recorded by [automation.py] has the five fields Title,
    Company, Link, DateApplied, Runtime, in that order, and no Status. *)
Theorem recorded_rows_fields :
  Improved.fieldnames =
    ["Title"; "Company"; "Link"; "DateApplied"; "Runtime"; "Status"] /\
  (forall (cfg : Config) (count : nat) (d : D),
     match result (apply_to_jobs cfg count d) with
     | Ok rows => Forall (written_as Improved.fieldnames) rows
     | Raise _ => False
     end) /\
  Automation.fieldnames = ["Title"; "Company"; "Link"; "DateApplied"; "Runtime"] /\
  (forall (title company : string) (link : option string) (timestamp dur : string),
     written_as Automation.fieldnames
       (Automation.make_row title company link timestamp dur)).
Proof.
  split; [reflexivity |]. split.
  - intros cfg count d. destruct (apply_to_jobs_rows cfg count d) as (rows & E & _ & P).
    now rewrite E.
  - split; [reflexivity |]. intros. split; reflexivity.
Qed.


End Recording.

(** C5 as stated fails: a row of [automation.py] has five fields and no
    Status. *)
Lemma automation_row_has_five_fields :
  let row := Automation.make_row "Software Engineer Intern" "ACME"
               (Some "https://www.linkedin.com/jobs/view/1")
               "2024-05-01 10:00:00" "3 sec" in
  keys row <> ["Title"; "Company"; "Link"; "DateApplied"; "Runtime"; "Status"] /\
  length (keys row) = 5 /\
  snd (Automation.save [row] None) =
    Some ("Title,Company,Link,DateApplied,Runtime" +:+ crlf +:+
          "Software Engineer Intern,ACME,https://www.linkedin.com/jobs/view/1,2024-05-01 10:00:00,3 sec"
          +:+ crlf).
Proof.
  cbv zeta. split; [discriminate |]. split; reflexivity.
Qed.

(** ** The model at work on the two small worlds *)

Import Doubles.

Example fallback_after_three_failures :
  result (@answer_text_with_retry radio_form "When can you start?" 3 0) = Ok "Immediately".
Proof. reflexivity. Qed.

Example answer_is_stripped :
  result (@answer_text_with_retry stuck_page "How many pets?" 3 0) = Ok "42".
Proof. reflexivity. Qed.

Example stuck_page_run :
  result (@process_modal_with_timeout stuck_page PageObj (LocObj dialog) 300 0) = Ok false.
Proof. vm_compute. reflexivity. Qed.

Lemma process_modal_terminates_witness :
  sys (Env := stuck_page) Q Monotonic 8%nat = (inject_Z 400, 9%nat) /\
  (inject_Z 300 <= inject_Z 400 - 0)%Q /\
  @modal_loop stuck_page PageObj (LocObj dialog) 0 300 3 ∅ 8%nat =
    MkOut (Ok (None, 3)) 9%nat [Timed Monotonic (inject_Z 400)].
Proof.
  split; [reflexivity |].
  split; [unfold Qle; simpl; lia |].
  destruct (@process_modal_terminates stuck_page PageObj (LocObj dialog) 300)
    as (_ & _ & _ & Ht).
  apply Ht; [reflexivity | unfold Qle; simpl; lia].
Defined.

(** After one round on the dialog that never changes, the loop stands at
    its second test with the state "Next::Next" recorded. *)
Lemma stuck_page_after_one_round :
  @Rounds stuck_page PageObj (LocObj dialog) 0 300 1%nat
    ["Next::Next"] 1 ({["Next::Next"]} ∪ ∅) 2%nat.
Proof.
  exact (@rounds_next stuck_page PageObj (LocObj dialog) 0 300 1%nat
           [] 0 ∅ 1%nat "Next::Next" ({["Next::Next"]} ∪ ∅)
           (@rounds_entry stuck_page PageObj (LocObj dialog) 0 300 1%nat)
           eq_refl eq_refl eq_refl).
Qed.

Lemma duplicate_state_ends_loop_witness :
  let o := @modal_loop stuck_page PageObj (LocObj dialog) 0 300 1
             ({["Next::Next"]} ∪ ∅) 2%nat in
  result o = Ok (None, 2) /\
  Forall (fun e => is_action e = false) (events o).
Proof.
  destruct (@duplicate_state_ends_loop stuck_page PageObj (LocObj dialog) 0 300 1%nat
              ["Next::Next"] 1 ({["Next::Next"]} ∪ ∅) 2%nat stuck_page_after_one_round)
    as (_ & _ & _ & Hdup).
  apply (Hdup "Next::Next"); [reflexivity | reflexivity | left; reflexivity].
Defined.


(** C3 fails on the code.  With MODAL_TIMEOUT = 10 the wizard call of
    [main], entered when the clock reads 50, makes its first test at 100:
    50 seconds have gone by, more than MODAL_TIMEOUT, and the loop still
    starts a round, because the call passes no duration and the limit in
    force is the default 300.  With MODAL_TIMEOUT as the limit it would
    not. *)
Lemma modal_timeout_not_passed :
  let cfg := {| MAX_APPLIES := 5; CSV_PATH := "applications.csv"; MODAL_TIMEOUT := 10 |} in
  fst (sys (Env := stuck_page) Q Monotonic 1%nat) = inject_Z 50 /\
  fst (sys (Env := stuck_page) Q Monotonic 2%nat) = inject_Z 100 /\
  (inject_Z (MODAL_TIMEOUT cfg) <= inject_Z 100 - inject_Z 50)%Q /\
  @modal_loop stuck_page (LocObj dialog) PageObj (inject_Z 50) 300 0 ∅ 2%nat =
    MkOut (Ok (None, 1)) 3%nat [Timed Monotonic (inject_Z 100)] /\
  @modal_loop stuck_page (LocObj dialog) PageObj (inject_Z 50) (MODAL_TIMEOUT cfg) 0 ∅ 2%nat =
    MkOut (Ok (None, 0)) 3%nat [Timed Monotonic (inject_Z 100)] /\
  result (@process_modal_with_timeout stuck_page (LocObj dialog) PageObj 300 1%nat) = Ok false.
Proof.
  cbv zeta. split; [reflexivity |]. split; [reflexivity |].
  split; [unfold Qle; simpl; lia |].
  split; [vm_compute; reflexivity |]. split; vm_compute; reflexivity.
Qed.

(** C10 fails on the code.  In the radio group of [radio_form] the second
    button, No, is checked and the first is not.  [process_form_fields]
    looks at the first button only, takes the group for empty, and checks
    Yes: the selection that was there is replaced. *)
Lemma checked_radio_group_overwritten :
  let group := radio_group form_section (Some "relocate") in
  let o := @process_form_fields radio_form form_section 1%nat in
  fst (radio_oracle bool (IsChecked (Nth group 1)) 1%nat) = Ok true /\
  result o = Ok true /\
  List.filter is_action (events o) = [Called (Check (Nth group 0)) (Ok tt)] /\
  final o = 0%nat /\
  fst (radio_oracle bool (IsChecked (Nth group 1)) (final o)) = Ok false.
Proof.
  cbv zeta. split; [reflexivity |]. split; [vm_compute; reflexivity |].
  split; [vm_compute; reflexivity |]. split; vm_compute; reflexivity.
Qed.

(** * Further properties *)

(** ** The answers for selects and radio groups *)

Section SelectAnswers.
Context `{Env}.

Local Open Scope py_scope.

Lemma first_some_inv {X Y} (f : X -> option Y) (l : list X) (y : Y) :
  first_some f l = Some y -> exists x, In x l /\ f x = Some y.
Proof.
  induction l as [|x l IH]; simpl; [discriminate |].
  destruct (f x) as [y' |] eqn:E.
  - intros [= <-]. exists x. auto.
  - intros Hy. destruct (IH Hy) as [x' [Hin Hx]]. exists x'. auto.
Qed.

Lemma mapped_option_meaning (q : string) (options : list string) (option : string) :
  mapped_option q options = Some option ->
  exists key val,
    In (key, val) ANSWER_MAP /\
    PyStr.Occurs key (PyStr.lower q) /\
    In option options /\
    PyStr.Occurs (PyStr.lower val) (PyStr.lower option).
Proof.
  unfold mapped_option. intros Hm.
  apply first_some_inv in Hm. destruct Hm as [[key val] [Hin Hf]].
  destruct (PyStr.contains key (PyStr.lower q)) eqn:Ek; [| discriminate].
  apply find_some in Hf. destruct Hf as [Ho Hc].
  exists key, val. repeat split; try assumption; now apply contains_spec.
Qed.

Lemma answer_select_never_raises (q : string) (options : list string) (n : nat) :
  never_raises (answer_select_with_retry q options n).
Proof.
  unfold answer_select_with_retry.
  destruct options as [|first_option rest]; [apply never_raises_ret |].
  destruct (mapped_option q (first_option :: rest)); [apply never_raises_ret |].
  apply never_raises_bind.
  - apply never_raises_for_each. intros attempt []. apply never_raises_try. intros e.
    destruct (attempt =? n - 1)%nat.
    + destruct (List.find _ _); apply never_raises_ret.
    + apply never_raises_bind; [apply never_raises_syscall |].
      intros _. apply never_raises_ret.
  - intros [[] | answer]; apply never_raises_ret.
Qed.

Lemma answer_select_in_options (q : string) (first_option : string)
    (rest : list string) (n : nat) :
  returns (fun a => In a (first_option :: rest))
          (answer_select_with_retry q (first_option :: rest) n).
Proof.
  unfold answer_select_with_retry.
  destruct (mapped_option q (first_option :: rest)) as [option |] eqn:Em.
  - apply returns_ret.
    destruct (mapped_option_meaning _ _ _ Em) as (_ & _ & _ & _ & Hin & _). exact Hin.
  - eapply returns_bind_with
      with (Q1 := loop_post (fun _ : unit => True) (fun a => In a (first_option :: rest))).
    + apply returns_for_each; [| exact I]. intros attempt [] _.
      apply returns_try.
      * apply returns_bind. intros content. cbv zeta.
        destruct (List.find _ _) as [option |] eqn:Ef; apply returns_ret; cbn.
        -- now apply find_some in Ef.
        -- now left.
      * intros e. destruct (attempt =? n - 1)%nat.
        -- cbv zeta. destruct (List.find _ _) as [option |] eqn:Ef; apply returns_ret; cbn.
           ++ now apply find_some in Ef.
           ++ now left.
        -- apply returns_bind. intros _. apply returns_ret. exact I.
    + intros [[] | answer] Hr; apply returns_ret; [now left | exact Hr].
Qed.

(** X1. [answer_select_with_retry] does not raise, and what it returns is one
    of the options it was given: the empty string when there are none. *)
Theorem answer_select_returns_option (q : string) (options : list string) (n : nat)
    (d : D) :
  exists a,
    result (answer_select_with_retry q options n d) = Ok a /\
    match options with
    | [] => a = ""
    | _ :: _ => In a options
    end.
Proof.
  destruct (answer_select_never_raises q options n d) as [a Ea].
  exists a. split; [exact Ea |].
  destruct options as [|first_option rest].
  - cbn in Ea. now injection Ea as <-.
  - exact (answer_select_in_options q first_option rest n d a Ea).
Qed.

Lemma find_first {X} (p : X -> bool) (earlier : list X) (x : X) (later : list X) :
  Forall (fun y => p y = false) earlier -> p x = true ->
  List.find p (earlier ++ x :: later) = Some x.
Proof.
  intros He Hx. induction He as [|y earlier Hy _ IH]; cbn.
  - now rewrite Hx.
  - now rewrite Hy.
Qed.

Lemma find_nothing {X} (p : X -> bool) (l : list X) :
  Forall (fun y => p y = false) l -> List.find p l = None.
Proof. induction 1 as [|y l Hy _ IH]; cbn; [reflexivity | now rewrite Hy]. Qed.

Lemma first_some_first {X Y} (f : X -> option Y) (before : list X) (x : X)
    (after : list X) (y : Y) :
  Forall (fun z => f z = None) before -> f x = Some y ->
  first_some f (before ++ x :: after) = Some y.
Proof.
  intros Hb Hx. induction Hb as [|z before Hz _ IH]; cbn.
  - now rewrite Hx.
  - now rewrite Hz.
Qed.

Lemma first_some_exists {X Y} (f : X -> option Y) (l : list X) (x : X) (y : Y) :
  In x l -> f x = Some y -> exists y', first_some f l = Some y'.
Proof.
  induction l as [|z l IH]; cbn; [contradiction |].
  intros [-> | Hin] Hx.
  - rewrite Hx. now exists y.
  - destruct (f z) as [y' |]; [now exists y' | now apply IH].
Qed.

Lemma not_contains (w s : string) : ~ PyStr.Occurs w s -> PyStr.contains w s = false.
Proof.
  intros Hn. destruct (PyStr.contains w s) eqn:E; [| reflexivity].
  apply contains_spec in E. contradiction.
Qed.

(** The scan finds an option as soon as some entry applies to some option. *)
Lemma mapped_option_found (q : string) (options : list string)
    (key val option : string) :
  In (key, val) ANSWER_MAP -> In option options -> applies q key val option ->
  exists chosen, mapped_option q options = Some chosen.
Proof.
  intros Hk Ho [Hq Hv]. unfold mapped_option.
  apply contains_spec in Hq. apply contains_spec in Hv.
  destruct (List.find (fun option => PyStr.contains (PyStr.lower val) (PyStr.lower option))
              options) as [chosen |] eqn:Ef.
  - eapply first_some_exists; [exact Hk |]. cbn. rewrite Hq. exact Ef.
  - pose proof (find_none _ _ Ef option Ho) as Hn. cbn in Hn. congruence.
Qed.

(** The scan returns the first option of the first entry that applies to an
    option. *)
Lemma mapped_option_first (q : string) (options : list string)
    (before : list (string * string)) (key val : string) (after : list (string * string))
    (earlier : list string) (option : string) (later : list string) :
  ANSWER_MAP = before ++ (key, val) :: after ->
  Forall (fun '(k, v) => forall o, In o options -> ~ applies q k v o) before ->
  options = earlier ++ option :: later ->
  Forall (fun o => ~ applies q key val o) earlier ->
  applies q key val option ->
  mapped_option q options = Some option.
Proof.
  intros Em Hb Eo He [Hq Hv]. unfold mapped_option. rewrite Em.
  apply first_some_first.
  - eapply Forall_impl; [exact Hb |]. intros [k v] Hkv. cbn beta iota.
    destruct (PyStr.contains k (PyStr.lower q)) eqn:Ek; [| reflexivity].
    apply contains_spec in Ek. apply find_nothing. apply List.Forall_forall.
    intros o Ho. apply not_contains. intros Hv'. exact (Hkv o Ho (conj Ek Hv')).
  - cbn beta iota. apply contains_spec in Hq. rewrite Hq. rewrite Eo.
    apply find_first.
    + eapply Forall_impl; [exact He |]. intros o Hn. cbn beta.
      apply not_contains. intros Hv'. apply Hn. split; [now apply contains_spec | exact Hv'].
    + now apply contains_spec.
Qed.

Lemma mapped_option_returned (q : string) (options : list string) (n : nat) (d : D)
    (chosen : string) :
  mapped_option q options = Some chosen ->
  answer_select_with_retry q options n d = MkOut (Ok chosen) d [].
Proof.
  intros Hm. unfold answer_select_with_retry.
  destruct options as [|first_option rest].
  - destruct (mapped_option_meaning _ _ _ Hm) as (_ & _ & _ & _ & [] & _).
  - now rewrite Hm.
Qed.

(** X2. When a key of [ANSWER_MAP] occurs in the question, read
    case-insensitively, and an option contains the answer mapped to it,
    [answer_select_with_retry] returns at once, with an option to which an
    entry of the map applies: the language model is not asked and nothing
    else is called.  The option returned is the first one that the first
    such entry, in the order of the map, applies to. *)
Theorem mapped_answer_skips_model (q : string) (options : list string) (n : nat)
    (d : D) :
  (forall key val option,
     In (key, val) ANSWER_MAP -> In option options -> applies q key val option ->
     exists chosen,
       answer_select_with_retry q options n d = MkOut (Ok chosen) d [] /\
       In chosen options /\
       exists key' val', In (key', val') ANSWER_MAP /\ applies q key' val' chosen) /\
  (forall before key val after earlier option later,
     ANSWER_MAP = before ++ (key, val) :: after ->
     Forall (fun '(k, v) => forall o, In o options -> ~ applies q k v o) before ->
     options = earlier ++ option :: later ->
     Forall (fun o => ~ applies q key val o) earlier ->
     applies q key val option ->
     answer_select_with_retry q options n d = MkOut (Ok option) d []).
Proof.
  split.
  - intros key val option Hk Ho Ha.
    destruct (mapped_option_found q options key val option Hk Ho Ha) as [chosen Hm].
    exists chosen. split; [now apply mapped_option_returned |].
    destruct (mapped_option_meaning _ _ _ Hm) as (key' & val' & Hin & Hq & Hc & Hv).
    split; [exact Hc |]. exists key', val'. split; [exact Hin | now split].
  - intros before key val after earlier option later Em Hb Eo He Ha.
    apply mapped_option_returned. eapply mapped_option_first; eassumption.
Qed.

Lemma retry_sleeps (q : string) (n k m : nat) (d : D) :
  k + m = n ->
  let o := for_each (seq k m) (fun attempt (_ : unit) =>
             try_except
               (content <- call (ChatCompletion (5 # 10) 80 15 (text_prompt q));;
                let answer := PyStr.strip content in
                ret (Return answer))
               (fun _ =>
                  if (attempt =? n - 1)%nat
                  then ret (Return (get_smart_fallback q))
                  else (syscall (Sleep (inject_Z (2 ^ Z.of_nat attempt)));;;
                        ret (Continue tt)))) tt d in
  let calls := length (omap llm_outcome (events o)) in
  Nat.min 1 m <= calls <= m /\
  omap sleep_of (events o) =
    map (fun i => inject_Z (2 ^ Z.of_nat i)) (seq k (calls - 1)).
Proof.
  intros Hk. cbv zeta. revert k d Hk. induction m as [|m IH]; intros k d Hk.
  - cbn. split; [lia | reflexivity].
  - cbn [seq for_each].
    match goal with
    | |- context [bind ?b _ d] => set (round := b)
    end.
    destruct (oracle string (ChatCompletion (5 # 10) 80 15 (text_prompt q)) d)
      as [[content | e] d1] eqn:Eo.
    + assert (Hb : round d = MkOut (Ok (Return (PyStr.strip content))) d1
                     [Called (ChatCompletion (5 # 10) 80 15 (text_prompt q)) (Ok content)]).
      { unfold round, try_except, bind, call. rewrite Eo. reflexivity. }
      rewrite (bind_ok _ _ _ (Return (PyStr.strip content))) by now rewrite Hb.
      rewrite Hb. cbn. split; [lia | reflexivity].
    + destruct (k =? n - 1)%nat eqn:Ek.
      * assert (Hb : round d = MkOut (Ok (Return (get_smart_fallback q))) d1
                       [Called (ChatCompletion (5 # 10) 80 15 (text_prompt q)) (Raise e)]).
        { unfold round, try_except, bind, call. rewrite Eo. reflexivity. }
        rewrite (bind_ok _ _ _ (Return (get_smart_fallback q))) by now rewrite Hb.
        rewrite Hb. cbn. split; [lia | reflexivity].
      * destruct (sys unit (Sleep (inject_Z (2 ^ Z.of_nat k))) d1) as [u d2] eqn:Es.
        assert (Hb : round d = MkOut (Ok (Continue tt)) d2
                       [Called (ChatCompletion (5 # 10) 80 15 (text_prompt q)) (Raise e);
                        Timed (Sleep (inject_Z (2 ^ Z.of_nat k))) u]).
        { unfold round, try_except, bind, call, syscall. rewrite Eo.
          cbn [result final events]. rewrite Es. reflexivity. }
        rewrite (bind_ok _ _ _ (Continue tt)) by now rewrite Hb.
        rewrite Hb. cbn [result final events].
        apply Nat.eqb_neq in Ek.
        destruct (IH (S k) d2 ltac:(lia)) as [Hc Hs].
        cbn [app omap list_omap llm_outcome sleep_of length]. rewrite Hs.
        split; [lia |].
        destruct (length (omap llm_outcome _)) as [|calls] eqn:El; [lia |].
        cbn [Nat.sub seq map]. rewrite Nat.sub_0_r. reflexivity.
Qed.

(** X3. [answer_text_with_retry(q, max_retries)] asks the language model at
    most [max_retries] times (and at least once, unless [max_retries] is 0),
    and it sleeps only between attempts: 2 to the power [i] seconds after
    failure number [i], counting from 0, and never after its last attempt.  With the
    default of three attempts that is one second, then two. *)
Theorem answer_text_backoff (q : string) (max_retries : nat) (d : D) :
  let o := answer_text_with_retry q max_retries d in
  let calls := length (omap llm_outcome (events o)) in
  Nat.min 1 max_retries <= calls <= max_retries /\
  omap sleep_of (events o) =
    map (fun i => inject_Z (2 ^ Z.of_nat i)) (seq 0 (calls - 1)).
Proof.
  cbv zeta. unfold answer_text_with_retry, range.
  pose proof (retry_sleeps q max_retries 0 max_retries d eq_refl) as Hl.
  cbv zeta in Hl.
  match goal with
  | |- context [bind ?loop ?k d] =>
      assert (Ee : events (bind loop k d) = events (loop d))
  end.
  { unfold bind at 1.
    match goal with
    | |- context [result (?loop d)] => destruct (result (loop d)) as [[[] | a] | e]
    end; cbn; now rewrite ?app_nil_r. }
  rewrite Ee. exact Hl.
Qed.

End SelectAnswers.

(** ** Empty fields *)

Section EmptyFields.
Context `{Env}.

Lemma lstrip_empty (s : string) :
  PyStr.lstrip s = "" <-> PyStr.all_chars PyStr.isspace_char s = true.
Proof.
  induction s as [|c s IH]; simpl; [tauto |].
  destruct (PyStr.isspace_char c); simpl; [exact IH |].
  split; discriminate.
Qed.

Lemma lstrip_head (s : string) (c : ascii) (s' : string) :
  PyStr.lstrip s = String c s' -> PyStr.isspace_char c = false.
Proof.
  induction s as [|x s IH]; simpl; [discriminate |].
  destruct (PyStr.isspace_char x) eqn:Ex; [exact IH |].
  intros [= <- <-]. exact Ex.
Qed.

Lemma strip_empty (s : string) :
  String.eqb (PyStr.strip s) "" = PyStr.all_chars PyStr.isspace_char s.
Proof.
  unfold PyStr.strip.
  destruct (PyStr.lstrip s) as [|c s'] eqn:El.
  - simpl. symmetry. now apply lstrip_empty.
  - pose proof (lstrip_head _ _ _ El) as Hc.
    destruct (PyStr.all_chars PyStr.isspace_char s) eqn:Ea.
    + apply lstrip_empty in Ea. congruence.
    + simpl. destruct (PyStr.rstrip s'); [now rewrite Hc | reflexivity].
Qed.

(** One run of [is_field_empty]. *)
Lemma is_field_empty_run (field : Locator) (d : D) :
  let read := oracle string (InputValue field) d in
  is_field_empty field d =
    MkOut (Ok match fst read with
              | Ok v => PyStr.all_chars PyStr.isspace_char v
              | Raise _ => true
              end)
          (snd read)
          ([Called (InputValue field) (fst read)] ++ []).
Proof.
  cbv zeta. unfold is_field_empty, try_except, bind, call, ret.
  destruct (oracle string (InputValue field) d) as [[v | e] d1]; cbn; [| reflexivity].
  f_equal. f_equal.
  destruct v as [|c v]; [reflexivity |]. cbn [PyStr.or_else]. apply strip_empty.
Qed.

(** X4. [is_field_empty] does not raise and makes one call, [input_value].
    It says [True] when that call raises, and otherwise exactly when the
    value has nothing but whitespace in it. *)
Theorem is_field_empty_meaning (field : Locator) (d : D) :
  let read := oracle string (InputValue field) d in
  is_field_empty field d =
    MkOut (Ok match fst read with
              | Ok v => PyStr.all_chars PyStr.isspace_char v
              | Raise _ => true
              end)
          (snd read)
          ([Called (InputValue field) (fst read)] ++ []).
Proof. exact (is_field_empty_run field d). Qed.

End EmptyFields.

(** ** What the form filler writes *)

Section FormWrites.
Context `{Env}.

Local Open Scope py_scope.

Ltac quiet_solve :=
  first
    [ apply quiet_answer_select
    | apply quiet_answer_text
    | apply quiet_is_field_empty
    | apply quiet_number_answer
    | apply quiet_group_labels
    | unfold quiet; emits_auto; fail ].

Lemma writes_under_quiet (section : Locator) (e : Event) :
  is_action e = false -> writes_under section e.
Proof.
  destruct e as [A r o | A r a]; [destruct r |]; cbn; intros; (discriminate || exact I).
Qed.

Lemma fill_selects_under (section : Locator) (did_fill : bool) :
  emits (writes_under section) (fill_selects section did_fill).
Proof.
  unfold fill_selects, fill_select. emits_auto; eauto.
  all: eapply quiet_emits; [quiet_solve | apply writes_under_quiet].
Qed.

Lemma fill_radios_under (section : Locator) (did_fill : bool) :
  emits (writes_under section) (fill_radios section did_fill).
Proof.
  unfold fill_radios, check_choice, group_labels, radio_group. emits_auto; eauto.
  all: eapply quiet_emits; [quiet_solve | apply writes_under_quiet].
Qed.

Lemma fill_numbers_under (section : Locator) (did_fill : bool) :
  emits (writes_under section) (fill_numbers section did_fill).
Proof.
  unfold fill_numbers, fill_number. emits_auto; eauto.
  all: eapply quiet_emits; [quiet_solve | apply writes_under_quiet].
Qed.

Lemma fill_texts_under (section : Locator) (did_fill : bool) :
  emits (writes_under section) (fill_texts section did_fill).
Proof.
  unfold fill_texts, fill_text. emits_auto; eauto.
  all: try (eapply quiet_emits; [quiet_solve | apply writes_under_quiet]).
Qed.

Lemma process_form_fields_under (section : Locator) :
  emits (writes_under section) (process_form_fields section).
Proof.
  unfold process_form_fields.
  apply emits_bind; [apply fill_selects_under | intros ?].
  apply emits_bind; [apply fill_radios_under | intros ?].
  apply emits_bind; [apply fill_numbers_under | intros ?].
  apply emits_bind; [apply fill_texts_under | intros ?].
  apply emits_ret.
Qed.

(** X5. [process_form_fields(section)] touches nothing outside its section:
    every fill, select and check is on a control located under [section],
    and it makes no click and no key press. *)
Theorem process_form_fields_stays_in_section (section : Locator) (d : D) :
  Forall (writes_under section) (events (process_form_fields section d)).
Proof. apply process_form_fields_under. Qed.

(** *** The returned flag *)

Lemma wrote_is_action (e : Event) : wrote e = true -> is_action e = true.
Proof.
  destruct e as [A r o | A r a]; [| discriminate].
  destruct o; [| discriminate]. destruct r; cbn; congruence.
Qed.

Lemma quiet_no_write (evs : list Event) :
  Forall (fun e => is_action e = false) evs -> existsb wrote evs = false.
Proof.
  induction 1 as [|e evs He _ IH]; [reflexivity |]. cbn. rewrite IH, orb_false_r.
  destruct (wrote e) eqn:Ew; [| reflexivity].
  apply wrote_is_action in Ew. congruence.
Qed.

Lemma tracks_ret {A} (f : A -> bool) (b0 : bool) (a : A) :
  f a = b0 -> tracks f b0 (ret a).
Proof. intros E d. cbn. now rewrite orb_false_r. Qed.

Lemma tracks_quiet_bind {A B} (f : B -> bool) (b0 : bool)
    (m : M D A) (k : A -> M D B) :
  quiet m -> (forall a, tracks f b0 (k a)) -> tracks f b0 (bind m k).
Proof.
  intros Hq Hk d. pose proof (quiet_no_write _ (Hq d)) as Hm.
  destruct (result (m d)) as [a | e] eqn:Em.
  - rewrite (bind_ok _ _ _ _ Em). cbn [result events].
    rewrite existsb_app, Hm. cbn [orb]. apply Hk.
  - rewrite (bind_raise _ _ _ _ Em). cbn [result events]. exact Hm.
Qed.

Lemma tracks_bind {A B} (g : A -> bool) (f : B -> bool) (b0 : bool)
    (m : M D A) (k : A -> M D B) :
  tracks g b0 m -> (forall a, tracks f (g a) (k a)) ->
  (forall a, never_raises (k a)) -> tracks f b0 (bind m k).
Proof.
  intros Hm Hk Hn d. specialize (Hm d).
  destruct (result (m d)) as [a | e] eqn:Em.
  - rewrite (bind_ok _ _ _ _ Em). cbn [result events].
    specialize (Hk a (final (m d))). destruct (Hn a (final (m d))) as [b Eb].
    rewrite Eb in Hk |- *. rewrite existsb_app, Hk, Hm. now rewrite orb_assoc.
  - rewrite (bind_raise _ _ _ _ Em). cbn [result events]. exact Hm.
Qed.

Lemma tracks_try {A} (f : A -> bool) (b0 : bool) (m : M D A) (h : exn -> M D A) :
  tracks f b0 m -> (forall e, tracks f b0 (h e)) -> tracks f b0 (try_except m h).
Proof.
  intros Hm Hh d. specialize (Hm d).
  destruct (result (m d)) as [a | e] eqn:Em.
  - rewrite (try_ok _ _ _ _ Em). now rewrite Em.
  - rewrite (try_raise _ _ _ _ Em). cbn [result events].
    rewrite existsb_app, Hm. cbn [orb]. apply Hh.
Qed.

(** A write followed by [return]: the flag is set when the write went
    through. *)
Lemma tracks_write {A} (f : A -> bool) (b0 : bool) (r : Req unit) (a : A) :
  (forall u, wrote (Called r (Ok u)) = true) -> f a = true ->
  tracks f b0 (bind (call r) (fun _ => ret a)).
Proof.
  intros Hw Ha d. unfold bind, call, ret.
  destruct (oracle unit r d) as [[u | e] d1]; cbn [result final events app existsb].
  - rewrite Hw, Ha. now destruct b0.
  - reflexivity.
Qed.

Lemma tracks_for_each {X S} (f : S -> bool)
    (items : list X) (body : X -> S -> M D (Ctl S Empty_set)) (s : S) :
  (forall x s, tracks (fun c => f (ctl_vars c)) (f s) (body x s)) ->
  (forall x s, never_raises (body x s)) ->
  tracks (fun r => f (loop_vars r)) (f s) (for_each items body s).
Proof.
  intros Hb Hn. revert s. induction items as [|x items IH]; intros s.
  - apply tracks_ret. reflexivity.
  - cbn [for_each].
    apply tracks_bind with (g := fun c => f (ctl_vars c)); [apply Hb | |].
    + intros [s' | s' | []]; cbn [ctl_vars]; [apply IH | now apply tracks_ret].
    + intros [s' | s' | []]; [now apply never_raises_for_each | apply never_raises_ret].
Qed.

Ltac tracks_step :=
  first
    [ progress cbv beta zeta
    | apply tracks_ret; reflexivity
    | apply tracks_try; [| intros ?]
    | apply tracks_write; [intros []; reflexivity | reflexivity]
    | apply tracks_quiet_bind; [quiet_solve | intros ?]
    | match goal with
      | |- tracks _ _ (if ?b then _ else _) => destruct b
      | |- tracks _ _ (match ?x with _ => _ end) => destruct x
      end ].

Lemma try_ret_never_raises {A} (m : M D A) (a : A) :
  never_raises (try_except m (fun _ => ret a)).
Proof. apply never_raises_try. intros e. apply never_raises_ret. Qed.

Lemma fill_select_tracks (section sel : Locator) (did_fill : bool) :
  tracks (fun c => ctl_vars c) did_fill (fill_select section sel did_fill).
Proof. unfold fill_select. repeat tracks_step. Qed.

Lemma fill_number_tracks (section num : Locator) (did_fill : bool) :
  tracks (fun c => ctl_vars c) did_fill (fill_number section num did_fill).
Proof. unfold fill_number. repeat tracks_step. Qed.

Lemma fill_text_tracks (section fld : Locator) (did_fill : bool) :
  tracks (fun c => ctl_vars c) did_fill (fill_text section fld did_fill).
Proof. unfold fill_text. repeat tracks_step. Qed.

(** A block of [process_form_fields]: a loop over the controls of one kind
    inside a [try]. *)
Lemma block_tracks {S} (f : S -> bool) (locator : Locator)
    (body : nat -> S -> M D (Ctl S Empty_set)) (s : S) (b0 : bool) :
  f s = b0 ->
  (forall i s, tracks (fun c => f (ctl_vars c)) (f s) (body i s)) ->
  (forall i s, never_raises (body i s)) ->
  tracks (fun b => b) b0
    (try_except
       (n <- call (Count locator);;
        r <- for_each (range n) body s;;
        ret (f (loop_vars r)))
       (fun _ => ret b0)).
Proof.
  intros Hs Hb Hn. apply tracks_try; [| intros e; now apply tracks_ret].
  apply tracks_quiet_bind; [unfold quiet; emits_auto |]. intros n.
  apply tracks_bind with (g := fun r => f (loop_vars r)).
  - rewrite <- Hs. now apply tracks_for_each.
  - intros r. now apply tracks_ret.
  - intros r. apply never_raises_ret.
Qed.

Lemma fill_selects_tracks (section : Locator) (did_fill : bool) :
  tracks (fun b => b) did_fill (fill_selects section did_fill).
Proof.
  unfold fill_selects.
  apply (block_tracks (fun b : bool => b)); [reflexivity | |].
  - intros i s. apply fill_select_tracks.
  - intros i s. apply try_ret_never_raises.
Qed.

Lemma fill_numbers_tracks (section : Locator) (did_fill : bool) :
  tracks (fun b => b) did_fill (fill_numbers section did_fill).
Proof.
  unfold fill_numbers.
  apply (block_tracks (fun b : bool => b)); [reflexivity | |].
  - intros i s. apply fill_number_tracks.
  - intros i s. apply try_ret_never_raises.
Qed.

Lemma fill_texts_tracks (section : Locator) (did_fill : bool) :
  tracks (fun b => b) did_fill (fill_texts section did_fill).
Proof.
  unfold fill_texts.
  apply (block_tracks (fun b : bool => b)); [reflexivity | |].
  - intros i s. apply fill_text_tracks.
  - intros i s. apply try_ret_never_raises.
Qed.

Lemma check_choice_tracks (section group_radios : Locator) (choice : string)
    (did_fill : bool) :
  tracks (fun b => b) did_fill (check_choice section group_radios choice did_fill).
Proof.
  unfold check_choice.
  apply tracks_quiet_bind; [unfold quiet; emits_auto |]. intros k.
  apply tracks_bind with (g := fun r => loop_vars r).
  - apply (tracks_for_each (fun b : bool => b)).
    + intros i s. repeat tracks_step.
    + intros i s. apply try_ret_never_raises.
  - intros r. now apply tracks_ret.
  - intros r. apply never_raises_ret.
Qed.

Lemma fill_radios_tracks (section : Locator) (did_fill : bool) :
  tracks (fun b => b) did_fill (fill_radios section did_fill).
Proof.
  unfold fill_radios.
  apply (block_tracks (fun s : gset (option string) * bool => snd s)); [reflexivity | |].
  - intros i [processed_groups df]. cbn [snd].
    apply tracks_try; [| intros e; now apply tracks_ret].
    apply tracks_quiet_bind; [unfold quiet; emits_auto |]. intros name.
    destruct (bool_decide (name ∈ processed_groups)); [now apply tracks_ret |].
    cbv zeta. apply tracks_try; [| intros e; now apply tracks_ret].
    apply tracks_quiet_bind; [unfold quiet; emits_auto |]. intros [|].
    { now apply tracks_ret. }
    apply tracks_quiet_bind; [apply quiet_group_labels |]. intros [|l labels].
    { now apply tracks_ret. }
    apply tracks_quiet_bind; [unfold quiet; emits_auto |]. intros t. cbv zeta.
    apply tracks_quiet_bind; [apply quiet_answer_select |]. intros choice.
    apply tracks_bind with (g := fun b : bool => b).
    + apply check_choice_tracks.
    + intros b. now apply tracks_ret.
    + intros b. apply never_raises_ret.
  - intros i [processed_groups df]. apply try_ret_never_raises.
Qed.

(** X6. [process_form_fields] does not raise, whatever the page and the
    language model do, and it returns [True] exactly when one of its fills,
    selects or checks went through without raising. *)
Theorem process_form_fields_reports_writes (section : Locator) (d : D) :
  exists did_fill,
    result (process_form_fields section d) = Ok did_fill /\
    did_fill = existsb wrote (events (process_form_fields section d)).
Proof.
  assert (Ht : tracks (fun b => b) false (process_form_fields section)).
  { unfold process_form_fields. cbv zeta.
    apply tracks_bind with (g := fun b : bool => b);
      [apply fill_selects_tracks | | intros b].
    2: { repeat (apply never_raises_bind; [apply try_ret_never_raises | intros ?]).
         apply never_raises_ret. }
    intros b1. apply tracks_bind with (g := fun b : bool => b);
      [apply fill_radios_tracks | | intros b].
    2: { repeat (apply never_raises_bind; [apply try_ret_never_raises | intros ?]).
         apply never_raises_ret. }
    intros b2. apply tracks_bind with (g := fun b : bool => b);
      [apply fill_numbers_tracks | | intros b].
    2: { repeat (apply never_raises_bind; [apply try_ret_never_raises | intros ?]).
         apply never_raises_ret. }
    intros b3. apply tracks_bind with (g := fun b : bool => b);
      [apply fill_texts_tracks | | intros b].
    2: { apply never_raises_ret. }
    intros b4. now apply tracks_ret. }
  specialize (Ht d).
  destruct (result (process_form_fields section d)) as [b | e] eqn:E.
  - exists b. split; [reflexivity | exact Ht].
  - exfalso.
    assert (Hn : never_raises (process_form_fields section)).
    { unfold process_form_fields. cbv zeta.
      repeat (apply never_raises_bind; [apply try_ret_never_raises | intros ?]).
      apply never_raises_ret. }
    destruct (Hn d) as [b Eb]. congruence.
Qed.

End FormWrites.

(** ** Finding the navigation button *)

Section Navigation.
Context `{Env}.

Local Open Scope py_scope.

Lemma zip_with_app_short {X Y Z} (f : X -> Y -> Z) (l1 l2 : list X) (k : list Y) :
  length k <= length l1 -> zip_with f (l1 ++ l2) k = zip_with f l1 k.
Proof.
  revert k. induction l1 as [|x l1 IH]; intros [|y k] Hl; simpl in *;
    try reflexivity; try lia.
  - now destruct l2.
  - f_equal. apply IH. lia.
Qed.

Lemma nth_error_lt {X} (l : list X) (n : nat) (x : X) :
  nth_error l n = Some x -> n < length l.
Proof. intros E. apply nth_error_Some. congruence. Qed.

(** The loop over the selectors of one button type. *)
Lemma scan_selectors (modal : PyObj) (button_type : string) (selectors : list string)
    (d : D) :
  let o := for_each selectors (fun selector (_ : unit) =>
             try_except
               (let btn := First (obj_locator modal selector) in
                v <- call (IsVisible btn);;
                if v then ret (Return (Some btn, button_type)) else ret (Continue tt))
               (fun _ => ret (Continue tt))) tt d in
  exists outcomes,
    events o = zip_with (probe modal) selectors outcomes /\
    ((exists earlier selector,
        outcomes = earlier ++ [Ok true] /\ Forall not_seen earlier /\
        nth_error selectors (length earlier) = Some selector /\
        result o = Ok (inr (Some (First (obj_locator modal selector)), button_type)))
     \/
     (length outcomes = length selectors /\ Forall not_seen outcomes /\
      result o = Ok (inl tt))).
Proof.
  cbv zeta. revert d. induction selectors as [|selector selectors IH]; intros d.
  - exists []. split; [reflexivity |]. right. repeat split. constructor.
  - cbn [for_each].
    match goal with
    | |- context [bind ?b _ d] => set (round := b)
    end.
    destruct (oracle bool (IsVisible (First (obj_locator modal selector))) d)
      as [[[|] | e] d1] eqn:Eo.
    + assert (Hb : round d =
                MkOut (Ok (Return (Some (First (obj_locator modal selector)), button_type)))
                      d1 [probe modal selector (Ok true)]).
      { unfold round, try_except, bind, call. rewrite Eo. reflexivity. }
      rewrite (bind_ok _ _ _ _ (f_equal result Hb)). rewrite Hb.
      cbn [result final events ret].
      exists [Ok true]. split; [cbn; now rewrite zip_with_nil_r |].
      left. exists [], selector. repeat split. constructor.
    + assert (Hb : round d = MkOut (Ok (Continue tt)) d1 [probe modal selector (Ok false)]).
      { unfold round, try_except, bind, call. rewrite Eo. reflexivity. }
      rewrite (bind_ok _ _ _ _ (f_equal result Hb)). rewrite Hb.
      cbn [result final events].
      destruct (IH d1) as (outcomes & Ee & Hr). rewrite Ee.
      exists (Ok false :: outcomes). split; [reflexivity |].
      destruct Hr as [(earlier & sel & -> & Hf & Hn & Er) | (Hl & Hf & Er)].
      * left. exists (Ok false :: earlier), sel. rewrite Er.
        repeat split; try assumption. constructor; [discriminate | exact Hf].
      * right. rewrite Er. cbn [length]. repeat split; [lia |].
        constructor; [discriminate | exact Hf].
    + assert (Hb : round d = MkOut (Ok (Continue tt)) d1 [probe modal selector (Raise e)]).
      { unfold round, try_except, bind, call. rewrite Eo. reflexivity. }
      rewrite (bind_ok _ _ _ _ (f_equal result Hb)). rewrite Hb.
      cbn [result final events].
      destruct (IH d1) as (outcomes & Ee & Hr). rewrite Ee.
      exists (Raise e :: outcomes). split; [reflexivity |].
      destruct Hr as [(earlier & sel & -> & Hf & Hn & Er) | (Hl & Hf & Er)].
      * left. exists (Raise e :: earlier), sel. rewrite Er.
        repeat split; try assumption. constructor; [discriminate | exact Hf].
      * right. rewrite Er. cbn [length]. repeat split; [lia |].
        constructor; [discriminate | exact Hf].
Qed.

(** The loop over the button types. *)
Lemma scan_configs (modal : PyObj) (configs : list (string * list string)) (d : D) :
  let order := flat_map (fun '(button_type, selectors) =>
                 map (fun selector => (button_type, selector)) selectors) configs in
  let o := for_each configs (fun '(button_type, selectors) (_ : unit) =>
             r <- for_each selectors (fun selector (_ : unit) =>
                    try_except
                      (let btn := First (obj_locator modal selector) in
                       v <- call (IsVisible btn);;
                       if v then ret (Return (Some btn, button_type))
                       else ret (Continue tt))
                      (fun _ => ret (Continue tt))) tt;;
             ret (lift_return r)) tt d in
  exists outcomes,
    events o = zip_with (probe modal) (map snd order) outcomes /\
    ((exists earlier button_type selector,
        outcomes = earlier ++ [Ok true] /\ Forall not_seen earlier /\
        nth_error order (length earlier) = Some (button_type, selector) /\
        result o = Ok (inr (Some (First (obj_locator modal selector)), button_type)))
     \/
     (length outcomes = length order /\ Forall not_seen outcomes /\
      result o = Ok (inl tt))).
Proof.
  cbv zeta. revert d. induction configs as [|[button_type selectors] configs IH]; intros d.
  - exists []. split; [reflexivity |]. right. repeat split. constructor.
  - cbn [for_each flat_map]. rewrite map_app, map_map. cbn [snd]. rewrite map_id.
    destruct (scan_selectors modal button_type selectors d) as (outs1 & Ee1 & Hr1).
    cbv zeta in Ee1, Hr1.
    match goal with
    | |- context [bind (bind ?inner ?k1) ?k2 d] => set (m := inner) in *
    end.
    destruct Hr1 as [(earlier & sel & -> & Hf & Hn & Er) | (Hl & Hf & Er)].
    + exists (earlier ++ [Ok true]).
      rewrite (bind_ok _ _ _ (Return (Some (First (obj_locator modal sel)), button_type)))
        by (rewrite (bind_ok _ _ _ _ Er); reflexivity).
      rewrite (bind_ok _ _ _ _ Er). cbn [result final events lift_return ret].
      rewrite !app_nil_r.
      assert (Hlen : length (earlier ++ [Ok true]) <= length selectors).
      { rewrite length_app. cbn. pose proof (nth_error_lt _ _ _ Hn). lia. }
      split; [rewrite zip_with_app_short by exact Hlen; exact Ee1 |].
      left. exists earlier, button_type, sel. repeat split; try assumption.
      rewrite nth_error_app1 by (rewrite length_map; exact (nth_error_lt _ _ _ Hn)).
      rewrite nth_error_map, Hn. reflexivity.
    + rewrite (bind_ok _ _ _ (Continue tt))
        by (rewrite (bind_ok _ _ _ _ Er); reflexivity).
      rewrite (bind_ok _ _ _ _ Er). cbn [result final events lift_return ret].
      rewrite !app_nil_r.
      destruct (IH (final (m d))) as (outs2 & Ee2 & Hr2).
      exists (outs1 ++ outs2). cbn [result final events].
      split.
      { rewrite zip_with_app by (symmetry; exact Hl). now rewrite Ee1, Ee2. }
      destruct Hr2 as [(earlier & ty & sel & -> & Hf2 & Hn2 & Er2) | (Hl2 & Hf2 & Er2)].
      * left. exists (outs1 ++ earlier), ty, sel. rewrite app_assoc.
        repeat split; try assumption.
        -- now apply Forall_app.
        -- rewrite length_app, nth_error_app2 by (rewrite length_map; lia).
           rewrite length_map, Hl.
           replace (length selectors + length earlier - length selectors)
             with (length earlier) by lia.
           exact Hn2.
      * right. repeat split; try assumption.
        -- rewrite !length_app, length_map. lia.
        -- now apply Forall_app.
Qed.

(** The whole run of [find_navigation_button]: the probes in order, and
    what is returned. *)
Lemma find_navigation_button_scan (modal : PyObj) (d : D) :
  let o := find_navigation_button modal d in
  exists outcomes,
    events o = zip_with (probe modal) (map snd nav_order) outcomes /\
    match result o with
    | Ok (Some btn, button_type) =>
        exists earlier selector,
          outcomes = earlier ++ [Ok true] /\ Forall not_seen earlier /\
          nth_error nav_order (length earlier) = Some (button_type, selector) /\
          btn = First (obj_locator modal selector)
    | Ok (None, button_type) =>
        button_type = "none" /\ length outcomes = 11 /\ Forall not_seen outcomes
    | Raise _ => False
    end.
Proof.
  cbv zeta. unfold find_navigation_button, nav_order.
  destruct (scan_configs modal button_configs d) as (outcomes & Ee & Hr).
  cbv zeta in Ee, Hr.
  exists outcomes.
  destruct Hr as [(earlier & ty & sel & -> & Hf & Hn & Er) | (Hl & Hf & Er)].
  - rewrite (bind_ok _ _ _ _ Er). cbn [result final events ret].
    rewrite app_nil_r. split; [exact Ee |]. now exists earlier, sel.
  - rewrite (bind_ok _ _ _ _ Er). cbn [result final events ret].
    rewrite app_nil_r. split; [exact Ee |]. repeat split; assumption.
Qed.

(** X7. [find_navigation_button] does not raise and only asks which buttons
    are visible, going through the submit selectors, then review, then next.
    It stops at the first button that is visible and returns it with its
    type; when no button is visible (an [is_visible] that raises counts as
    not visible) it has tried all eleven and returns [(None, "none")]. *)
Theorem find_navigation_button_first_visible (modal : PyObj) (d : D) :
  let o := find_navigation_button modal d in
  exists outcomes,
    events o = zip_with (probe modal) (map snd nav_order) outcomes /\
    match result o with
    | Ok (Some btn, button_type) =>
        exists earlier selector,
          outcomes = earlier ++ [Ok true] /\ Forall not_seen earlier /\
          nth_error nav_order (length earlier) = Some (button_type, selector) /\
          btn = First (obj_locator modal selector)
    | Ok (None, button_type) =>
        button_type = "none" /\ length outcomes = 11 /\ Forall not_seen outcomes
    | Raise _ => False
    end.
Proof. exact (find_navigation_button_scan modal d). Qed.

(** A button [find_navigation_button] returns is the first element of one
    of its selectors in [modal], and the type returned is that selector's. *)
Lemma find_navigation_button_found (modal : PyObj) :
  returns (fun found =>
             forall btn, fst found = Some btn ->
               exists selector,
                 In (snd found, selector) nav_order /\
                 btn = First (obj_locator modal selector))
          (find_navigation_button modal).
Proof.
  intros d [nav_btn button_type] E btn Eb. cbn [fst snd] in *. subst nav_btn.
  destruct (find_navigation_button_scan modal d) as (outcomes & _ & Hr).
  cbv zeta in Hr. rewrite E in Hr.
  destruct Hr as (earlier & selector & _ & _ & Hn & ->).
  exists selector. split; [| reflexivity]. eapply nth_error_In, Hn.
Qed.

End Navigation.

(** ** The state string of a dialog *)

Section ModalState.
Context `{Env}.

Local Open Scope py_scope.

Lemma emits_for_each_in {X S R} (P : Event -> Prop)
    (items : list X) (body : X -> S -> M D (Ctl S R)) (s : S) :
  (forall x s, In x items -> emits P (body x s)) -> emits P (for_each items body s).
Proof.
  revert s. induction items as [|x items IH]; intros s Hb; simpl.
  - apply emits_ret.
  - apply emits_bind; [apply Hb; now left |].
    intros [s' | s' | r]; [| apply emits_ret | apply emits_ret].
    apply IH. intros y s'' Hy. apply Hb. now right.
Qed.

(** A loop that collects: each round leaves the list as it is or appends one
    element. *)
Lemma returns_collect {X Y} (P : Y -> Prop) (items : list X)
    (body : X -> list Y -> M D (Ctl (list Y) Empty_set)) (s : list Y) :
  (forall x s, returns (fun c => exists added, ctl_vars c = s ++ added /\
                                  length added <= 1 /\ Forall P added) (body x s)) ->
  returns (fun r => exists added, loop_vars r = s ++ added /\
                      length added <= length items /\ Forall P added)
          (for_each items body s).
Proof.
  intros Hb. revert s. induction items as [|x items IH]; intros s; cbn [for_each].
  - apply returns_ret. exists []. rewrite app_nil_r.
    split; [reflexivity | split; [cbn; lia | constructor]].
  - eapply returns_bind_with; [apply Hb |].
    intros [s' | s' | []] (a1 & E1 & L1 & P1); cbn [ctl_vars] in E1; subst s'.
    + intros d r Er. destruct (IH (s ++ a1) d r Er) as (a2 & E2 & L2 & P2).
      exists (a1 ++ a2). rewrite app_assoc. split; [exact E2 |].
      split; [rewrite length_app; cbn [length]; lia | now apply Forall_app].
    + apply returns_ret. exists a1. cbn [loop_vars length].
      split; [reflexivity | split; [lia | exact P1]].
Qed.

Lemma get_modal_state_reads (modal : PyObj) : emits state_read (get_modal_state modal).
Proof.
  unfold get_modal_state.
  apply emits_try; [| intros; apply emits_ret].
  apply emits_bind; [apply emits_call; intros; now split | intros n].
  apply emits_bind.
  { destruct (0 <? n)%nat; [| apply emits_ret].
    apply emits_bind; [apply emits_call; intros; now split | intros; apply emits_ret]. }
  intros header_text. cbv zeta.
  apply emits_bind; [apply emits_call; intros; now split | intros m].
  apply emits_bind; [| intros; apply emits_ret].
  destruct (0 <? m)%nat; [| apply emits_ret].
  apply emits_bind; [apply emits_call; intros; now split | intros m'].
  apply emits_bind; [| intros; apply emits_ret].
  apply emits_for_each_in. intros i texts Hi.
  apply in_seq in Hi.
  apply emits_try; [| intros; apply emits_ret].
  apply emits_bind; [| intros t; cbv zeta; destruct (String.eqb _ _); apply emits_ret].
  apply emits_call. intros o. split; [reflexivity |]. cbn. lia.
Qed.

Lemma get_modal_state_value (modal : PyObj) :
  returns (fun s =>
             s = "unknown_state" \/
             exists header texts,
               s = header +:+ "::" +:+ PyStr.join "|" texts /\
               length texts <= 5 /\ Forall (fun t => t <> "") texts)
          (get_modal_state modal).
Proof.
  unfold get_modal_state.
  apply returns_try; [| intros e; apply returns_ret; now left].
  apply returns_bind. intros n. apply returns_bind. intros header_text. cbv zeta.
  apply returns_bind. intros m.
  eapply returns_bind_with
    with (Q1 := fun button_text => exists texts,
                  button_text = PyStr.join "|" texts /\
                  length texts <= 5 /\ Forall (fun t => t <> "") texts).
  - destruct (0 <? m)%nat.
    + apply returns_bind. intros m'.
      eapply returns_bind_with.
      * apply (returns_collect (fun t => t <> "")). intros i texts.
        apply returns_try; [| intros e; apply returns_ret; exists []; cbn;
                              rewrite app_nil_r;
                              split; [reflexivity | split; [lia | constructor]]].
        apply returns_bind. intros t. cbv zeta.
        destruct (String.eqb (PyStr.strip t) "") eqn:Et; apply returns_ret.
        -- exists []. cbn. rewrite app_nil_r.
           split; [reflexivity | split; [lia | constructor]].
        -- exists [PyStr.strip t]. cbn. split; [reflexivity | split; [lia |]].
           constructor; [| constructor]. intros E. rewrite E in Et. discriminate.
      * intros r (added & Er & Hl & Hp). apply returns_ret.
        exists added. rewrite Er. cbn [app]. split; [reflexivity | split; [| exact Hp]].
        unfold range in Hl. rewrite length_seq in Hl. lia.
    + apply returns_ret. exists []. split; [reflexivity | split; [cbn; lia | constructor]].
  - intros button_text (texts & -> & Hl & Hp). apply returns_ret.
    right. now exists header_text, texts.
Qed.

(** X8. [get_modal_state] does not raise; it only reads, and of the buttons
    it reads the text of the first five at most.  What it returns is
    "unknown_state", or the header, "::", and up to five non-empty button
    texts joined by "|". *)
Theorem get_modal_state_shape (modal : PyObj) (d : D) :
  Forall state_read (events (get_modal_state modal d)) /\
  exists s,
    result (get_modal_state modal d) = Ok s /\
    (s = "unknown_state" \/
     exists header texts,
       s = header +:+ "::" +:+ PyStr.join "|" texts /\
       length texts <= 5 /\ Forall (fun t => t <> "") texts).
Proof.
  split; [apply get_modal_state_reads |].
  assert (Hn : never_raises (get_modal_state modal)).
  { unfold get_modal_state. apply never_raises_try. intros e. apply never_raises_ret. }
  destruct (Hn d) as [s Es]. exists s. split; [exact Es |].
  exact (get_modal_state_value modal d s Es).
Qed.

End ModalState.

(** ** The wizard *)

Section Wizard.
Context `{Env}.

Local Open Scope py_scope.

Lemma emits_bind_with {A B} (P : Event -> Prop) (Q : A -> Prop)
    (m : M D A) (k : A -> M D B) :
  emits P m -> returns Q m -> (forall a, Q a -> emits P (k a)) -> emits P (bind m k).
Proof.
  intros Hm Hq Hk. eapply holds_emits with (Q := fun _ => True).
  apply holds_bind with (Q := Q).
  - intros d. split; [apply Hm | intros a Ea; exact (Hq d a Ea)].
  - intros a Ha. apply emits_holds, Hk, Ha.
Qed.

Lemma writes_in_first_ten_quiet (modal : PyObj) (e : Event) :
  is_action e = false -> writes_in_first_ten modal e.
Proof.
  destruct e as [A r o | A r a]; [destruct r |]; cbn; intros; (discriminate || exact I).
Qed.

Lemma process_sections_writes (modal : PyObj) :
  emits (writes_in_first_ten modal) (process_sections modal).
Proof.
  unfold process_sections. cbv zeta.
  apply emits_bind; [apply emits_call; intros; exact I | intros c].
  set (sections := if (c =? 0)%nat then _ else _).
  assert (Hs : In sections (section_lists modal)).
  { unfold sections, section_lists. destruct (c =? 0)%nat; cbn; auto. }
  clearbody sections.
  apply emits_bind; [apply emits_call; intros; exact I | intros c'].
  apply emits_bind; [| intros; apply emits_ret].
  apply emits_for_each_in. intros j fields_processed Hj.
  unfold range in Hj. apply in_seq in Hj.
  apply emits_try; [| intros; apply emits_ret].
  apply emits_bind; [apply emits_call; intros; exact I | intros t]. cbv zeta.
  destruct (10 <? _)%nat; [| apply emits_ret].
  apply emits_bind; [apply emits_call; intros; exact I | intros _].
  apply emits_bind; [| intros [|]; apply emits_ret].
  eapply emits_weaken; [apply process_form_fields_under |].
  intros [A r o | A r a]; [destruct r |]; cbn; try (intros; exact I); try contradiction.
  all: intros (selector & i & ->); exists sections, j, selector, i;
       split; [exact Hs | split; [lia | reflexivity]].
Qed.

(** X9. On a questions page the wizard fills in the first ten sections at
    most: every fill, select and check is on a control of one of the first
    ten elements of the section list it settled on, and nothing is clicked
    or pressed while the sections are gone through. *)
Theorem process_sections_first_ten (modal : PyObj) (d : D) :
  Forall (writes_in_first_ten modal) (events (process_sections modal d)).
Proof. apply process_sections_writes. Qed.

Lemma acts_inside_quiet (page modal : PyObj) (e : Event) :
  is_action e = false -> acts_inside page modal e.
Proof.
  destruct e as [A r o | A r a]; [destruct r |]; cbn; intros; (discriminate || exact I).
Qed.

Lemma inside_obj_locator (modal : PyObj) (selector : string) :
  inside modal (obj_locator modal selector).
Proof. destruct modal; cbn; auto. Qed.

Lemma first_ten_inside (page modal : PyObj) (e : Event) :
  writes_in_first_ten modal e -> acts_inside page modal e.
Proof.
  destruct e as [A r o | A r a]; [destruct r |]; cbn [writes_in_first_ten acts_inside];
    try (intros; exact I); try contradiction.
  all: intros (sections & j & selector & i & Hs & _ & ->); cbn [inside]; right;
       destruct Hs as [<- | [<- | []]]; cbn [inside]; apply inside_obj_locator.
Qed.

Lemma human_pause_emits (P : Event -> Prop) (a b : Q) :
  (forall e, is_action e = false -> P e) -> emits P (human_pause a b).
Proof.
  intros Hp. unfold human_pause.
  apply emits_bind; [| intros x]; apply emits_syscall; intros; now apply Hp.
Qed.

Lemma click_and_advance_inside (page modal : PyObj) (btn : Locator) (btn_type : string)
    (seen_states : gset string) :
  inside modal btn ->
  emits (acts_inside page modal) (click_and_advance btn btn_type seen_states).
Proof.
  intros Hb. unfold click_and_advance.
  apply emits_bind; [apply emits_call; intros; exact Hb | intros _].
  apply emits_bind; [apply human_pause_emits, acts_inside_quiet | intros _].
  destruct (String.eqb _ _); apply emits_ret.
Qed.

Lemma close_modal_inside (page modal : PyObj) :
  emits (acts_inside page modal) (close_modal page modal).
Proof.
  unfold close_modal. apply emits_bind.
  - apply emits_for_each. intros selector closed.
    apply emits_try; [| intros; apply emits_ret]. cbv zeta.
    apply emits_bind; [apply emits_call; intros; exact I | intros [|]];
      [| apply emits_ret].
    apply emits_bind; [| intros; apply emits_ret].
    apply emits_call. intros o. exact (inside_obj_locator modal selector).
  - intros r. cbv zeta. destruct (loop_vars r); [apply emits_ret |].
    apply emits_try; [| intros; apply emits_ret].
    unfold obj_keyboard_press.
    destruct page; [apply emits_call; intros; now split | apply emits_raise].
Qed.

(** After [find_navigation_button], with the button it found known to be in
    the dialog. *)
Lemma after_navigation {B} (page modal : PyObj)
    (k : option Locator * string -> M D B) :
  (forall selector btn_type,
     emits (acts_inside page modal)
           (k (Some (First (obj_locator modal selector)), btn_type))) ->
  (forall btn_type, emits (acts_inside page modal) (k (None, btn_type))) ->
  emits (acts_inside page modal) (bind (find_navigation_button modal) k).
Proof.
  intros Hsome Hnone.
  eapply emits_bind_with;
    [ eapply quiet_emits; [apply quiet_find_navigation_button | apply acts_inside_quiet]
    | apply find_navigation_button_found |].
  intros [[btn |] btn_type] Hf; cbn [fst snd] in Hf; [| apply Hnone].
  destruct (Hf btn eq_refl) as (selector & _ & ->). apply Hsome.
Qed.

Lemma modal_iteration_inside (page modal : PyObj) (seen_states : gset string) :
  emits (acts_inside page modal) (modal_iteration page modal seen_states).
Proof.
  unfold modal_iteration.
  apply emits_try; [| intros; apply emits_ret].
  apply emits_bind.
  { unfold obj_is_visible.
    destruct modal; [apply emits_raise | apply emits_call; intros; exact I]. }
  intros [|]; cbn [negb]; [| apply emits_ret].
  apply emits_bind;
    [eapply quiet_emits; [apply quiet_get_modal_state | apply acts_inside_quiet]
    | intros current_state].
  destruct (bool_decide _); [apply emits_ret |]. cbv zeta.
  apply emits_bind; [apply emits_call; intros; exact I | intros n].
  apply emits_bind.
  { destruct (0 <? n)%nat; [| apply emits_ret].
    apply emits_bind; [apply emits_call; intros; exact I | intros; apply emits_ret]. }
  intros header_text.
  destruct (PyStr.any_in _ header_text).
  - apply after_navigation; [| intros; apply emits_ret].
    intros selector btn_type.
    destruct (in_list btn_type _); [| apply emits_ret].
    apply emits_bind;
      [apply emits_call; intros o; exact (inside_obj_locator modal selector) | intros _].
    apply emits_bind; [apply human_pause_emits, acts_inside_quiet | intros _].
    apply emits_ret.
  - destruct (PyStr.any_in _ header_text).
    + apply emits_bind;
        [eapply emits_weaken; [apply process_sections_writes | apply first_ten_inside]
        | intros _].
      apply after_navigation; [| intros; apply emits_ret].
      intros selector btn_type. apply click_and_advance_inside.
      exact (inside_obj_locator modal selector).
    + apply after_navigation.
      * intros selector btn_type. apply click_and_advance_inside.
        exact (inside_obj_locator modal selector).
      * intros btn_type.
        apply emits_bind; [apply close_modal_inside | intros; apply emits_ret].
Qed.

(** What every round emits, the loop emits. *)
Lemma modal_loop_emits (P : Event -> Prop) (page modal : PyObj) (start_time : Q)
    (max_duration : Z) :
  (forall now, P (Timed Monotonic now)) ->
  (forall seen_states, emits P (modal_iteration page modal seen_states)) ->
  forall loop_count seen_states,
    emits P (modal_loop page modal start_time max_duration loop_count seen_states).
Proof.
  intros Hclock Hround loop_count.
  remember (max_loops - loop_count) as n eqn:En.
  revert loop_count En.
  induction n as [n IH] using lt_wf_ind. intros loop_count En seen_states d.
  rewrite modal_loop_guard. revert d.
  apply emits_bind; [apply emits_syscall, Hclock | intros now].
  destruct (within now start_time max_duration); cbn [andb]; [| apply emits_ret].
  destruct (loop_count <? max_loops)%nat eqn:Hlt; [| apply emits_ret].
  apply Nat.ltb_lt in Hlt.
  apply emits_bind; [apply Hround | intros [seen' | seen' | b]];
    [| apply emits_ret | apply emits_ret].
  apply (IH (max_loops - S loop_count)); [lia | reflexivity].
Qed.

(** X10. The wizard keeps to the dialog it was given: whatever it clicks,
    fills, selects or checks is located inside [modal], and the only key it
    presses is Escape, on the page. *)
Theorem process_modal_stays_in_dialog (page modal : PyObj) (max_duration : Z) (d : D) :
  Forall (acts_inside page modal)
         (events (process_modal_with_timeout page modal max_duration d)).
Proof.
  revert d. unfold process_modal_with_timeout.
  apply emits_bind; [apply emits_syscall; intros; exact I | intros start_time].
  apply emits_bind.
  - apply modal_loop_emits; [intros; exact I | apply modal_iteration_inside].
  - intros [[b |] rounds]; [apply emits_ret |].
    apply emits_bind; [apply emits_syscall; intros; exact I | intros; apply emits_ret].
Qed.

End Wizard.

(** ** When the wizard reports success *)

Section Submitting.
Context `{Env}.

Local Open Scope py_scope.

Lemma traced_ret {A} (Q : A -> list Event -> Prop) (a : A) :
  Q a [] -> traced Q (ret a).
Proof. intros Hq d a' E. cbn in E. injection E as <-. exact Hq. Qed.

Lemma traced_bind_with {A B} (Q1 : A -> Prop) (Q : B -> list Event -> Prop)
    (m : M D A) (k : A -> M D B) :
  grows Q -> returns Q1 m -> (forall a, Q1 a -> traced Q (k a)) -> traced Q (bind m k).
Proof.
  intros Hg Hm Hk d b E. destruct (bind_inv _ _ _ _ E) as (a & Ea & Ek & _ & ->).
  apply Hg. exact (Hk a (Hm d a Ea) _ _ Ek).
Qed.

Lemma traced_bind {A B} (Q : B -> list Event -> Prop) (m : M D A) (k : A -> M D B) :
  grows Q -> (forall a, traced Q (k a)) -> traced Q (bind m k).
Proof.
  intros Hg Hk. apply traced_bind_with with (Q1 := fun _ => True); auto.
  intros d a _. exact I.
Qed.

Lemma traced_try {A} (Q : A -> list Event -> Prop) (m : M D A) (h : exn -> M D A) :
  grows Q -> traced Q m -> (forall e, traced Q (h e)) -> traced Q (try_except m h).
Proof.
  intros Hg Hm Hh d a E. destruct (result (m d)) as [a' | e] eqn:Em.
  - rewrite (try_ok _ _ _ _ Em) in E |- *. exact (Hm d a E).
  - rewrite (try_raise _ _ _ _ Em) in E |- *. cbn [result events] in E |- *.
    apply Hg. exact (Hh e _ a E).
Qed.

Lemma round_submits_grows (modal : PyObj) : grows (round_submits modal).
Proof.
  intros [s | s | b] earlier evs; cbn; auto.
  intros (-> & pre & selector & x & Hin & ->). split; [reflexivity |].
  exists (earlier ++ pre), selector, x. split; [exact Hin |]. now rewrite app_assoc.
Qed.

(** Clicking the button found returns from the function only for a submit
    button, and only when the click went through. *)
Lemma click_and_advance_submits (modal : PyObj) (selector btn_type : string)
    (seen_states : gset string) :
  In (btn_type, selector) nav_order ->
  traced (round_submits modal)
         (click_and_advance (First (obj_locator modal selector)) btn_type seen_states).
Proof.
  intros Hin d c E. revert E.
  unfold click_and_advance, human_pause, bind, call, syscall.
  destruct (oracle unit (Click (First (obj_locator modal selector))) d)
    as [[[] | e] d1]; cbn; [| discriminate].
  destruct (sys Q (RandomUniform 1 2) d1) as [x d2]; cbn.
  destruct (sys unit (Sleep x) d2) as [[] d3]; cbn.
  destruct (String.eqb btn_type "submit") eqn:Et; cbn; intros [= <-]; [| exact I].
  apply String.eqb_eq in Et. subst btn_type.
  split; [reflexivity |]. now exists [], selector, x.
Qed.

Lemma navigation_traced (modal : PyObj)
    (k : option Locator * string -> M D (Ctl (gset string) bool)) :
  (forall selector btn_type,
     In (btn_type, selector) nav_order ->
     traced (round_submits modal)
            (k (Some (First (obj_locator modal selector)), btn_type))) ->
  (forall btn_type, traced (round_submits modal) (k (None, btn_type))) ->
  traced (round_submits modal) (bind (find_navigation_button modal) k).
Proof.
  intros Hsome Hnone.
  eapply traced_bind_with;
    [apply round_submits_grows | apply find_navigation_button_found |].
  intros [[btn |] btn_type] Hf; cbn [fst snd] in Hf; [| apply Hnone].
  destruct (Hf btn eq_refl) as (selector & Hin & ->). now apply Hsome.
Qed.

Lemma modal_iteration_submits (page modal : PyObj) (seen_states : gset string) :
  traced (round_submits modal) (modal_iteration page modal seen_states).
Proof.
  pose proof (round_submits_grows modal) as Hg.
  unfold modal_iteration.
  apply traced_try; [exact Hg | | intros; now apply traced_ret].
  apply traced_bind; [exact Hg |].
  intros [|]; cbn [negb]; [| now apply traced_ret].
  apply traced_bind; [exact Hg | intros current_state].
  destruct (bool_decide _); [now apply traced_ret |]. cbv zeta.
  apply traced_bind; [exact Hg | intros n].
  apply traced_bind; [exact Hg | intros header_text].
  destruct (PyStr.any_in _ header_text).
  - apply navigation_traced; [| intros; now apply traced_ret].
    intros selector btn_type _.
    destruct (in_list btn_type _); [| now apply traced_ret].
    apply traced_bind; [exact Hg | intros _].
    apply traced_bind; [exact Hg | intros _]. now apply traced_ret.
  - destruct (PyStr.any_in _ header_text).
    + apply traced_bind; [exact Hg | intros _].
      apply navigation_traced; [| intros; now apply traced_ret].
      intros selector btn_type Hin. now apply click_and_advance_submits.
    + apply navigation_traced.
      * intros selector btn_type Hin. now apply click_and_advance_submits.
      * intros btn_type. apply traced_bind; [exact Hg | intros _].
        now apply traced_ret.
Qed.

(** The loop returns a value from inside a round only: [True], after the
    click on a submit button. *)
Lemma modal_loop_submits (page modal : PyObj) (start_time : Q) (max_duration : Z)
    (loop_count : nat) (seen_states : gset string) (d : D) (b : bool) (rounds : nat) :
  result (modal_loop page modal start_time max_duration loop_count seen_states d)
    = Ok (Some b, rounds) ->
  b = true /\
  submit_click modal
    (events (modal_loop page modal start_time max_duration loop_count seen_states d)).
Proof.
  remember (max_loops - loop_count) as n eqn:En.
  revert loop_count seen_states d En.
  induction n as [n IH] using lt_wf_ind. intros loop_count seen_states d En.
  rewrite modal_loop_guard. intros E.
  apply bind_inv in E. destruct E as (now & _ & E & _ & ->).
  apply (round_submits_grows modal (Return b)).
  destruct (within now start_time max_duration); cbn [andb] in E |- *;
    [| discriminate E].
  destruct (loop_count <? max_loops)%nat eqn:Hlt; [| discriminate E].
  apply Nat.ltb_lt in Hlt.
  apply bind_inv in E. destruct E as (c & Ec & E & _ & ->).
  destruct c as [seen' | seen' | b'].
  - apply (round_submits_grows modal (Return b)).
    apply (IH (max_loops - S loop_count)) in E; [exact E | lia | reflexivity].
  - discriminate E.
  - injection E as -> _. rewrite app_nil_r.
    exact (modal_iteration_submits page modal seen_states _ _ Ec).
Qed.

(** X11. [process_modal_with_timeout] returns [True] only at the end of a
    run whose last calls are a click on a submit button of the dialog that
    went through, and the pause after it. *)
Theorem success_only_after_submit (page modal : PyObj) (max_duration : Z) (d : D) :
  result (process_modal_with_timeout page modal max_duration d) = Ok true ->
  submit_click modal (events (process_modal_with_timeout page modal max_duration d)).
Proof.
  unfold process_modal_with_timeout. intros E.
  apply bind_inv in E. destruct E as (start_time & _ & E & _ & ->).
  apply bind_inv in E. destruct E as ([[b |] rounds] & Er & E & _ & ->).
  - apply modal_loop_submits in Er. destruct Er as [_ Hs].
    apply (round_submits_grows modal (Return true)). split; [reflexivity |].
    cbn [events ret]. rewrite app_nil_r. exact Hs.
  - apply bind_inv in E. destruct E as (now & _ & E & _ & _). discriminate E.
Qed.

End Submitting.

(** ** The job loop of [main] *)

Section JobLoop.
Context `{Env}.

Local Open Scope py_scope.

Lemma wizard_in_main_emits (modal : Locator) (max_duration : Z) :
  emits job_loop_call (process_modal_with_timeout (LocObj modal) PageObj max_duration).
Proof.
  intros d. destruct (wizard_call_in_main modal max_duration d) as [_ He].
  eapply Forall_impl; [exact He |]. intros e [now ->]. exact I.
Qed.

Lemma card_text_emits (card : Locator) (selectors : list string) (default : string) :
  emits job_loop_call (card_text card selectors default).
Proof. unfold card_text. emits_auto. Qed.

Lemma locate_modal_emits : emits job_loop_call locate_modal.
Proof. unfold locate_modal. emits_auto. Qed.

Lemma pause_emits (a b : Q) : emits job_loop_call (human_pause a b).
Proof. unfold human_pause. emits_auto. Qed.

Lemma dismiss_follow_up_emits : emits job_loop_call dismiss_follow_up.
Proof.
  unfold dismiss_follow_up.
  apply emits_try; [| intros; apply emits_ret]. cbv zeta.
  apply emits_bind; [apply emits_call; intros; exact I | intros c].
  destruct (0 <? c)%nat; [| apply emits_ret].
  apply emits_bind; [apply emits_call; intros; now right | intros _].
  apply pause_emits.
Qed.

Lemma record_application_emits (title company link : string) (results : list Row) :
  emits job_loop_call (record_application title company link results).
Proof.
  unfold record_application.
  apply emits_try; [| intros; apply emits_ret].
  apply emits_bind; [apply locate_modal_emits | intros [modal |]]; [| apply emits_ret].
  apply emits_bind; [apply emits_syscall; intros; exact I | intros start_time].
  apply emits_bind; [apply wizard_in_main_emits | intros success].
  apply emits_bind; [apply dismiss_follow_up_emits | intros _].
  apply emits_bind; [apply emits_syscall; intros; exact I | intros now]. cbv zeta.
  apply emits_bind; [apply emits_syscall; intros; exact I | intros timestamp].
  apply emits_ret.
Qed.

Lemma apply_to_job_emits (i : nat) (results : list Row) :
  emits job_loop_call (apply_to_job i results).
Proof.
  unfold apply_to_job.
  apply emits_try; [| intros; apply emits_ret]. cbv zeta.
  apply emits_bind; [apply emits_call; intros; exact I | intros n].
  destruct (n <=? i)%nat; [apply emits_ret |].
  apply emits_bind; [apply card_text_emits | intros title].
  apply emits_bind; [apply card_text_emits | intros company].
  apply emits_bind.
  { apply emits_try; [| intros; apply emits_ret].
    apply emits_bind; [apply emits_call; intros; exact I | intros; apply emits_ret]. }
  intros link.
  apply emits_bind; [apply emits_call; intros; left; now exists i | intros _].
  apply emits_bind; [apply pause_emits | intros _].
  apply emits_bind; [apply emits_call; intros; exact I | intros _].
  apply emits_bind; [apply pause_emits | intros _].
  apply emits_bind; [apply record_application_emits | intros [results' |]];
    [| apply emits_ret].
  apply emits_bind; [apply pause_emits | intros; apply emits_ret].
Qed.

(** X12. The job loop of [main] never fills in an application.  Its wizard
    call has the dialog and the page in each other's place, so the loop
    clicks job cards and the "Not now" button and nothing else: nothing is
    filled, selected, checked or pressed, and the language model is not
    asked. *)
Theorem job_loop_only_clicks_cards (cfg : Config) (count : nat) (d : D) :
  Forall job_loop_call (events (apply_to_jobs cfg count d)).
Proof.
  revert d. unfold apply_to_jobs.
  apply emits_bind; [| intros; apply emits_ret].
  apply emits_for_each. intros i results. apply apply_to_job_emits.
Qed.

(** X13. Every application the job loop of [main] records has the status
    "Incomplete": the loop does not raise, and no row it returns says
    "Success". *)
Theorem recorded_rows_incomplete (cfg : Config) (count : nat) (d : D) :
  exists rows,
    result (apply_to_jobs cfg count d) = Ok rows /\
    Forall (fun row => status row = Some "Incomplete") rows.
Proof.
  unfold apply_to_jobs.
  destruct (for_each_adds (fun row => status row = Some "Incomplete")
              (range (Z.to_nat (total cfg count))) apply_to_job [] d) as (added & E & _ & P).
  - intros i rs d'. destruct (apply_to_job_result i rs d') as (added & E & Hadd).
    exists added. split; [exact E |].
    destruct Hadd as [-> | (t & c & l & m & d1 & ts & dur & s & -> & Es & _)].
    + split; [cbn; lia | constructor].
    + split; [cbn; lia |].
      destruct (wizard_call_in_main m 300 d1) as [Ef _].
      rewrite Ef in Es. injection Es as <-. repeat constructor.
  - rewrite (bind_ok _ _ _ _ E). cbn. exists added. split; [reflexivity | exact P].
Qed.

End JobLoop.

(** ** The rows and the file *)

Section Saving.
Context `{Env}.

Lemma writerows_written (fieldnames : list string) (rows : list Row) (text : string) :
  Forall (written_as fieldnames) rows ->
  Csv.writerows fieldnames rows text =
    (Ok tt, text +:+ String.concat "" (map (fun row => Csv.line (cells row)) rows)).
Proof.
  intros Hw. revert text. induction Hw as [|row rows [_ Hrow] _ IH]; intros text.
  - cbn. now rewrite append_empty_r.
  - cbn [Csv.writerows map]. rewrite Hrow, IH. f_equal.
    rewrite append_assoc. f_equal. cbn [String.concat].
    destruct (map _ rows); [now rewrite append_empty_r | now rewrite append_nil].
Qed.

(** X14. What the job loop of [main] returns is saved without an error: no
    row has a key the writer does not know, and the file afterwards is the
    text it had (with the header, for a new file) followed by one line per
    row, holding the six values of the row. *)
Theorem recorded_rows_are_saved (cfg : Config) (count : nat) (d : D) (file : File) :
  exists rows,
    result (apply_to_jobs cfg count d) = Ok rows /\
    Improved.save rows file =
      (Ok tt,
       Some ((match file with
              | Some t => t
              | None => Csv.line Improved.fieldnames
              end)
             +:+ String.concat "" (map (fun row => Csv.line (cells row)) rows))).
Proof.
  destruct (apply_to_jobs_rows cfg count d) as (rows & E & _ & Hw).
  exists rows. split; [exact E |].
  unfold Improved.save, save_results, Csv.writeheader.
  destruct file as [t |]; cbn [negb]; cbv iota; rewrite (writerows_written _ _ _ Hw).
  - reflexivity.
  - now rewrite append_nil.
Qed.

End Saving.

Lemma writerows_app (fieldnames : list string) (rows1 rows2 : list Row) (text : string) :
  Csv.writerows fieldnames (rows1 ++ rows2) text =
    match Csv.writerows fieldnames rows1 text with
    | (Ok _, text1) => Csv.writerows fieldnames rows2 text1
    | (Raise e, text1) => (Raise e, text1)
    end.
Proof.
  revert text. induction rows1 as [|row rows1 IH]; intros text; cbn.
  - reflexivity.
  - destruct (Csv.dict_to_list fieldnames row) as [cells | e]; [apply IH | reflexivity].
Qed.

(** X15. Runs add up in the file.  When a run has saved its rows without an
    error, saving the rows of a second run to the file it left gives the
    same result and the same file as saving the rows of both runs at once:
    the header is written once, by the run that creates the file. *)
Theorem save_results_twice (fieldnames : list string) (rows1 rows2 : list Row)
    (file : File) :
  fst (save_results fieldnames rows1 file) = Ok tt ->
  save_results fieldnames rows2 (snd (save_results fieldnames rows1 file)) =
    save_results fieldnames (rows1 ++ rows2) file.
Proof.
  unfold save_results.
  set (text0 := if negb match file with Some _ => true | None => false end
                then Csv.writeheader fieldnames match file with Some t => t | None => "" end
                else match file with Some t => t | None => "" end).
  rewrite writerows_app.
  destruct (Csv.writerows fieldnames rows1 text0) as [[[] | e] text1]; cbn; [| discriminate].
  intros _. reflexivity.
Qed.

Lemma replace_comma (s : string) :
  PyStr.contains "," (PyStr.replace_char "," " -" s) = false.
Proof.
  induction s as [|c s IH]; [reflexivity |].
  cbn [PyStr.replace_char]. destruct (Ascii.eqb c ",") eqn:Ec.
  - rewrite !append_cons, append_nil.
    change (PyStr.contains "," (String " " (String "-" (PyStr.replace_char "," " -" s))))
      with (false || (false || PyStr.contains "," (PyStr.replace_char "," " -" s))).
    exact IH.
  - change (PyStr.contains "," (String c (PyStr.replace_char "," " -" s)))
      with (Ascii.eqb "," c && true || PyStr.contains "," (PyStr.replace_char "," " -" s)).
    rewrite Ascii.eqb_sym, Ec. exact IH.
Qed.

(** X16. The title and the company of a recorded row hold no comma, whatever
    the job card showed. *)
Theorem make_row_no_comma (title company link timestamp duration : string)
    (success : bool) :
  exists title_safe company_safe,
    Csv.get (make_row title company link timestamp duration success) "Title"
      = Some title_safe /\
    Csv.get (make_row title company link timestamp duration success) "Company"
      = Some company_safe /\
    PyStr.contains "," title_safe = false /\
    PyStr.contains "," company_safe = false.
Proof.
  eexists _, _. split; [reflexivity |]. split; [reflexivity |].
  split; apply replace_comma.
Qed.

(** ** Looking for the Easy Apply button *)

Section EasyApply.
Context `{Env}.

Local Open Scope py_scope.

Lemma traced_for_each_in {X S R} (Q : R -> list Event -> Prop)
    (items : list X) (body : X -> S -> M D (Ctl S R)) (s : S) :
  (forall r earlier evs, Q r evs -> Q r (earlier ++ evs)) ->
  (forall x s, In x items ->
     traced (fun c evs => match c with Return r => Q r evs | _ => True end) (body x s)) ->
  traced (fun r evs => match r with inr x => Q x evs | inl _ => True end)
         (for_each items body s).
Proof.
  intros Hg Hb. revert s. induction items as [|x items IH]; intros s d r E.
  - cbn in E. injection E as <-. exact I.
  - cbn [for_each] in E |- *.
    apply bind_inv in E. destruct E as (c & Ec & E & _ & ->).
    destruct r as [s' | found]; [exact I |].
    destruct c as [s1 | s1 | r1].
    + apply Hg. refine (IH _ s1 _ (inr found) E). intros y s2 Hy. apply Hb. now right.
    + discriminate E.
    + injection E as ->. cbn [events ret]. rewrite app_nil_r.
      exact (Hb x s (or_introl eq_refl) d (Return found) Ec).
Qed.

Lemma found_visible_grows (page : PyObj) (found : option Locator)
    (earlier evs : list Event) :
  found_visible page found evs -> found_visible page found (earlier ++ evs).
Proof.
  destruct found as [btn |]; [| trivial].
  intros (pre & selector & c & Hin & Eb & Hc & ->).
  exists (earlier ++ pre), selector, c. now rewrite app_assoc.
Qed.

Lemma find_easy_apply_button_traced (page : PyObj) :
  traced (found_visible page) (find_easy_apply_button page).
Proof.
  unfold find_easy_apply_button. intros d found E.
  apply bind_inv in E. destruct E as (r & Er & E & _ & ->).
  apply (traced_for_each_in (found_visible page)) in Er.
  - destruct r as [[] | found']; injection E as <-; [exact I |].
    cbn [events ret]. rewrite app_nil_r. exact Er.
  - apply found_visible_grows.
  - clear. intros selector [] Hin d c. cbv zeta.
    unfold try_except, bind, call, ret.
    destruct (oracle nat (Count (First (obj_locator page selector))) d)
      as [[n | e] d1]; cbn; [| now intros [= <-]].
    destruct n as [|n]; cbn.
    + destruct (oracle nat (Count (First (obj_locator page selector))) d1)
        as [[n' | e] d3]; cbn; now intros [= <-].
    + destruct (oracle bool (IsVisible (First (obj_locator page selector))) d1)
        as [[[|] | e] d2]; cbn.
      * intros [= <-]. exists [], selector, (S n).
        split; [exact Hin |]. split; [reflexivity |]. split; [lia | reflexivity].
      * destruct (oracle nat (Count (First (obj_locator page selector))) d2)
          as [[n' | e] d3]; cbn; now intros [= <-].
      * now intros [= <-].
Qed.

Lemma find_easy_apply_button_never_raises (page : PyObj) :
  never_raises (find_easy_apply_button page).
Proof.
  unfold find_easy_apply_button. apply never_raises_bind.
  - apply never_raises_for_each. intros selector []. apply try_ret_never_raises.
  - intros [[] | found]; apply never_raises_ret.
Qed.

Lemma find_easy_apply_button_probes (page : PyObj) :
  emits (button_probe page) (find_easy_apply_button page).
Proof.
  unfold find_easy_apply_button.
  apply emits_bind; [| intros [[] | found]; apply emits_ret].
  apply emits_for_each_in. intros selector [] Hin.
  apply emits_try; [| intros; apply emits_ret]. cbv zeta.
  apply emits_bind; [apply emits_call; intros; now exists selector | intros c].
  apply emits_bind.
  { destruct (0 <? c)%nat; [apply emits_call; intros; now exists selector | apply emits_ret]. }
  intros [|]; [apply emits_ret |].
  apply emits_bind; [apply emits_call; intros; now exists selector | intros; apply emits_ret].
Qed.

(** X17. [find_easy_apply_button] does not raise, and every call it makes is
    a count or an [is_visible] of the first element of one of its selectors:
    it calls nothing else.  A button it returns is the first element of one
    of its selectors, and its last two calls counted that element, at one or
    more, and found it visible. *)
Theorem find_easy_apply_button_found (page : PyObj) (d : D) :
  Forall (button_probe page) (events (find_easy_apply_button page d)) /\
  exists found,
    result (find_easy_apply_button page d) = Ok found /\
    found_visible page found (events (find_easy_apply_button page d)).
Proof.
  split.
  - apply find_easy_apply_button_probes.
  - destruct (find_easy_apply_button_never_raises page d) as [found E].
    exists found. split; [exact E |]. exact (find_easy_apply_button_traced page d found E).
Qed.

End EasyApply.

(** ** The form scan of [test_field_detection.py] *)

Section SimpleScan.
Context `{Env}.

Local Open Scope py_scope.

Lemma leads_ret {A} (P : Event -> bool) (f : A -> bool) (b0 : bool) (a : A) :
  (f a = true -> b0 = true) -> leads P f b0 (ret a).
Proof. intros Hf d a' E Ha. cbn in E. injection E as <-. left. auto. Qed.

Lemma leads_bind {A B} (P : Event -> bool) (g : A -> bool) (f : B -> bool) (b0 : bool)
    (m : M D A) (k : A -> M D B) :
  leads P g b0 m -> (forall a, leads P f (g a) (k a)) -> leads P f b0 (bind m k).
Proof.
  intros Hm Hk d b E Hb. apply bind_inv in E. destruct E as (a & Ea & Ek & _ & ->).
  rewrite existsb_app.
  destruct (Hk a _ b Ek Hb) as [Hg | Hp]; [| right; rewrite Hp; apply orb_true_r].
  destruct (Hm d a Ea Hg) as [H0 | Hp]; [now left | right; now rewrite Hp].
Qed.

Lemma leads_after {A B} (P : Event -> bool) (f : B -> bool) (b0 : bool)
    (m : M D A) (k : A -> M D B) :
  (forall a, leads P f b0 (k a)) -> leads P f b0 (bind m k).
Proof.
  intros Hk d b E Hb. apply bind_inv in E. destruct E as (a & Ea & Ek & _ & ->).
  rewrite existsb_app.
  destruct (Hk a _ b Ek Hb) as [H0 | Hp]; [now left | right].
  rewrite Hp. apply orb_true_r.
Qed.

Lemma leads_try {A} (P : Event -> bool) (f : A -> bool) (b0 : bool)
    (m : M D A) (h : exn -> M D A) :
  leads P f b0 m -> (forall e, leads P f b0 (h e)) -> leads P f b0 (try_except m h).
Proof.
  intros Hm Hh d a E Ha. destruct (result (m d)) as [a' | e] eqn:Em.
  - rewrite (try_ok _ _ _ _ Em) in E |- *. exact (Hm d a E Ha).
  - rewrite (try_raise _ _ _ _ Em) in E |- *. cbn [result events] in E |- *.
    rewrite existsb_app.
    destruct (Hh e _ a E Ha) as [H0 | Hp]; [now left | right].
    rewrite Hp. apply orb_true_r.
Qed.

Lemma leads_for_each {X S} (P : Event -> bool) (f : S -> bool)
    (items : list X) (body : X -> S -> M D (Ctl S Empty_set)) (s : S) :
  (forall x s, leads P (fun c => f (ctl_vars c)) (f s) (body x s)) ->
  leads P (fun r => f (loop_vars r)) (f s) (for_each items body s).
Proof.
  intros Hb. revert s. induction items as [|x items IH]; intros s.
  - apply leads_ret. auto.
  - cbn [for_each]. apply leads_bind with (g := fun c => f (ctl_vars c)); [apply Hb |].
    intros [s' | s' | []]; cbn [ctl_vars]; [apply IH | apply leads_ret; auto].
Qed.

(** A field sets the flag only when its first read found it empty. *)
Lemma simple_field_leads (fld : Locator) (did_fill : bool) :
  leads blank_read (fun c => ctl_vars c) did_fill (simple_field fld did_fill).
Proof.
  intros d c. unfold simple_field, try_except, bind.
  rewrite (is_field_empty_run fld d). cbv zeta. cbn [result final events].
  destruct (oracle string (InputValue fld) d) as [[v | e] d1]; cbn [fst snd].
  - destruct (PyStr.all_chars PyStr.isspace_char v) eqn:Ev; cbn [negb].
    + cbn. intros _ _. right. now rewrite Ev.
    + unfold call, ret.
      destruct (oracle string (InputValue fld) d1) as [[v' | e'] d2]; cbn;
        intros [= <-]; cbn; auto.
  - cbn. intros _ _. now right.
Qed.

Lemma simple_texts_leads (section : Locator) (did_fill : bool) :
  leads blank_read (fun b => b) did_fill (simple_texts section did_fill).
Proof.
  unfold simple_texts.
  apply leads_try; [| intros; apply leads_ret; auto]. cbv zeta.
  apply leads_after. intros n.
  apply leads_bind with (g := fun r => loop_vars r); [| intros r; apply leads_ret; auto].
  apply (leads_for_each blank_read (fun b => b)).
  intros idx s. apply simple_field_leads.
Qed.

Lemma simple_numbers_leads (section : Locator) (did_fill : bool) :
  leads blank_read (fun b => b) did_fill (simple_numbers section did_fill).
Proof.
  unfold simple_numbers.
  apply leads_try; [| intros; apply leads_ret; auto]. cbv zeta.
  apply leads_after. intros n.
  apply leads_bind with (g := fun r => loop_vars r); [| intros r; apply leads_ret; auto].
  apply (leads_for_each blank_read (fun b => b)).
  intros idx s. apply simple_field_leads.
Qed.

Lemma process_form_fields_simple_never_raises (section : Locator) :
  never_raises (process_form_fields_simple section).
Proof.
  unfold process_form_fields_simple. cbv zeta.
  apply never_raises_bind; [apply try_ret_never_raises | intros did_fill].
  apply never_raises_bind; [apply try_ret_never_raises | intros did_fill'].
  apply never_raises_ret.
Qed.

(** X18. The form scan of the test script, [process_form_fields_simple],
    does not raise and writes nothing: it only counts the fields and reads
    their values.  It says [True] only when one of its reads found a field
    empty: the value was nothing but whitespace, or the read raised. *)
Theorem process_form_fields_simple_reads (section : Locator) (d : D) :
  Forall (fun e => is_action e = false) (events (process_form_fields_simple section d)) /\
  exists did_fill,
    result (process_form_fields_simple section d) = Ok did_fill /\
    (did_fill = true ->
     existsb blank_read (events (process_form_fields_simple section d)) = true).
Proof.
  split.
  - revert d. unfold process_form_fields_simple, simple_texts, simple_numbers, simple_field.
    emits_auto. all: eapply quiet_emits; [apply quiet_is_field_empty | auto].
  - destruct (process_form_fields_simple_never_raises section d) as [did_fill E].
    exists did_fill. split; [exact E |]. intros Hd.
    assert (L : leads blank_read (fun b => b) false (process_form_fields_simple section)).
    { unfold process_form_fields_simple. cbv zeta.
      apply leads_bind with (g := fun b => b); [apply simple_texts_leads | intros did1].
      apply leads_bind with (g := fun b => b); [apply simple_numbers_leads | intros did2].
      apply leads_ret. auto. }
    destruct (L d did_fill E Hd) as [F | Hp]; [discriminate F | exact Hp].
Qed.

End SimpleScan.

(** ** Rows and ENTER presses *)

Section Entered.
Context `{Env}.

Local Open Scope py_scope.

Lemma call_ok_events {A} (r : Req A) (d : D) (a : A) :
  result (call r d) = Ok a -> events (call r d) = [Called r (Ok a)].
Proof. unfold call. destruct (oracle A r d) as [o d1]. cbn. now intros ->. Qed.

Lemma not_longer {X} (l : list X) (x : X) : l <> l ++ [x].
Proof. intros E. apply (f_equal (@length X)) in E. rewrite length_app in E. cbn in E. lia. Qed.

Lemma apply_to_job_entered (i : nat) (results : list Row) (d : D) :
  exists added,
    result (apply_to_job i results d) = Ok (Continue (results ++ added)) /\
    length added <= length (List.filter entered (events (apply_to_job i results d))).
Proof.
  destruct (apply_to_job_result i results d) as (added & E & Hadd).
  exists added. split; [exact E |].
  destruct Hadd as [-> | (t & c & l & m & d1 & ts & dur & s & -> & _)]; [cbn; lia |].
  revert E. unfold apply_to_job.
  match goal with |- context [try_except ?m ?h d] => destruct (result (m d)) as [c' | e] eqn:Em end.
  - rewrite (try_ok _ _ _ _ Em). rewrite Em. intros [= ->].
    apply bind_inv in Em. destruct Em as (n & _ & Em & _ & ->).
    destruct (n <=? i)%nat.
    { injection Em as Em. now apply not_longer in Em. }
    apply bind_inv in Em. destruct Em as (title & _ & Em & _ & ->).
    apply bind_inv in Em. destruct Em as (company & _ & Em & _ & ->).
    apply bind_inv in Em. destruct Em as (link & _ & Em & _ & ->).
    apply bind_inv in Em. destruct Em as (u1 & _ & Em & _ & ->).
    apply bind_inv in Em. destruct Em as (u2 & _ & Em & _ & ->).
    apply bind_inv in Em. destruct Em as (u3 & Ein & Em & _ & ->).
    rewrite (call_ok_events _ _ _ Ein).
    rewrite !List.filter_app, !length_app. cbn. lia.
  - rewrite (try_raise _ _ _ _ Em). cbn. intros [= E]. now apply not_longer in E.
Qed.

Lemma for_each_entered (items : list nat) (results : list Row) (d : D) :
  exists added,
    result (for_each items apply_to_job results d) = Ok (inl (results ++ added)) /\
    length added <=
      length (List.filter entered (events (for_each items apply_to_job results d))).
Proof.
  revert results d. induction items as [|x items IH]; intros results d.
  - exists []. rewrite app_nil_r. cbn. split; [reflexivity | lia].
  - cbn [for_each]. destruct (apply_to_job_entered x results d) as (a1 & E1 & L1).
    rewrite (bind_ok _ _ _ _ E1). cbn [result events].
    destruct (IH (results ++ a1) (final (apply_to_job x results d))) as (a2 & E2 & L2).
    exists (a1 ++ a2). rewrite app_assoc. split; [exact E2 |].
    rewrite List.filter_app, !length_app. lia.
Qed.

(** X19. No application is recorded that the user did not confirm: the job
    loop of [main] returns at most as many rows as there were ENTER presses,
    calls of [input()] that returned. *)
Theorem rows_need_enter (cfg : Config) (count : nat) (d : D) :
  exists rows,
    result (apply_to_jobs cfg count d) = Ok rows /\
    length rows <= length (List.filter entered (events (apply_to_jobs cfg count d))).
Proof.
  unfold apply_to_jobs.
  destruct (for_each_entered (range (Z.to_nat (total cfg count))) [] d) as (added & E & L).
  rewrite (bind_ok _ _ _ _ E). cbn [result events ret loop_vars].
  exists added. split; [reflexivity |]. rewrite app_nil_r. exact L.
Qed.

End Entered.

(** ** Fields are written only when found empty *)

Section Guarded.
Context `{Env}.

Local Open Scope py_scope.

Lemma guarded_nil : guarded [].
Proof. intros [|e0 pre] e post l E; discriminate E. Qed.

Lemma guarded_app (a b : list Event) : guarded a -> guarded b -> guarded (a ++ b).
Proof.
  intros Ha Hb pre e post l E Hw.
  apply app_eq_app in E. destruct E as [rest [[-> E] | [-> ->]]].
  - destruct rest as [|e' rest].
    + cbn in E. subst b. specialize (Hb [] e post l eq_refl Hw). inversion Hb.
    + cbn in E. injection E as <- ->. exact (Ha pre e rest l eq_refl Hw).
  - apply Exists_app. right. exact (Hb rest e post l eq_refl Hw).
Qed.

Lemma write_is_action (e : Event) (l : Locator) :
  write_target e = Some l -> is_action e = true.
Proof. destruct e as [A r o | A r a]; [destruct r |]; cbn; congruence. Qed.

Lemma guarded_quiet (evs : list Event) :
  Forall (fun e => is_action e = false) evs -> guarded evs.
Proof.
  intros Hq pre e post l -> Hw. apply Forall_app in Hq. destruct Hq as [_ Hq].
  inversion Hq as [|? ? He _]; subst. apply write_is_action in Hw. congruence.
Qed.

Lemma writes_only_quiet (l : Locator) (e : Event) :
  is_action e = false -> writes_only l e.
Proof.
  unfold writes_only. destruct (write_target e) as [l' |] eqn:Ew; [| trivial].
  apply write_is_action in Ew. congruence.
Qed.

(** After a read that found [l] empty, writes to [l] are in order. *)
Lemma guarded_read (l : Locator) (o : res string) (evs : list Event) :
  found_empty l (Called (InputValue l) o) ->
  Forall (writes_only l) evs ->
  guarded (Called (InputValue l) o :: evs).
Proof.
  intros Hf Hw pre e post l' E Ht. destruct pre as [|e0 pre]; cbn in E.
  - injection E as <- _. discriminate Ht.
  - injection E as <- ->. apply Forall_app in Hw. destruct Hw as [_ Hw].
    inversion Hw as [|? ? He _]; subst. unfold writes_only in He. rewrite Ht in He.
    subst l'. now apply Exists_cons_hd.
Qed.

Lemma keeps_ret {A} (a : A) : keeps_guard (ret a).
Proof. intros d. apply guarded_nil. Qed.

Lemma keeps_quiet {A} (m : M D A) : quiet m -> keeps_guard m.
Proof. intros Hq d. apply guarded_quiet, Hq. Qed.

Lemma keeps_bind {A B} (m : M D A) (k : A -> M D B) :
  keeps_guard m -> (forall a, keeps_guard (k a)) -> keeps_guard (bind m k).
Proof.
  intros Hm Hk d. destruct (result (m d)) as [a | e] eqn:Em.
  - rewrite (bind_ok _ _ _ _ Em). cbn [events]. apply guarded_app; [apply Hm | apply Hk].
  - rewrite (bind_raise _ _ _ _ Em). apply Hm.
Qed.

Lemma keeps_try {A} (m : M D A) (h : exn -> M D A) :
  keeps_guard m -> (forall e, keeps_guard (h e)) -> keeps_guard (try_except m h).
Proof.
  intros Hm Hh d. destruct (result (m d)) as [a | e] eqn:Em.
  - rewrite (try_ok _ _ _ _ Em). apply Hm.
  - rewrite (try_raise _ _ _ _ Em). cbn [events]. apply guarded_app; [apply Hm | apply Hh].
Qed.

Lemma keeps_for_each {X S R} (items : list X) (body : X -> S -> M D (Ctl S R)) (s : S) :
  (forall x s, keeps_guard (body x s)) -> keeps_guard (for_each items body s).
Proof.
  intros Hb. revert s. induction items as [|x items IH]; intros s; cbn [for_each].
  - apply keeps_ret.
  - apply keeps_bind; [apply Hb |]. intros [s' | s' | r]; [apply IH | |]; apply keeps_ret.
Qed.

(** The calls of a [try] block that begins with [m] and whose handler only
    returns. *)
Lemma try_bind_events {A B} (m : M D A) (k : A -> M D B) (b0 : B) (d : D) (a : A) :
  result (m d) = Ok a ->
  events (try_except (bind m k) (fun _ => ret b0) d) =
    events (m d) ++ events (k a (final (m d))).
Proof.
  intros E. pose proof (bind_ok m k d a E) as Eb.
  destruct (result (k a (final (m d)))) as [b | e] eqn:Ek.
  - rewrite (try_ok _ _ _ b) by (rewrite Eb; reflexivity). now rewrite Eb.
  - rewrite (try_raise _ _ _ e) by (rewrite Eb; reflexivity). rewrite Eb. cbn.
    now rewrite app_nil_r.
Qed.

(** A block that reads a field with [is_field_empty] first, leaves it alone
    when it is filled, and otherwise writes to that field only. *)
Lemma keeps_after_is_field_empty {B} (fld : Locator) (k : bool -> M D B) (b0 : B) :
  quiet (k false) ->
  emits (writes_only fld) (k true) ->
  keeps_guard (try_except (bind (is_field_empty fld) k) (fun _ => ret b0)).
Proof.
  intros Hfilled Hempty d.
  pose proof (is_field_empty_run fld d) as Hr. cbv zeta in Hr.
  destruct (oracle string (InputValue fld) d) as [o d1]. cbn [fst snd] in Hr.
  rewrite (try_bind_events _ _ _ _ _ (f_equal result Hr)). rewrite Hr.
  cbn [result final events app].
  destruct o as [v | e].
  - destruct (PyStr.all_chars PyStr.isspace_char v) eqn:Ev.
    + apply guarded_read; [| apply Hempty]. now exists (Ok v).
    + apply guarded_quiet. constructor; [reflexivity | apply Hfilled].
  - apply guarded_read; [| apply Hempty]. now exists (Raise e).
Qed.

Lemma non_blank_or_else (v : string) :
  non_blank (PyStr.or_else v "") = negb (PyStr.all_chars PyStr.isspace_char v).
Proof.
  unfold non_blank. f_equal.
  destruct v as [|c v]; [reflexivity |]. cbn [PyStr.or_else]. apply strip_empty.
Qed.

Lemma fill_number_guard (section num : Locator) (did_fill : bool) :
  keeps_guard (fill_number section num did_fill).
Proof.
  unfold fill_number. apply keeps_after_is_field_empty; cbn [negb].
  - unfold quiet. emits_auto.
  - emits_auto. eapply quiet_emits; [apply quiet_number_answer | apply writes_only_quiet].
Qed.

Lemma fill_text_guard (section fld : Locator) (did_fill : bool) :
  keeps_guard (fill_text section fld did_fill).
Proof.
  unfold fill_text. apply keeps_after_is_field_empty; cbn [negb].
  - unfold quiet. emits_auto.
  - emits_auto.
    all: try (eapply quiet_emits; [apply quiet_answer_text | apply writes_only_quiet]).
Qed.

Lemma fill_select_guard (section sel : Locator) (did_fill : bool) :
  keeps_guard (fill_select section sel did_fill).
Proof.
  intros d. unfold fill_select.
  destruct (oracle string (InputValue sel) d) as [o d1] eqn:Eo.
  pose proof (call_run _ _ _ _ Eo) as Hr.
  destruct o as [v | e].
  - rewrite (try_bind_events _ _ _ _ _ (f_equal result Hr)). rewrite Hr.
    cbn [result final events app]. cbv zeta. rewrite non_blank_or_else.
    destruct (PyStr.all_chars PyStr.isspace_char v) eqn:Ev; cbn [negb].
    + apply guarded_read; [now exists (Ok v) |].
      match goal with
      | |- Forall _ (events (?m d1)) =>
          assert (Hm : emits (writes_only sel) m); [| exact (Hm d1)]
      end.
      emits_auto.
      eapply quiet_emits; [apply quiet_answer_select | apply writes_only_quiet].
    + apply guarded_quiet. repeat constructor.
  - rewrite (try_raise _ _ _ e) by (rewrite (bind_raise _ _ _ e); [reflexivity | now rewrite Hr]).
    rewrite (bind_raise _ _ _ e) by now rewrite Hr. rewrite Hr. cbn.
    apply guarded_quiet. repeat constructor.
Qed.

Lemma fill_radios_no_fill (section : Locator) (did_fill : bool) :
  emits (fun e => write_target e = None) (fill_radios section did_fill).
Proof.
  unfold fill_radios, check_choice. emits_auto.
  all: eapply quiet_emits;
    [first [apply quiet_group_labels | apply quiet_answer_select] |].
  all: intros e He; destruct (write_target e) as [l |] eqn:Ew; [| reflexivity];
    apply write_is_action in Ew; congruence.
Qed.

Lemma guarded_no_fill (evs : list Event) :
  Forall (fun e => write_target e = None) evs -> guarded evs.
Proof.
  intros Hq pre e post l -> Hw. apply Forall_app in Hq. destruct Hq as [_ Hq].
  inversion Hq as [|? ? He _]; subst. congruence.
Qed.

Lemma block_guard (locator : Locator) (body : nat -> bool -> M D (Ctl bool Empty_set))
    (did_fill : bool) :
  (forall i s, keeps_guard (body i s)) ->
  keeps_guard
    (try_except
       (n <- call (Count locator);;
        r <- for_each (range n) body did_fill;;
        ret (loop_vars r))
       (fun _ => ret did_fill)).
Proof.
  intros Hb. apply keeps_try; [| intros; apply keeps_ret].
  apply keeps_bind; [apply keeps_quiet; unfold quiet; emits_auto | intros n].
  apply keeps_bind; [now apply keeps_for_each | intros r; apply keeps_ret].
Qed.

(** X20. [process_form_fields] fills in and selects only where it found
    nothing: every [fill] and every [select_option] it calls comes after a
    read of the value of the same control that raised or gave only
    whitespace.  (Radio buttons are checked without such a read.) *)
Theorem writes_follow_empty_reads (section : Locator) (d : D) :
  guarded (events (process_form_fields section d)).
Proof.
  revert d. change (keeps_guard (process_form_fields section)).
  unfold process_form_fields. cbv zeta.
  apply keeps_bind.
  { unfold fill_selects. cbv zeta. apply block_guard. intros. apply fill_select_guard. }
  intros did1. apply keeps_bind.
  { intros d. apply guarded_no_fill, fill_radios_no_fill. }
  intros did2. apply keeps_bind.
  { unfold fill_numbers. cbv zeta. apply block_guard. intros. apply fill_number_guard. }
  intros did3. apply keeps_bind; [| intros; apply keeps_ret].
  unfold fill_texts. cbv zeta. apply block_guard. intros. apply fill_text_guard.
Qed.

End Guarded.

(** ** The rule for number fields *)

Section NumberRuled.
Context `{Env}.

Local Open Scope py_scope.

(** The rule itself: what [number_answer] returns and what it calls. *)
Lemma number_answer_rule (label : string) (d : D) :
  exists ans, result (number_answer label d) = Ok ans /\
    PyStr.isdigit ans = true /\
    (mentions label ["year"; "experience"; "salary"] ->
     ans = "0" /\ events (number_answer label d) = []) /\
    (~ mentions label ["year"; "experience"; "salary"] ->
     exists answer,
       result (answer_text_with_retry label 3 d) = Ok answer /\
       events (number_answer label d) = events (answer_text_with_retry label 3 d) /\
       ans = if PyStr.isdigit answer then answer else "0").
Proof.
  unfold number_answer.
  destruct (PyStr.any_in ["year"; "experience"; "salary"] (PyStr.lower label)) eqn:E.
  - exists "0". repeat split; try reflexivity.
    intros Hn. exfalso. apply Hn. now apply any_in_mentions.
  - destruct (answer_text_outcomes label d) as [answer [Ea _]].
    cbv zeta in Ea. rewrite (bind_ok _ _ _ _ Ea). cbn [result events].
    assert (Hno : mentions label ["year"; "experience"; "salary"] -> False).
    { intros Hm. apply any_in_mentions in Hm. congruence. }
    destruct (PyStr.isdigit answer) eqn:Ed; cbn [result events ret]; rewrite app_nil_r.
    + exists answer. split; [reflexivity |]. split; [exact Ed |]. split.
      * intros Hm. destruct (Hno Hm).
      * intros _. exists answer. now rewrite Ed.
    + exists "0". split; [reflexivity |]. split; [reflexivity |]. split.
      * intros Hm. destruct (Hno Hm).
      * intros _. exists answer. now rewrite Ed.
Qed.

Lemma follows_number_rule_later (section : Locator) (a pre : list Event) (v : string) :
  follows_number_rule section pre v -> follows_number_rule section (a ++ pre) v.
Proof.
  intros (earlier & t & d' & E & Hrest). exists (a ++ earlier), t, d'.
  cbv zeta in *. split; [| exact Hrest]. rewrite E. now rewrite app_assoc.
Qed.

Lemma number_ruled_nil (section : Locator) : number_ruled section [].
Proof. intros [|e0 pre] e post i v E; discriminate E. Qed.

Lemma number_ruled_app (section : Locator) (a b : list Event) :
  number_ruled section a -> number_ruled section b -> number_ruled section (a ++ b).
Proof.
  intros Ha Hb pre e post i v E Hf.
  apply app_eq_app in E. destruct E as [rest [[-> E] | [-> ->]]].
  - destruct rest as [|e' rest]; cbn in E.
    + subst b. rewrite <- (app_nil_r pre). apply follows_number_rule_later.
      exact (Hb [] e post i v eq_refl Hf).
    + injection E as <- ->. exact (Ha pre e rest i v eq_refl Hf).
  - apply follows_number_rule_later. exact (Hb rest e post i v eq_refl Hf).
Qed.

Lemma not_number_fill_quiet (section : Locator) (e : Event) :
  is_action e = false -> not_number_fill section e.
Proof.
  destruct e as [A r o | A r a]; [| intros _; exact I].
  destruct r; cbn; try (intros _; exact I); discriminate.
Qed.

(** A trace with no fill of a number input has nothing to answer for. *)
Lemma number_ruled_other (section : Locator) (evs : list Event) :
  Forall (not_number_fill section) evs -> number_ruled section evs.
Proof.
  intros Hq pre e post i v -> Hf. apply Forall_app in Hq. destruct Hq as [_ Hq].
  inversion Hq as [|? ? He _]; subst.
  destruct e as [A r o | A r a]; [| discriminate Hf].
  destruct r; try discriminate Hf. cbn in Hf. injection Hf as -> ->.
  cbn in He. destruct (He eq_refl eq_refl).
Qed.

Lemma always_ret {A} (G : list Event -> Prop) (a : A) : G [] -> always G (ret a).
Proof. intros Hn d. exact Hn. Qed.

Lemma always_bind {A B} (G : list Event -> Prop) (m : M D A) (k : A -> M D B) :
  (forall a b, G a -> G b -> G (a ++ b)) ->
  always G m -> (forall a, always G (k a)) -> always G (bind m k).
Proof.
  intros Happ Hm Hk d. destruct (result (m d)) as [a | e] eqn:Em.
  - rewrite (bind_ok _ _ _ _ Em). cbn [events]. apply Happ; [apply Hm | apply Hk].
  - rewrite (bind_raise _ _ _ _ Em). apply Hm.
Qed.

Lemma always_try {A} (G : list Event -> Prop) (m : M D A) (h : exn -> M D A) :
  (forall a b, G a -> G b -> G (a ++ b)) ->
  always G m -> (forall e, always G (h e)) -> always G (try_except m h).
Proof.
  intros Happ Hm Hh d. destruct (result (m d)) as [a | e] eqn:Em.
  - rewrite (try_ok _ _ _ _ Em). apply Hm.
  - rewrite (try_raise _ _ _ _ Em). cbn [events]. apply Happ; [apply Hm | apply Hh].
Qed.

Lemma always_for_each {X S R} (G : list Event -> Prop)
    (items : list X) (body : X -> S -> M D (Ctl S R)) (s : S) :
  G [] -> (forall a b, G a -> G b -> G (a ++ b)) ->
  (forall x s, always G (body x s)) -> always G (for_each items body s).
Proof.
  intros Hn Happ Hb. revert s. induction items as [|x items IH]; intros s; cbn [for_each].
  - now apply always_ret.
  - apply always_bind; [exact Happ | apply Hb |].
    intros [s' | s' | r]; [apply IH | |]; now apply always_ret.
Qed.

(** In a trace of reads that ends with one write, the write is the last
    call. *)
Lemma split_at_action (reads : list Event) (x : Event) (pre : list Event) (y : Event)
    (post : list Event) :
  Forall (fun e => is_action e = false) reads -> is_action y = true ->
  reads ++ [x] = pre ++ y :: post ->
  pre = reads /\ y = x /\ post = [].
Proof.
  intros Hr Hy. revert pre. induction Hr as [|a reads Ha _ IH]; intros pre E.
  - destruct pre as [|e pre]; cbn in E.
    + now injection E as <- <-.
    + injection E as _ E. destruct pre; discriminate E.
  - destruct pre as [|e pre]; cbn in E.
    + injection E as <- _. congruence.
    + injection E as <- E. destruct (IH pre E) as (-> & -> & ->). auto.
Qed.

Lemma fill_is_action (e : Event) (l : Locator) (v : string) :
  fill_of e = Some (l, v) -> is_action e = true.
Proof. destruct e as [A r o | A r a]; [destruct r |]; cbn; congruence. Qed.

Lemma no_fill_in_reads (section : Locator) (evs : list Event) :
  Forall (fun e => is_action e = false) evs -> number_ruled section evs.
Proof.
  intros Hq. apply number_ruled_other.
  eapply Forall_impl; [exact Hq | apply not_number_fill_quiet].
Qed.

(** One number input: when its round fills it, the calls before the fill
    are the read of the section text and the calls of the rule, and the
    string filled is what the rule gave. *)
Lemma fill_number_ruled (section num : Locator) (did_fill : bool) :
  always (number_ruled section) (fill_number section num did_fill).
Proof.
  intros d. unfold fill_number.
  pose proof (is_field_empty_run num d) as Hr. cbv zeta in Hr.
  destruct (oracle string (InputValue num) d) as [o0 d1]. cbn [fst snd] in Hr.
  rewrite (try_bind_events _ _ _ _ _ (f_equal result Hr)). rewrite Hr.
  cbn [result final events app].
  set (empty := match o0 with
                | Ok v => PyStr.all_chars PyStr.isspace_char v
                | Raise _ => true
                end).
  destruct empty; cbn [negb].
  2:{ apply no_fill_in_reads. constructor; [reflexivity |].
      match goal with
      | |- Forall _ (events (?m d1)) =>
          assert (Hm : quiet m) by (unfold quiet; emits_auto); exact (Hm d1)
      end. }
  destruct (oracle string (InnerText section) d1) as [[t | e] d2] eqn:Et.
  2:{ pose proof (call_run _ _ _ _ Et) as Hc.
      rewrite (bind_raise _ _ _ e) by now rewrite Hc. rewrite Hc. cbn [events].
      apply no_fill_in_reads. repeat constructor. }
  pose proof (call_run _ _ _ _ Et) as Hc.
  rewrite (bind_ok _ _ _ t) by now rewrite Hc. rewrite Hc. cbn [result final events].
  cbv zeta.
  destruct (number_answer_rule (PyStr.strip t) d2) as (ans & Ea & Hd & Hyes & Hno).
  rewrite (bind_ok _ _ _ _ Ea). cbn [events].
  assert (Ef : exists o', events ((call (Fill num ans);;; ret (Continue (R := Empty_set) true))
                                    (final (number_answer (PyStr.strip t) d2)))
                          = [Called (Fill num ans) o']).
  { unfold bind, call.
    destruct (oracle unit (Fill num ans) (final (number_answer (PyStr.strip t) d2)))
      as [[u | e] d3]; cbn; eexists; reflexivity. }
  destruct Ef as [o' Ef]. rewrite Ef.
  intros pre e post i v E Hf.
  change (Called (InputValue num) o0
          :: [Called (InnerText section) (Ok t)]
             ++ events (number_answer (PyStr.strip t) d2) ++ [Called (Fill num ans) o'])
    with (([Called (InputValue num) o0; Called (InnerText section) (Ok t)]
           ++ events (number_answer (PyStr.strip t) d2)) ++ [Called (Fill num ans) o']) in E.
  apply split_at_action in E.
  - destruct E as (-> & -> & ->). cbn in Hf. injection Hf as _ <-.
    exists [Called (InputValue num) o0], t, d2. cbv zeta.
    split; [reflexivity |]. split; [exact Ea |]. split; [exact Hd |].
    split; [exact Hyes | exact Hno].
  - apply Forall_app. split; [repeat constructor | apply quiet_number_answer].
  - eapply fill_is_action, Hf.
Qed.

Lemma fill_numbers_ruled (section : Locator) (did_fill : bool) :
  always (number_ruled section) (fill_numbers section did_fill).
Proof.
  pose proof (number_ruled_nil section) as Hn.
  pose proof (number_ruled_app section) as Happ.
  unfold fill_numbers. cbv zeta.
  apply always_try; [exact Happ | | intros; now apply always_ret].
  apply always_bind; [exact Happ | | intros n].
  { intros d. apply no_fill_in_reads.
    match goal with
    | |- Forall _ (events (?m d)) =>
        assert (Hm : quiet m) by (unfold quiet; emits_auto); exact (Hm d)
    end. }
  apply always_bind; [exact Happ | | intros; now apply always_ret].
  apply always_for_each; [exact Hn | exact Happ |].
  intros idx s. apply fill_number_ruled.
Qed.

Lemma fill_selects_other (section : Locator) (did_fill : bool) :
  emits (not_number_fill section) (fill_selects section did_fill).
Proof.
  unfold fill_selects, fill_select. emits_auto.
  apply (quiet_emits _ _ (quiet_answer_select _ _ _)), not_number_fill_quiet.
Qed.

Lemma fill_radios_other (section : Locator) (did_fill : bool) :
  emits (not_number_fill section) (fill_radios section did_fill).
Proof.
  unfold fill_radios. emits_auto.
  all: apply (quiet_emits _ _ (quiet_answer_select _ _ _)), not_number_fill_quiet.
Qed.

Lemma fill_texts_other (section : Locator) (did_fill : bool) :
  emits (not_number_fill section) (fill_texts section did_fill).
Proof. unfold fill_texts, fill_text. emits_auto; intros _ E; discriminate E. Qed.

(** C9. In [process_form_fields] every string filled into an
    [input[type=number]] field is all digits, and it is the string the rule
    for number fields gives for the label of the section, read just before:
    "0" when the label, read case-insensitively, contains year, experience
    or salary, with nothing asked; otherwise the answer of
    [answer_text_with_retry(label)] when that is all digits, and "0" when it
    is not, with nothing called between the read of the label and the fill
    but what [answer_text_with_retry] calls. *)
Theorem number_fields_get_digits (section : Locator) (d : D) :
  Forall (number_fill_ok section) (events (process_form_fields section d)) /\
  forall pre e post i v,
    events (process_form_fields section d) = pre ++ e :: post ->
    fill_of e = Some (Nth (SubLoc section "input[type=number]") i, v) ->
    follows_number_rule section pre v.
Proof.
  split; [apply number_fills_are_digits |].
  change (number_ruled section (events (process_form_fields section d))).
  revert d. change (always (number_ruled section) (process_form_fields section)).
  pose proof (number_ruled_nil section) as Hn.
  pose proof (number_ruled_app section) as Happ.
  unfold process_form_fields. cbv zeta.
  apply always_bind; [exact Happ | | intros did1].
  { intros d. apply number_ruled_other, fill_selects_other. }
  apply always_bind; [exact Happ | | intros did2].
  { intros d. apply number_ruled_other, fill_radios_other. }
  apply always_bind; [exact Happ | apply fill_numbers_ruled | intros did3].
  apply always_bind; [exact Happ | | intros; now apply always_ret].
  intros d. apply number_ruled_other, fill_texts_other.
Qed.

End NumberRuled.

(** ** What [answer_select_with_retry] answers *)

Section SelectOutcomes.
Context `{Env}.

Local Open Scope py_scope.

(** A retry loop over the attempts [k], [k+1], ..., [m] of them, the last
    one being attempt [n - 1]: each round asks the language model once,
    returns on an answer, returns [last] when the last attempt raises, and
    otherwise sleeps and goes on. *)
Lemma retry_loop {A} (temperature : Q) (max_tokens timeout : Z) (prompt : string)
    (on_ok : string -> A) (last : A) (n : nat)
    (body : nat -> unit -> M D (Ctl unit A)) :
  let req := ChatCompletion temperature max_tokens timeout prompt in
  (forall attempt d content d1,
     oracle string req d = (Ok content, d1) ->
     body attempt tt d = MkOut (Ok (Return (on_ok content))) d1 [Called req (Ok content)]) ->
  (forall attempt d e d1,
     oracle string req d = (Raise e, d1) -> attempt = n - 1 ->
     body attempt tt d = MkOut (Ok (Return last)) d1 [Called req (Raise e)]) ->
  (forall attempt d e d1 u d2,
     oracle string req d = (Raise e, d1) -> attempt <> n - 1 ->
     sys unit (Sleep (inject_Z (2 ^ Z.of_nat attempt))) d1 = (u, d2) ->
     body attempt tt d =
       MkOut (Ok (Continue tt)) d2
             [Called req (Raise e); Timed (Sleep (inject_Z (2 ^ Z.of_nat attempt))) u]) ->
  forall m k d, k + m = n ->
    let o := for_each (seq k m) body tt d in
    exists failed,
      (exists content,
         result o = Ok (inr (on_ok content)) /\
         omap llm_outcome (events o) = map Raise failed ++ [Ok content] /\
         length failed < m) \/
      (result o = Ok (inr last) /\
       omap llm_outcome (events o) = map Raise failed /\
       length failed = m /\ 1 <= m) \/
      (m = 0 /\ result o = Ok (inl tt) /\ events o = []).
Proof.
  cbv zeta. intros Hok Hlast Hnext m.
  induction m as [|m IH]; intros k d Hk.
  - exists []. right. right. auto.
  - cbn [seq for_each].
    destruct (oracle string (ChatCompletion temperature max_tokens timeout prompt) d)
      as [[content | e] d1] eqn:Eo.
    + pose proof (Hok k d content d1 Eo) as Hb.
      rewrite (bind_ok _ _ _ (Return (on_ok content))) by now rewrite Hb.
      rewrite Hb. cbn [result final events ret].
      exists []. left. exists content. cbn. repeat split. lia.
    + destruct (Nat.eq_dec k (n - 1)) as [Ek | Ek].
      * pose proof (Hlast k d e d1 Eo Ek) as Hb.
        rewrite (bind_ok _ _ _ (Return last)) by now rewrite Hb.
        rewrite Hb. cbn [result final events ret].
        exists [e]. right. left. cbn. repeat split; lia.
      * destruct (sys unit (Sleep (inject_Z (2 ^ Z.of_nat k))) d1) as [u d2] eqn:Es.
        pose proof (Hnext k d e d1 u d2 Eo Ek Es) as Hb.
        rewrite (bind_ok _ _ _ (Continue tt)) by now rewrite Hb.
        rewrite Hb. cbn [result final events].
        destruct (IH (S k) d2 ltac:(lia)) as [failed Hf].
        exists (e :: failed).
        destruct Hf as [(content & Er & Eo' & Hl) | [(Er & Eo' & Hl & Hm) | (-> & _)]].
        -- left. exists content. rewrite Er. cbn. rewrite Eo'. repeat split. lia.
        -- right. left. rewrite Er. cbn. rewrite Eo'. repeat split; lia.
        -- lia.
Qed.

(** X21. When no mapped answer applies, [answer_select_with_retry] asks the
    language model up to [max_retries] times.  At the first attempt that
    succeeds it returns the first option that contains the stripped answer
    or is contained in it, compared in lower case, and the first option of
    all when there is none.  When every attempt raises it returns the first
    option that contains [get_smart_fallback(q)] in lower case, and else the
    first option of all. *)
Theorem answer_select_outcomes (q first_option : string) (rest : list string)
    (max_retries : nat) (d : D) :
  let options := first_option :: rest in
  let pick p := match List.find p options with
                | Some option => option
                | None => first_option
                end in
  mapped_option q options = None ->
  let o := answer_select_with_retry q options max_retries d in
  let outcomes := omap llm_outcome (events o) in
  exists answer,
    result o = Ok answer /\
    ((exists failed content,
        outcomes = map Raise failed ++ [Ok content] /\
        length failed < max_retries /\
        answer = pick (fun option =>
                   PyStr.contains (PyStr.lower (PyStr.strip content)) (PyStr.lower option)
                   || PyStr.contains (PyStr.lower option)
                        (PyStr.lower (PyStr.strip content))))
     \/
     (exists failed,
        outcomes = map Raise failed /\
        length failed = max_retries /\
        answer = if (max_retries =? 0)%nat then first_option
                 else pick (fun option =>
                        PyStr.contains (PyStr.lower (get_smart_fallback q))
                          (PyStr.lower option)))).
Proof.
  cbv zeta. intros Hm. unfold answer_select_with_retry, range. rewrite Hm.
  match goal with
  | |- context [for_each (seq 0 max_retries) ?body tt] =>
      destruct (retry_loop (3 # 10) 40 15 (select_prompt q (first_option :: rest))
                  (fun content =>
                     match List.find (fun option =>
                             PyStr.contains (PyStr.lower (PyStr.strip content))
                               (PyStr.lower option)
                             || PyStr.contains (PyStr.lower option)
                                  (PyStr.lower (PyStr.strip content)))
                             (first_option :: rest) with
                     | Some option => option
                     | None => first_option
                     end)
                  (match List.find (fun option =>
                           PyStr.contains (PyStr.lower (get_smart_fallback q))
                             (PyStr.lower option)) (first_option :: rest) with
                   | Some option => option
                   | None => first_option
                   end)
                  max_retries body) with (m := max_retries) (k := 0) (d := d)
        as [failed Hf]
  end.
  - intros attempt d0 content d1 Eo. unfold try_except, bind, call. rewrite Eo.
    cbn [result final events]. cbv zeta.
    destruct (List.find _ _); reflexivity.
  - intros attempt d0 e d1 Eo Ea. unfold try_except, bind, call. rewrite Eo.
    cbn [result final events]. apply Nat.eqb_eq in Ea. rewrite Ea. cbv zeta.
    destruct (List.find _ _); reflexivity.
  - intros attempt d0 e d1 u d2 Eo Ea Es. unfold try_except, bind, call, syscall.
    rewrite Eo. cbn [result final events]. apply Nat.eqb_neq in Ea. rewrite Ea.
    rewrite Es. reflexivity.
  - reflexivity.
  - cbv zeta in Hf.
    destruct Hf as [(content & Er & Eo & Hl) | [(Er & Eo & Hl & Hp) | (-> & Er & Ee)]].
    + rewrite (bind_ok _ _ _ _ Er). cbn [result final events ret]. rewrite app_nil_r.
      eexists. split; [reflexivity |]. left. now exists failed, content.
    + rewrite (bind_ok _ _ _ _ Er). cbn [result final events ret]. rewrite app_nil_r.
      eexists. split; [reflexivity |]. right. exists failed.
      split; [exact Eo |]. split; [exact Hl |].
      destruct max_retries; [lia | reflexivity].
    + rewrite (bind_ok _ _ _ _ Er). cbn [result final events ret]. rewrite Ee.
      eexists. split; [reflexivity |]. right. now exists [].
Qed.

End SelectOutcomes.

(** ** Runs in the small worlds *)

Import MoreDoubles.

Lemma mapped_answer_skips_model_witness :
  In ("visa sponsorship", "No") ANSWER_MAP /\
  applies "Do you need visa sponsorship?" "visa sponsorship" "No" "No" /\
  (exists chosen,
     @answer_select_with_retry radio_form "Do you need visa sponsorship?" ["Yes"; "No"] 3
       0%nat = MkOut (Ok chosen) 0%nat [] /\
     In chosen ["Yes"; "No"]) /\
  @answer_select_with_retry radio_form "Are you willing to relocate?" ["No"; "Yes"] 3 0%nat
    = MkOut (Ok "Yes") 0%nat [].
Proof.
  assert (Hk : In ("visa sponsorship", "No") ANSWER_MAP) by (cbn; tauto).
  assert (Ha : applies "Do you need visa sponsorship?" "visa sponsorship" "No" "No")
    by (split; apply contains_spec; reflexivity).
  destruct (@mapped_answer_skips_model radio_form "Do you need visa sponsorship?"
              ["Yes"; "No"] 3 0%nat) as [Hany _].
  destruct (@mapped_answer_skips_model radio_form "Are you willing to relocate?"
              ["No"; "Yes"] 3 0%nat) as [_ Hfirst].
  refine (conj Hk (conj Ha (conj _ _))).
  - destruct (Hany "visa sponsorship" "No" "No" Hk ltac:(cbn; tauto) Ha)
      as (chosen & E & Hc & _).
    exists chosen. exact (conj E Hc).
  - apply (Hfirst [("legally authorized to work", "Yes"); ("require sponsorship", "No")]
             "relocate" "Yes"
             [("minimum salary", "0"); ("start date", "Immediately");
              ("years of experience", "0"); ("notice period", "Immediately");
              ("willing to relocate", "Yes"); ("authorized to work", "Yes");
              ("visa sponsorship", "No")]
             ["No"] "Yes" []).
    + reflexivity.
    + repeat constructor; intros o _ [Hq _]; apply contains_spec in Hq; discriminate Hq.
    + reflexivity.
    + repeat constructor. intros [_ Hv]. apply contains_spec in Hv. discriminate Hv.
    + split; apply contains_spec; reflexivity.
Defined.

Lemma success_only_after_submit_witness :
  result (@process_modal_with_timeout submit_page PageObj (LocObj dialog) 300 0%nat)
    = Ok true /\
  submit_click (LocObj dialog)
    (events (@process_modal_with_timeout submit_page PageObj (LocObj dialog) 300 0%nat)).
Proof.
  assert (E : result (@process_modal_with_timeout submit_page PageObj (LocObj dialog)
                        300 0%nat) = Ok true) by (vm_compute; reflexivity).
  exact (conj E (@success_only_after_submit submit_page PageObj (LocObj dialog) 300
                   0%nat E)).
Defined.

Lemma save_results_twice_witness :
  let rows1 := [make_row "Intern" "ACME" "" "2024-05-01 10:00:00" "3 sec" false] in
  let rows2 := [make_row "Engineer, Junior" "Initech" "" "2024-05-02 09:30:00" "4 sec" false] in
  fst (save_results Improved.fieldnames rows1 None) = Ok tt /\
  save_results Improved.fieldnames rows2 (snd (save_results Improved.fieldnames rows1 None)) =
    save_results Improved.fieldnames (rows1 ++ rows2) None.
Proof.
  cbv zeta. refine (conj eq_refl _).
  apply save_results_twice. reflexivity.
Defined.

Lemma process_form_fields_simple_reads_witness :
  result (@process_form_fields_simple stuck_page form_section 0%nat) = Ok true /\
  existsb blank_read (events (@process_form_fields_simple stuck_page form_section 0%nat))
    = true.
Proof.
  destruct (@process_form_fields_simple_reads stuck_page form_section 0%nat)
    as (_ & did_fill & E & Hd).
  pose proof E as E'. vm_compute in E'. injection E' as <-.
  exact (conj E (Hd eq_refl)).
Defined.

Lemma answer_select_outcomes_witness :
  mapped_option "Favourite colour?" ["Red"; "Blue"] = None /\
  result (@answer_select_with_retry radio_form "Favourite colour?" ["Red"; "Blue"] 3 0%nat)
    = Ok "Red" /\
  exists failed,
    omap llm_outcome
      (events (@answer_select_with_retry radio_form "Favourite colour?" ["Red"; "Blue"] 3
                 0%nat)) = map Raise failed /\
    length failed = 3.
Proof.
  refine (conj eq_refl (conj eq_refl _)).
  destruct (@answer_select_outcomes radio_form "Favourite colour?" "Red" ["Blue"] 3 0%nat
              eq_refl) as (answer & _ & [(failed & content & Eo & _) | (failed & Eo & Hl & _)]).
  - vm_compute in Eo. destruct failed as [|e1 [|e2 [|e3 [|e4 failed]]]]; discriminate Eo.
  - exists failed. exact (conj Eo Hl).
Defined.

(** On the dialog that never changes the section has one number input; the
    label is "Next", the language model says " 42 ", and "42" is filled. *)
Lemma number_fields_get_digits_witness :
  let evs := events (@process_form_fields stuck_page form_section 0%nat) in
  evs = firstn 24 evs
        ++ Called (Fill (Nth (SubLoc form_section "input[type=number]") 0) "42") (Ok tt)
        :: skipn 25 evs /\
  @follows_number_rule stuck_page form_section (firstn 24 evs) "42".
Proof.
  cbv zeta.
  assert (E : events (@process_form_fields stuck_page form_section 0%nat) =
              firstn 24 (events (@process_form_fields stuck_page form_section 0%nat))
              ++ Called (Fill (Nth (SubLoc form_section "input[type=number]") 0) "42") (Ok tt)
              :: skipn 25 (events (@process_form_fields stuck_page form_section 0%nat)))
    by (vm_compute; reflexivity).
  split; [exact E |].
  destruct (@number_fields_get_digits stuck_page form_section 0%nat) as [_ Hrule].
  exact (Hrule _ _ _ 0 "42" E eq_refl).
Defined.
